(** * Megawatts: the Discord rate-limit subsystem (src/core/ratelimit)

    A shallow embedding of the priority queue, the in-memory store, the
    request middleware and the orchestrator, followed by the properties
    proved about them.

    Conventions.
    - JavaScript numbers that hold counters, priorities and millisecond
      clocks are integers of [Z].
    - [Date.now()] is an explicit argument [now]; one call of a modelled
      method reads the clock as one instant.
    - An [async] method whose body runs without interleaving is a function
      from the state before to the state after; what it resolves with or
      throws is part of its result.
    - A promise is a cell of a store of promise states, named by its index;
      the [resolve]/[reject] pair of a promise is the handle [PromiseFn p].
    - A request object is stored by value; where the source overwrites a
      field of the object ([resolve], [reject], [priority], [retryCount],
      [bucketId]) the model stores the updated record. *)

From Stdlib Require Import ZArith Lia Ascii DecimalString.
From stdpp Require Import gmap strings list fin_maps sorting.

Local Open Scope Z_scope.

(* ===================================================================== *)
(** * Strings of the JavaScript runtime *)
(* ===================================================================== *)

(** [String(n)] for an integer [n], as used by template literals. *)
Definition string_of_Z (n : Z) : string :=
  NilZero.string_of_int (Z.to_int n).

(** [s.startsWith(p)]. *)
Fixpoint startsWith (p s : string) : bool :=
  match p, s with
  | EmptyString, _ => true
  | String a p', String b s' =>
      if Ascii.eqb a b then startsWith p' s' else false
  | String _ _, EmptyString => false
  end.

(** [s.includes(p)]. *)
Fixpoint includes (p s : string) : bool :=
  startsWith p s ||
  match s with
  | EmptyString => false
  | String _ s' => includes p s'
  end.

(* ===================================================================== *)
(** * types.ts *)
(* ===================================================================== *)

(** A JavaScript [Error]: its message and, for network errors, its code. *)
Record JsError := {
  message : string;
  code : option string;
}.

Definition mkError (msg : string) : JsError :=
  {| message := msg; code := None |}.

(** [HttpResponse.data], of which the source reads [message] and
    [retry_after]. *)
Record ResponseData := {
  data_message : option string;
  data_retry_after : option Z;
  data_payload : string;
}.

(** The state of a promise. *)
Inductive PromiseState :=
| Pending
| Fulfilled (value : option ResponseData)
| Rejected (reason : JsError).

(** A [resolve]/[reject] function held by a request: a callback the caller
    supplied, or the settling functions of promise [p]. *)
Inductive Settler :=
| CallerFn
| PromiseFn (p : nat).

(** [interface QueuedRequest] ([body], [headers] and [isGlobal] are carried
    along untouched by the modelled code and left out). *)
Record QueuedRequest := {
  rq_id : string;
  url : string;
  method : string;
  priority : Z;
  timestamp : Z;
  retryCount : Z;
  maxRetries : Z;
  timeout : option Z;
  resolve : Settler;
  reject : Settler;
  bucketId : option string;
}.

Definition set_settlers (s : Settler) (r : QueuedRequest) : QueuedRequest :=
  {| rq_id := rq_id r; url := url r; method := method r;
     priority := priority r; timestamp := timestamp r;
     retryCount := retryCount r; maxRetries := maxRetries r;
     timeout := timeout r; resolve := s; reject := s;
     bucketId := bucketId r |}.

Definition set_priority (p : Z) (r : QueuedRequest) : QueuedRequest :=
  {| rq_id := rq_id r; url := url r; method := method r;
     priority := p; timestamp := timestamp r;
     retryCount := retryCount r; maxRetries := maxRetries r;
     timeout := timeout r; resolve := resolve r; reject := reject r;
     bucketId := bucketId r |}.

Definition set_retryCount (n : Z) (r : QueuedRequest) : QueuedRequest :=
  {| rq_id := rq_id r; url := url r; method := method r;
     priority := priority r; timestamp := timestamp r;
     retryCount := n; maxRetries := maxRetries r;
     timeout := timeout r; resolve := resolve r; reject := reject r;
     bucketId := bucketId r |}.

Definition set_maxRetries (n : Z) (r : QueuedRequest) : QueuedRequest :=
  {| rq_id := rq_id r; url := url r; method := method r;
     priority := priority r; timestamp := timestamp r;
     retryCount := retryCount r; maxRetries := n;
     timeout := timeout r; resolve := resolve r; reject := reject r;
     bucketId := bucketId r |}.

Definition set_timeout (n : option Z) (r : QueuedRequest) : QueuedRequest :=
  {| rq_id := rq_id r; url := url r; method := method r;
     priority := priority r; timestamp := timestamp r;
     retryCount := retryCount r; maxRetries := maxRetries r;
     timeout := n; resolve := resolve r; reject := reject r;
     bucketId := bucketId r |}.

Definition set_bucketId (b : option string) (r : QueuedRequest) : QueuedRequest :=
  {| rq_id := rq_id r; url := url r; method := method r;
     priority := priority r; timestamp := timestamp r;
     retryCount := retryCount r; maxRetries := maxRetries r;
     timeout := timeout r; resolve := resolve r; reject := reject r;
     bucketId := b |}.

(** [enum RequestPriority]. *)
Definition CRITICAL : Z := 0.
Definition HIGH : Z := 1.
Definition NORMAL : Z := 2.
Definition LOW : Z := 3.
Definition BULK : Z := 4.

(* ===================================================================== *)
(** * The promise store *)
(* ===================================================================== *)

(** The store: the state of promise [p] is at index [p]. *)
Abbreviation Heap := (list PromiseState).

(** [new Promise(...)] allocates the next cell. *)
Definition fresh (h : Heap) : nat := length h.

Definition alloc (st : PromiseState) (h : Heap) : Heap := h ++ [st].

(** Calling a promise's [resolve] or [reject]: the first call settles it,
    later calls do nothing. Calling a caller's callback leaves the promise
    store as it is. *)
Definition settle (s : Settler) (st : PromiseState) (h : Heap) : Heap :=
  match s with
  | CallerFn => h
  | PromiseFn p =>
      match h !! p with
      | Some Pending => <[p := st]> h
      | _ => h
      end
  end.

(* ===================================================================== *)
(** * priorityQueue.ts *)
(* ===================================================================== *)

Module PriorityQueue.

(** [queues] is the [Map<RequestPriority, QueuedRequest[]>]. The
    constructor inserts the keys 0, 1, 2, 3, 4 in this order and no
    method adds or removes a key, so the map is the list of its values in
    insertion order and the key of a tier is its position. *)
Record t := {
  queues : list (list QueuedRequest);
  processing : bool;
  maxSize : Z;
  totalSize : Z;
}.

Definition with_queues (qs : list (list QueuedRequest)) (total : Z) (q : t) : t :=
  {| queues := qs; processing := processing q;
     maxSize := maxSize q; totalSize := total |}.

(** [constructor(maxSize = 1000)]. *)
Definition new (maxSize : Z) : t :=
  {| queues := replicate 5 []; processing := false;
     maxSize := maxSize; totalSize := 0 |}.

(** [this.queues.get(priority)]. *)
Definition get (p : Z) (q : t) : option (list QueuedRequest) :=
  if 0 <=? p then queues q !! Z.to_nat p else None.

(** [queue.sort((a, b) => a.timestamp - b.timestamp)]: [Array.prototype.sort]
    is stable, so the outcome is the stable sort by timestamp. *)
Fixpoint insert_by_timestamp (x : QueuedRequest) (l : list QueuedRequest)
  : list QueuedRequest :=
  match l with
  | [] => [x]
  | y :: l' =>
      if timestamp x <=? timestamp y then x :: y :: l'
      else y :: insert_by_timestamp x l'
  end.

Definition sort (l : list QueuedRequest) : list QueuedRequest :=
  foldr insert_by_timestamp [] l.

Definition queue_full : JsError := mkError "Rate limit queue is full".

Definition invalid_priority (p : Z) : JsError :=
  mkError ("Invalid priority level: " +:+ string_of_Z p).

(** [enqueue(request)]: the new promise is the third component. *)
Definition enqueue (request : QueuedRequest) (q : t) (h : Heap)
  : t * Heap * nat :=
  let p := fresh h in
  if totalSize q >=? maxSize q then
    (q, alloc (Rejected queue_full) h, p)
  else
    let request := set_settlers (PromiseFn p) request in
    match get (priority request) q with
    | Some queue =>
        (with_queues
           (<[Z.to_nat (priority request) := sort (queue ++ [request])]>
              (queues q))
           (totalSize q + 1) q,
         alloc Pending h, p)
    | None =>
        (q, alloc (Rejected (invalid_priority (priority request))) h, p)
    end.

(** The request object after the call [enqueue(request)]: a full queue
    returns before the assignments to [request.resolve] and
    [request.reject], otherwise the object carries the settling functions
    of the new promise, whether or not its priority names a tier. *)
Definition enqueued (request : QueuedRequest) (q : t) (h : Heap)
  : QueuedRequest :=
  if totalSize q >=? maxSize q then request
  else set_settlers (PromiseFn (fresh h)) request.

(** The loop [for (let priority = 0; priority <= 4; priority++)] of
    [dequeue], over the priorities still to visit. *)
Fixpoint dequeue_loop (ps : list Z) (q : t) : option QueuedRequest * t :=
  match ps with
  | [] => (None, q)
  | p :: ps' =>
      match get p q with
      | Some (request :: rest) =>
          (Some request,
           with_queues (<[Z.to_nat p := rest]> (queues q)) (totalSize q - 1) q)
      | _ => dequeue_loop ps' q
      end
  end.

Definition tiers : list Z := [0; 1; 2; 3; 4].

Definition dequeue (q : t) : option QueuedRequest * t :=
  dequeue_loop tiers q.

Fixpoint peek_loop (ps : list Z) (q : t) : option QueuedRequest :=
  match ps with
  | [] => None
  | p :: ps' =>
      match get p q with
      | Some (request :: _) => Some request
      | _ => peek_loop ps' q
      end
  end.

Definition peek (q : t) : option QueuedRequest := peek_loop tiers q.

Definition getQueueSize (p : Z) (q : t) : Z :=
  match get p q with
  | Some queue => Z.of_nat (length queue)
  | None => 0
  end.

Definition getTotalSize (q : t) : Z := totalSize q.

(** The loop [for (let i = queue.length - 1; i >= 0; i--)] that splices
    out every request satisfying [test] and hands it to [act]: the state
    threaded through is the count of removed requests, [totalSize] and
    whatever [act] updates. [foldr] visits the last element first, as the
    loop does. *)
Definition splice_loop {A} (test : QueuedRequest → bool)
    (act : QueuedRequest → A → A) (queue : list QueuedRequest)
    (st : Z * Z * A) : list QueuedRequest * (Z * Z * A) :=
  foldr (fun request '(kept, (removed, total, a)) =>
           if test request
           then (kept, (removed + 1, total - 1, act request a))
           else (request :: kept, (removed, total, a)))
        ([], st) queue.

(** [this.queues.forEach(queue => ...)] around [splice_loop]; [guard]
    tells from the key of a tier whether its loop runs. *)
Fixpoint splice_queues {A} (guard : Z → bool) (test : QueuedRequest → bool)
    (act : QueuedRequest → A → A) (key : Z)
    (qs : list (list QueuedRequest)) (st : Z * Z * A)
  : list (list QueuedRequest) * (Z * Z * A) :=
  match qs with
  | [] => ([], st)
  | queue :: qs' =>
      let '(queue', st') :=
        if guard key then splice_loop test act queue st else (queue, st) in
      let '(qs'', st'') := splice_queues guard test act (key + 1) qs' st' in
      (queue' :: qs'', st'')
  end.

Definition timed_out : JsError := mkError "Request timed out in queue".

(** [removeExpired(timeoutMs = 30000)]: the queue, the promise store and
    the number of requests removed. *)
Definition removeExpired (timeoutMs now : Z) (q : t) (h : Heap)
  : t * Heap * Z :=
  let '(qs, (removed, total, h')) :=
    splice_queues (fun _ => true)
      (fun request => now - timestamp request >? timeoutMs)
      (fun expired => settle (reject expired) (Rejected timed_out))
      0 (queues q) (0, totalSize q, h) in
  (with_queues qs total q, h', removed).

Definition queue_cleared : JsError := mkError "Queue cleared".

(** [clear()]. *)
Definition clear (q : t) (h : Heap) : t * Heap :=
  (with_queues (map (fun _ => []) (queues q)) 0 q,
   foldl (fun h queue =>
            foldl (fun h request =>
                     settle (reject request) (Rejected queue_cleared) h)
                  h queue)
         h (queues q)).

Definition bucket_limited (bucket : string) : JsError :=
  mkError ("Bucket " +:+ bucket +:+ " rate limited").

(** [request.bucketId === bucketId]. *)
Definition in_bucket (bucket : string) (request : QueuedRequest) : bool :=
  bool_decide (bucketId request = Some bucket).

(** [clearBucket(bucketId)]. *)
Definition clearBucket (bucket : string) (q : t) (h : Heap)
  : t * Heap * Z :=
  let '(qs, (cleared, total, h')) :=
    splice_queues (fun _ => true) (in_bucket bucket)
      (fun removed => settle (reject removed)
                             (Rejected (bucket_limited bucket)))
      0 (queues q) (0, totalSize q, h) in
  (with_queues qs total q, h', cleared).

(** [getRequestsByBucket(bucketId)]. *)
Definition getRequestsByBucket (bucket : string) (q : t)
  : list QueuedRequest :=
  concat (map (filter (fun r => in_bucket bucket r = true)) (queues q)).

(** [promoteRequests(bucketId, newPriority)]: the requests found are
    pushed on [requestsToMove] in the order the loops meet them. When
    [newPriority] is not a key of the map the requests taken out are not
    put back. *)
Definition promoteRequests (bucket : string) (newPriority : Z) (q : t)
  : t * Z :=
  let '(qs, (_, total, requestsToMove)) :=
    splice_queues (fun key => key >? newPriority) (in_bucket bucket)
      (fun removed moved => moved ++ [removed])
      0 (queues q) (0, totalSize q, []) in
  let q1 := with_queues qs total q in
  match get newPriority q1 with
  | Some targetQueue =>
      let pushed := targetQueue ++ map (set_priority newPriority) requestsToMove in
      let n := Z.of_nat (length requestsToMove) in
      (with_queues (<[Z.to_nat newPriority := sort pushed]> qs) (total + n) q,
       n)
  | None => (q1, 0)
  end.

Definition isProcessing (q : t) : bool := processing q.

Definition setProcessing (b : bool) (q : t) : t :=
  {| queues := queues q; processing := b;
     maxSize := maxSize q; totalSize := totalSize q |}.

(** [getStats()]: the entries of the record it returns, [total] first,
    then one entry for each tier. *)
Definition getStats (q : t) : list (string * Z) :=
  ("total", totalSize q)
  :: imap (fun i queue =>
             ("priority_" +:+ string_of_Z (Z.of_nat i),
              Z.of_nat (length queue)))
          (queues q).

(** [getNextWaitTime()]. *)
Definition getNextWaitTime (now : Z) (q : t) : Z :=
  match peek q with
  | None => 0
  | Some nextRequest => Z.max 0 (timestamp nextRequest - now)
  end.

(** [getEstimatedProcessingTime()]. *)
Definition getEstimatedProcessingTime (q : t) : Z :=
  foldl (fun totalTime queue => totalTime + Z.of_nat (length queue) * 100)
        0 (queues q).

End PriorityQueue.

(* ===================================================================== *)
(** * types.ts: rate-limit records *)
(* ===================================================================== *)

Module RateLimitInfo.
(** [interface RateLimitInfo]. Once stored as the global limit,
    [resetAfter] holds an absolute time. *)
Record t := {
  limit : Z;
  remaining : Z;
  resetAfter : Z;
  maxRetries : Z;
  retryAfter : Z;
  global : bool;
  bucket : option string;
  messageId : option string;
  connectionId : option string;
}.

Definition with_resetAfter (v : Z) (i : t) : t :=
  {| limit := limit i; remaining := remaining i; resetAfter := v;
     maxRetries := maxRetries i; retryAfter := retryAfter i;
     global := global i; bucket := bucket i;
     messageId := messageId i; connectionId := connectionId i |}.
End RateLimitInfo.

Module RateLimitBucket.
(** [interface RateLimitBucket]. *)
Record t := {
  id : string;
  limit : Z;
  remaining : Z;
  resetAt : Z;
  resetAfter : Z;
  maxRetries : Z;
  lastUsed : Z;
  requests : list QueuedRequest;
}.

Definition with_lastUsed (v : Z) (b : t) : t :=
  {| id := id b; limit := limit b; remaining := remaining b;
     resetAt := resetAt b; resetAfter := resetAfter b;
     maxRetries := maxRetries b; lastUsed := v; requests := requests b |}.

Definition with_remaining (v : Z) (b : t) : t :=
  {| id := id b; limit := limit b; remaining := v;
     resetAt := resetAt b; resetAfter := resetAfter b;
     maxRetries := maxRetries b; lastUsed := lastUsed b;
     requests := requests b |}.

Definition with_window (l r after : Z) (b : t) : t :=
  {| id := id b; limit := l; remaining := r;
     resetAt := resetAt b; resetAfter := after;
     maxRetries := maxRetries b; lastUsed := lastUsed b;
     requests := requests b |}.
End RateLimitBucket.

Module RateLimitMetrics.
(** [interface RateLimitMetrics]. [averageResponseTime] is only ever
    written by [updateAverageResponseTime], which no modelled method
    calls. *)
Record t := {
  totalRequests : Z;
  successfulRequests : Z;
  rateLimitedRequests : Z;
  failedRequests : Z;
  averageResponseTime : Z;
  bucketCount : Z;
  queueSize : Z;
  globalRateLimits : Z;
  lastReset : Z;
}.

(** [keyof RateLimitMetrics]. *)
Inductive key :=
| TotalRequests | SuccessfulRequests | RateLimitedRequests
| FailedRequests | AverageResponseTime | BucketCount | QueueSize
| GlobalRateLimits | LastReset.

Definition with_bucketCount (v : Z) (m : t) : t :=
  {| totalRequests := totalRequests m;
     successfulRequests := successfulRequests m;
     rateLimitedRequests := rateLimitedRequests m;
     failedRequests := failedRequests m;
     averageResponseTime := averageResponseTime m;
     bucketCount := v; queueSize := queueSize m;
     globalRateLimits := globalRateLimits m; lastReset := lastReset m |}.

Definition with_queueSize (v : Z) (m : t) : t :=
  {| totalRequests := totalRequests m;
     successfulRequests := successfulRequests m;
     rateLimitedRequests := rateLimitedRequests m;
     failedRequests := failedRequests m;
     averageResponseTime := averageResponseTime m;
     bucketCount := bucketCount m; queueSize := v;
     globalRateLimits := globalRateLimits m; lastReset := lastReset m |}.

(** The [switch] of [incrementMetric]. *)
Definition increment (k : key) (m : t) : t :=
  {| totalRequests :=
       totalRequests m + (if k is TotalRequests then 1 else 0);
     successfulRequests :=
       successfulRequests m + (if k is SuccessfulRequests then 1 else 0);
     rateLimitedRequests :=
       rateLimitedRequests m + (if k is RateLimitedRequests then 1 else 0);
     failedRequests :=
       failedRequests m + (if k is FailedRequests then 1 else 0);
     averageResponseTime := averageResponseTime m;
     bucketCount := bucketCount m; queueSize := queueSize m;
     globalRateLimits :=
       globalRateLimits m + (if k is GlobalRateLimits then 1 else 0);
     lastReset := lastReset m |}.

Definition zero (bucketCount now : Z) : t :=
  {| totalRequests := 0; successfulRequests := 0;
     rateLimitedRequests := 0; failedRequests := 0;
     averageResponseTime := 0; bucketCount := bucketCount;
     queueSize := 0; globalRateLimits := 0; lastReset := now |}.
End RateLimitMetrics.

(* ===================================================================== *)
(** * config.ts *)
(* ===================================================================== *)

Module RateLimitConfig.
(** The numeric fields of [interface RateLimitConfig]. *)
Record t := {
  defaultLimit : Z;
  defaultResetAfter : Z;
  maxRetries : Z;
  retryDelay : Z;
  maxQueueSize : Z;
  globalLimit : Z;
  globalResetAfter : Z;
  bucketCleanupInterval : Z;
  requestTimeout : Z;
}.
End RateLimitConfig.

Definition DEFAULT_RATE_LIMIT_CONFIG : RateLimitConfig.t :=
  {| RateLimitConfig.defaultLimit := 5;
     RateLimitConfig.defaultResetAfter := 5000;
     RateLimitConfig.maxRetries := 3;
     RateLimitConfig.retryDelay := 1000;
     RateLimitConfig.maxQueueSize := 1000;
     RateLimitConfig.globalLimit := 50;
     RateLimitConfig.globalResetAfter := 1000;
     RateLimitConfig.bucketCleanupInterval := 60000;
     RateLimitConfig.requestTimeout := 30000 |}.

(** [ENDPOINT_RATE_LIMITS]: the [defaultLimit] and [defaultResetAfter] each
    entry overrides. *)
Definition ENDPOINT_RATE_LIMITS : list (string * (Z * Z)) :=
  [ ("POST/channels/:channel_id/messages", (5, 5000));
    ("DELETE/channels/:channel_id/messages/:message_id", (5, 5000));
    ("POST/guilds/:guild_id/bans/:user_id", (5, 1000));
    ("POST/channels/:channel_id/typing", (5, 10000));
    ("GET/gateway/bot", (1, 1000));
    ("POST/interactions/:interaction_id/:interaction_token/callback", (1, 3000));
    ("POST/channels/:channel_id/messages/bulk-delete", (1, 5000));
    ("GET/guilds/:guild_id/audit-logs", (10, 10000)) ].

Fixpoint assoc {A} (k : string) (l : list (string * A)) : option A :=
  match l with
  | [] => None
  | (k', v) :: l' => if String.eqb k k' then Some v else assoc k l'
  end.

(** [getRateLimitConfig(endpoint)]. *)
Definition getRateLimitConfig (endpoint : string) : RateLimitConfig.t :=
  let d := DEFAULT_RATE_LIMIT_CONFIG in
  match assoc endpoint ENDPOINT_RATE_LIMITS with
  | Some (l, after) =>
      {| RateLimitConfig.defaultLimit := l;
         RateLimitConfig.defaultResetAfter := after;
         RateLimitConfig.maxRetries := RateLimitConfig.maxRetries d;
         RateLimitConfig.retryDelay := RateLimitConfig.retryDelay d;
         RateLimitConfig.maxQueueSize := RateLimitConfig.maxQueueSize d;
         RateLimitConfig.globalLimit := RateLimitConfig.globalLimit d;
         RateLimitConfig.globalResetAfter := RateLimitConfig.globalResetAfter d;
         RateLimitConfig.bucketCleanupInterval :=
           RateLimitConfig.bucketCleanupInterval d;
         RateLimitConfig.requestTimeout := RateLimitConfig.requestTimeout d |}
  | None => d
  end.

(** The rate-limit headers of a response, as [extractRateLimitInfo] reads
    them: the three counters after [parseInt(... || '0')], whether
    [x-ratelimit-global] is ['true'], and [x-ratelimit-bucket]. *)
Record RateLimitHeaders := {
  x_ratelimit_limit : Z;
  x_ratelimit_remaining : Z;
  x_ratelimit_reset_after : Z;
  x_ratelimit_global : bool;
  x_ratelimit_bucket : option string;
}.

(** A string used as a condition: the empty string (like [undefined]) is
    false. *)
Definition truthy (s : option string) : option string :=
  match s with
  | Some EmptyString | None => None
  | Some s => Some s
  end.

(** [extractBucketId(headers)]. *)
Definition extractBucketId (hd : RateLimitHeaders) : option string :=
  if x_ratelimit_global hd then Some "global"
  else truthy (x_ratelimit_bucket hd).

(** What [extractRateLimitInfo(headers)] returns: [limit], [remaining],
    [resetAfter], [global], [bucket]. *)
Record ExtractedInfo := {
  ex_limit : Z;
  ex_remaining : Z;
  ex_resetAfter : Z;
  ex_global : bool;
  ex_bucket : option string;
}.

Definition extractRateLimitInfo (hd : RateLimitHeaders) : ExtractedInfo :=
  {| ex_limit := x_ratelimit_limit hd;
     ex_remaining := x_ratelimit_remaining hd;
     ex_resetAfter := x_ratelimit_reset_after hd;
     ex_global := x_ratelimit_global hd;
     ex_bucket := extractBucketId hd |}.

(** [calculateBackoffDelay(retryCount, baseDelay = 1000)], for a
    [retryCount] that is a count below 1024 (an integer from 0 on, for
    which [Math.pow(2, retryCount)] is the integer power). *)
Definition calculateBackoffDelay (retryCount baseDelay : Z) : Z :=
  Z.min (baseDelay * 2 ^ retryCount) 30000.

(** [shouldUsePriorityQueue(endpoint)]. *)
Definition shouldUsePriorityQueue (endpoint : string) : bool :=
  existsb (fun ep => startsWith ep endpoint)
    [ "POST/interactions";
      "POST/channels/:channel_id/typing";
      "DELETE/channels/:channel_id/messages/:message_id" ].

(** [getRequestPriority(endpoint, priority?)]. *)
Definition getRequestPriority (endpoint : string) (priority : option Z) : Z :=
  match priority with
  | Some p => p
  | None =>
      if includes "/interactions/" endpoint && includes "/callback" endpoint
      then 0
      else if includes "/typing" endpoint || startsWith "DELETE/" endpoint
      then 1
      else if startsWith "POST/" endpoint || startsWith "PUT/" endpoint
      then 2
      else if startsWith "GET/" endpoint && includes "/audit-logs" endpoint
      then 3
      else if includes "/bulk-" endpoint then 4
      else 2
  end.

(* ===================================================================== *)
(** * store.ts: MemoryRateLimitStore *)
(* ===================================================================== *)

Module MemoryRateLimitStore.

(** [cleanupInterval] tells whether the sweeping timer is armed. *)
Record t := {
  buckets : gmap string RateLimitBucket.t;
  globalLimit : option RateLimitInfo.t;
  metrics : RateLimitMetrics.t;
  cleanupInterval : bool;
  cleanupIntervalMs : Z;
}.

Definition with_buckets (b : gmap string RateLimitBucket.t) (s : t) : t :=
  {| buckets := b; globalLimit := globalLimit s; metrics := metrics s;
     cleanupInterval := cleanupInterval s;
     cleanupIntervalMs := cleanupIntervalMs s |}.

Definition with_globalLimit (g : option RateLimitInfo.t) (s : t) : t :=
  {| buckets := buckets s; globalLimit := g; metrics := metrics s;
     cleanupInterval := cleanupInterval s;
     cleanupIntervalMs := cleanupIntervalMs s |}.

Definition with_metrics (m : RateLimitMetrics.t) (s : t) : t :=
  {| buckets := buckets s; globalLimit := globalLimit s; metrics := m;
     cleanupInterval := cleanupInterval s;
     cleanupIntervalMs := cleanupIntervalMs s |}.

Definition with_cleanupInterval (c : bool) (s : t) : t :=
  {| buckets := buckets s; globalLimit := globalLimit s;
     metrics := metrics s; cleanupInterval := c;
     cleanupIntervalMs := cleanupIntervalMs s |}.

(** [this.buckets.size]. *)
Definition bucket_size (s : t) : Z := Z.of_nat (size (buckets s)).

Definition sync_bucketCount (s : t) : t :=
  with_metrics (RateLimitMetrics.with_bucketCount (bucket_size s) (metrics s)) s.

(** [constructor(cleanupIntervalMs = 60000)]. *)
Definition new (cleanupIntervalMs now : Z) : t :=
  {| buckets := ∅; globalLimit := None;
     metrics := RateLimitMetrics.zero 0 now;
     cleanupInterval := true; cleanupIntervalMs := cleanupIntervalMs |}.

(** [getBucket(bucketId)]. *)
Definition getBucket (bucketId : string) (now : Z) (s : t)
  : option RateLimitBucket.t * t :=
  match buckets s !! bucketId with
  | None => (None, s)
  | Some bucket =>
      if now >? RateLimitBucket.resetAt bucket
      then (None, with_buckets (delete bucketId (buckets s)) s)
      else (Some bucket, s)
  end.

(** [setBucket(bucketId, bucket)]. *)
Definition setBucket (bucketId : string) (bucket : RateLimitBucket.t)
    (now : Z) (s : t) : t :=
  sync_bucketCount
    (with_buckets
       (<[bucketId := RateLimitBucket.with_lastUsed now bucket]> (buckets s)) s).

(** [deleteBucket(bucketId)]. *)
Definition deleteBucket (bucketId : string) (s : t) : t :=
  sync_bucketCount (with_buckets (delete bucketId (buckets s)) s).

Definition expired (now : Z) (bucket : RateLimitBucket.t) : bool :=
  now >? RateLimitBucket.resetAt bucket.

Definition sweep (now : Z) (s : t) : t :=
  sync_bucketCount
    (with_buckets
       (filter (fun kv => expired now kv.2 = false) (buckets s)) s).

(** [getAllBuckets()]: the buckets still active, listed in the order of
    the finite map rather than in insertion order, and the store without
    the others. *)
Definition getAllBuckets (now : Z) (s : t)
  : list RateLimitBucket.t * t :=
  let s' := sweep now s in
  (map snd (map_to_list (buckets s')), s').

(** [clearExpiredBuckets()]. *)
Definition clearExpiredBuckets (now : Z) (s : t) : t := sweep now s.

(** [getGlobalLimit()]. *)
Definition getGlobalLimit (now : Z) (s : t)
  : option RateLimitInfo.t * t :=
  match globalLimit s with
  | None => (None, s)
  | Some g =>
      if now >? RateLimitInfo.resetAfter g
      then (None, with_globalLimit None s)
      else (Some g, s)
  end.

(** [setGlobalLimit(limit)]. *)
Definition setGlobalLimit (limit : RateLimitInfo.t) (now : Z) (s : t) : t :=
  with_metrics
    (RateLimitMetrics.increment RateLimitMetrics.GlobalRateLimits (metrics s))
    (with_globalLimit
       (Some (RateLimitInfo.with_resetAfter
                (now + RateLimitInfo.resetAfter limit) limit)) s).

(** [incrementMetric(metric)]. *)
Definition incrementMetric (metric : RateLimitMetrics.key) (s : t) : t :=
  with_metrics (RateLimitMetrics.increment metric (metrics s)) s.

(** [getMetrics()]. *)
Definition getMetrics (s : t) : RateLimitMetrics.t := metrics s.

(** [updateQueueSize(size)]. *)
Definition updateQueueSize (size : Z) (s : t) : t :=
  with_metrics (RateLimitMetrics.with_queueSize size (metrics s)) s.

(** [resetMetrics()]. *)
Definition resetMetrics (now : Z) (s : t) : t :=
  with_metrics (RateLimitMetrics.zero (bucket_size s) now) s.

(** [stopCleanup()]. *)
Definition stopCleanup (s : t) : t := with_cleanupInterval false s.

(** The document [exportState()] returns; [ex_buckets] holds the own
    properties of its [buckets] object. *)
Record exported := {
  ex_buckets : gmap string RateLimitBucket.t;
  ex_globalLimit : option RateLimitInfo.t;
  ex_metrics : RateLimitMetrics.t;
}.

(** [exportState()]. The buckets are copied into a plain object with
    [buckets[id] = {...bucket}]; the entries of the document are the own
    properties of that object. Every id becomes one, except ["__proto__"]:
    that assignment sets the prototype of the object and adds no
    property. *)
Definition exportState (s : t) : exported :=
  {| ex_buckets := delete "__proto__" (buckets s);
     ex_globalLimit := globalLimit s;
     ex_metrics := metrics s |}.

(** [importState(state)]. *)
Definition importState (state : exported) (s : t) : t :=
  sync_bucketCount
    (with_metrics (ex_metrics state)
       (with_globalLimit (ex_globalLimit state)
          (with_buckets (ex_buckets state) s))).

(** [destroy()]. *)
Definition destroy (now : Z) (s : t) : t :=
  resetMetrics now
    (with_globalLimit None (with_buckets ∅ (stopCleanup s))).

End MemoryRateLimitStore.

(* ===================================================================== *)
(** * bucketManager.ts *)
(* ===================================================================== *)

Module BucketManager.

(** Modelled from the spec: [bucketManager.ts] is not among the sources
    (only its test file and its callers are). A bucket is "created lazily
    on first reference with a default limit/window": full [remaining],
    and a window that ends [defaultResetAfter] after the creation. *)
Definition fresh_bucket (bucketId : string)
    (defaultLimit defaultResetAfter now : Z) : RateLimitBucket.t :=
  {| RateLimitBucket.id := bucketId;
     RateLimitBucket.limit := defaultLimit;
     RateLimitBucket.remaining := defaultLimit;
     RateLimitBucket.resetAt := now + defaultResetAfter;
     RateLimitBucket.resetAfter := defaultResetAfter;
     RateLimitBucket.maxRetries :=
       RateLimitConfig.maxRetries DEFAULT_RATE_LIMIT_CONFIG;
     RateLimitBucket.lastUsed := now;
     RateLimitBucket.requests := [] |}.

(** Modelled from the spec: [getBucket(id, defaultLimit?,
    defaultResetAfter?)] is "create-or-fetch" over the store's
    [getBucket], which treats a bucket past its [resetAt] as absent. *)
Definition getBucket (bucketId : string)
    (defaultLimit defaultResetAfter now : Z)
    (s : MemoryRateLimitStore.t)
  : RateLimitBucket.t * MemoryRateLimitStore.t :=
  match MemoryRateLimitStore.getBucket bucketId now s with
  | (Some bucket, s') => (bucket, s')
  | (None, s') =>
      let bucket := fresh_bucket bucketId defaultLimit defaultResetAfter now in
      (bucket, MemoryRateLimitStore.setBucket bucketId bucket now s')
  end.

(** Modelled from the spec: [getBucket(id)] with the defaults of
    [DEFAULT_RATE_LIMIT_CONFIG]. *)
Definition getBucket_default (bucketId : string) (now : Z)
    (s : MemoryRateLimitStore.t)
  : RateLimitBucket.t * MemoryRateLimitStore.t :=
  getBucket bucketId
    (RateLimitConfig.defaultLimit DEFAULT_RATE_LIMIT_CONFIG)
    (RateLimitConfig.defaultResetAfter DEFAULT_RATE_LIMIT_CONFIG) now s.

(** Modelled from the spec: [isRateLimited] "first checks the global
    limit (blocks everything if active and unexpired), then the named
    bucket's [remaining <= 0] with [resetAt] in the future". The global
    check is written as the middleware writes its own. *)
Definition isRateLimited (bucketId : string) (now : Z)
    (s : MemoryRateLimitStore.t) : bool * MemoryRateLimitStore.t :=
  let '(globalLimit, s1) := MemoryRateLimitStore.getGlobalLimit now s in
  let blocked :=
    match globalLimit with
    | Some g => now <? RateLimitInfo.resetAfter g
    | None => false
    end in
  if blocked then (true, s1)
  else
    match MemoryRateLimitStore.getBucket bucketId now s1 with
    | (Some bucket, s2) =>
        ((RateLimitBucket.remaining bucket <=? 0)
         && (now <? RateLimitBucket.resetAt bucket), s2)
    | (None, s2) => (false, s2)
    end.

(** Modelled from the spec: [consumeRequest] "decrements [remaining] by
    one and returns [false] without mutating state if no tokens remain". *)
Definition consumeRequest (bucketId : string) (now : Z)
    (s : MemoryRateLimitStore.t) : bool * MemoryRateLimitStore.t :=
  let '(bucket, s1) := getBucket_default bucketId now s in
  if RateLimitBucket.remaining bucket <=? 0 then (false, s1)
  else
    (true,
     MemoryRateLimitStore.setBucket bucketId
       (RateLimitBucket.with_remaining
          (RateLimitBucket.remaining bucket - 1) bucket) now s1).

(** Modelled from the spec: [handleRateLimit] "if [info.global] is set,
    writes the Store's global limit; otherwise it writes/merges the named
    bucket's [limit]/[remaining]/[resetAfter] from the server's
    authoritative numbers". *)
Definition handleRateLimit (bucketId : string) (info : RateLimitInfo.t)
    (now : Z) (s : MemoryRateLimitStore.t) : MemoryRateLimitStore.t :=
  if RateLimitInfo.global info then
    MemoryRateLimitStore.setGlobalLimit info now s
  else
    let '(bucket, s1) := getBucket_default bucketId now s in
    MemoryRateLimitStore.setBucket bucketId
      (RateLimitBucket.with_window (RateLimitInfo.limit info)
         (RateLimitInfo.remaining info) (RateLimitInfo.resetAfter info)
         bucket) now s1.

End BucketManager.

(* ===================================================================== *)
(** * The platform's URL parser *)
(* ===================================================================== *)

Definition is_digit (c : ascii) : bool :=
  let n := Ascii.nat_of_ascii c in
  (Nat.leb 48 n && Nat.leb n 57)%bool.

Definition is_alpha (c : ascii) : bool :=
  let n := Ascii.nat_of_ascii c in
  ((Nat.leb 65 n && Nat.leb n 90) || (Nat.leb 97 n && Nat.leb n 122))%bool.

Definition is_scheme_char (c : ascii) : bool :=
  (is_alpha c || is_digit c
   || Ascii.eqb c "+" || Ascii.eqb c "-" || Ascii.eqb c ".")%bool.

(** The text before the first [":"], when all of it can belong to a
    scheme, and the text after it. *)
Fixpoint split_scheme (s : string) : option (string * string) :=
  match s with
  | EmptyString => None
  | String c s' =>
      if Ascii.eqb c ":" then Some (EmptyString, s')
      else if is_scheme_char c then
        match split_scheme s' with
        | Some (scheme, rest) => Some (String c scheme, rest)
        | None => None
        end
      else None
  end.

(** The text up to the first character that satisfies [stop], and the text
    from that character on. *)
Fixpoint break_at (stop : ascii → bool) (s : string) : string * string :=
  match s with
  | EmptyString => (EmptyString, EmptyString)
  | String c s' =>
      if stop c then (EmptyString, s)
      else let '(a, b) := break_at stop s' in (String c a, b)
  end.

Definition ends_path (c : ascii) : bool :=
  (Ascii.eqb c "?" || Ascii.eqb c "#")%bool.

Definition ends_authority (c : ascii) : bool :=
  (Ascii.eqb c "/" || ends_path c)%bool.

(** [new URL(url).pathname], with [None] for the [TypeError] the
    constructor throws. The parser belongs to the platform; the model keeps
    what the source relies on: without a base, an input that does not start
    with a scheme ([letter (letter | digit | + | - | .)* ":"]) is not a URL,
    and the path of [scheme://authority/path?query#fragment] is the text
    from the first ["/"] after the authority up to ["?"] or ["#"]. *)
Definition URL_pathname (url : string) : option string :=
  match split_scheme url with
  | Some (String c scheme, rest) =>
      if is_alpha c then
        if startsWith "//" rest then
          let '(authority, tail) :=
            break_at ends_authority (String.substring 2 (String.length rest) rest) in
          match authority with
          | EmptyString => None
          | _ =>
              match (break_at ends_path tail).1 with
              | EmptyString => Some "/"
              | path => Some path
              end
          end
        else Some (break_at ends_path rest).1
      else None
  | _ => None
  end.

Definition invalid_url : JsError :=
  {| message := "Invalid URL"; code := Some "ERR_INVALID_URL" |}.

(* ===================================================================== *)
(** * middleware.ts *)
(* ===================================================================== *)

(** [interface HttpResponse]. *)
Record HttpResponse := {
  status : Z;
  headers : RateLimitHeaders;
  data : option ResponseData;
}.

(** How the call [Promise.race([this.httpClient(request), timeoutPromise])]
    ends: the client resolves, the client rejects, or the timer fires
    first. *)
Inductive TransportOutcome :=
| Responded (response : HttpResponse)
| Failed (error : JsError)
| TimedOut.

(** How an [async] method that may hand back the promise of
    [PriorityQueue.enqueue] ends. *)
Inductive Completion :=
| Returns (value : option ResponseData)
| Throws (error : JsError)
| Requeued (p : nat).

(** How [execute] ends before the transport is involved: it throws, it
    returns the promise of [PriorityQueue.enqueue], or it goes on to
    [executeRequest]. *)
Inductive Admission :=
| Threw (error : JsError)
| Queued (p : nat)
| Dispatched (request : QueuedRequest).

Module DiscordRateLimitMiddleware.

(** [store] is [this.bucketManager.store]. *)
Record t := {
  store : MemoryRateLimitStore.t;
  queue : PriorityQueue.t;
  processing : bool;
  requestTimeout : Z;
}.

Definition with_store (s : MemoryRateLimitStore.t) (m : t) : t :=
  {| store := s; queue := queue m; processing := processing m;
     requestTimeout := requestTimeout m |}.

Definition with_queue (q : PriorityQueue.t) (m : t) : t :=
  {| store := store m; queue := q; processing := processing m;
     requestTimeout := requestTimeout m |}.

(** [constructor]: the queue is built, then [startQueueProcessor] sets
    [processing]. *)
Definition new (s : MemoryRateLimitStore.t) : t :=
  let rateLimitConfig := getRateLimitConfig "" in
  {| store := s;
     queue := PriorityQueue.new (RateLimitConfig.maxQueueSize rateLimitConfig);
     processing := true;
     requestTimeout := RateLimitConfig.requestTimeout rateLimitConfig |}.

Definition count (k : RateLimitMetrics.key) (m : t) : t :=
  with_store (MemoryRateLimitStore.incrementMetric k (store m)) m.

(** [isRateLimited(bucketId)]. *)
Definition isRateLimited (bucketId : string) (now : Z) (m : t) : bool * t :=
  let '(globalLimit, s1) :=
    MemoryRateLimitStore.getGlobalLimit now (store m) in
  let blocked :=
    match globalLimit with
    | Some g => now <? RateLimitInfo.resetAfter g
    | None => false
    end in
  if blocked then (true, with_store s1 m)
  else
    let '(limited, s2) := BucketManager.isRateLimited bucketId now s1 in
    (limited, with_store s2 m).

(** [updateBucket(bucketId, info)]. *)
Definition updateBucket (bucketId : string) (info : RateLimitInfo.t)
    (now : Z) (m : t) : t :=
  with_store (BucketManager.handleRateLimit bucketId info now (store m)) m.

(** A prefix of [s] matches [\d+] followed by [post]. *)
Fixpoint digits_then (post s : string) : bool :=
  match s with
  | EmptyString => false
  | String c s' => is_digit c && (startsWith post s' || digits_then post s')
  end.

(** [s] starts with [pre], then [\d+], then [post]. *)
Fixpoint after_prefix (pre post s : string) : bool :=
  match pre, s with
  | EmptyString, _ => digits_then post s
  | String a pre', String b s' =>
      if Ascii.eqb a b then after_prefix pre' post s' else false
  | String _ _, EmptyString => false
  end.

(** [/pre\d+post/.test(s)]. *)
Fixpoint test_route (pre post s : string) : bool :=
  after_prefix pre post s ||
  match s with
  | EmptyString => false
  | String _ s' => test_route pre post s'
  end.

(** [extractUrlPattern(url)]. The second [replace] looks for a backslash
    followed by digits, which the pattern sources do not contain, so the
    text returned keeps [\d+]. *)
Definition extractUrlPattern (url : string) : option string :=
  if test_route "/channels/" "/messages" url then Some "/channels/\d+/messages"
  else if test_route "/guilds/" "/members" url then Some "/guilds/\d+/members"
  else if test_route "/guilds/" "/bans" url then Some "/guilds/\d+/bans"
  else if test_route "/users/" "" url then Some "/users/\d+"
  else if test_route "/webhooks/" "" url then Some "/webhooks/\d+"
  else if includes "/interactions" url then Some "/interactions"
  else URL_pathname url.

(** [extractBucketIdFromRequest(request)]; [None] when [new URL] throws. *)
Definition extractBucketIdFromRequest (request : QueuedRequest)
  : option string :=
  match truthy (bucketId request) with
  | Some b => Some b
  | None =>
      match extractUrlPattern (url request) with
      | Some urlPattern =>
          Some ("bucket:" +:+ urlPattern +:+ ":" +:+ method request)
      | None => None
      end
  end.

(** [execute(request)] up to the point where the request is queued or
    handed to [executeRequest]; the [finally] block counts the request. *)
Definition execute (request : QueuedRequest) (now : Z) (m : t) (h : Heap)
  : Admission * t * Heap :=
  match extractBucketIdFromRequest request with
  | None => (Threw invalid_url, count RateLimitMetrics.TotalRequests m, h)
  | Some bucket =>
      let request := set_bucketId (Some bucket) request in
      let '(isLimited, m1) := isRateLimited bucket now m in
      if isLimited then
        let '(q, h', p) := PriorityQueue.enqueue request (queue m1) h in
        (Queued p, count RateLimitMetrics.TotalRequests (with_queue q m1), h')
      else
        let '(consumed, s2) :=
          BucketManager.consumeRequest bucket now (store m1) in
        let m2 := with_store s2 m1 in
        if consumed then
          (Dispatched request, count RateLimitMetrics.TotalRequests m2, h)
        else
          let '(q, h', p) := PriorityQueue.enqueue request (queue m2) h in
          (Queued p, count RateLimitMetrics.TotalRequests (with_queue q m2), h')
  end.

(** [shouldRetry(error, request)]. *)
Definition shouldRetry (error : JsError) (request : QueuedRequest) : bool :=
  if retryCount request >=? maxRetries request then false
  else if bool_decide (code error = Some "ECONNRESET")
          || bool_decide (code error = Some "ETIMEDOUT") then true
  else if includes "timeout" (message error) then true
  else if includes "HTTP 5" (message error) then true
  else if includes "HTTP 429" (message error) then true
  else false.

(** [retryRequest(request)]; the request object comes back with its
    [retryCount] incremented and, when [enqueue] was called, with the
    settling functions that call left on it. The call waits
    [calculateRetryDelay(request)] milliseconds before [enqueue]; it is
    taken as one step here, so that [m] and [h] are also the queue and
    the promises at the end of that wait. *)
Definition retryRequest (request : QueuedRequest) (m : t) (h : Heap)
  : Completion * QueuedRequest * t * Heap :=
  let request := set_retryCount (retryCount request + 1) request in
  if retryCount request >? maxRetries request then
    (Throws (mkError ("Request failed after "
                      +:+ string_of_Z (maxRetries request) +:+ " retries")),
     request, m, h)
  else
    let '(q, h', p) := PriorityQueue.enqueue request (queue m) h in
    (Requeued p, PriorityQueue.enqueued request (queue m) h,
     with_queue q m, h').

Definition info_of (e : ExtractedInfo) (resetAfter retryAfter : Z)
    (bucket : option string) : RateLimitInfo.t :=
  {| RateLimitInfo.limit := ex_limit e;
     RateLimitInfo.remaining := ex_remaining e;
     RateLimitInfo.resetAfter := resetAfter;
     RateLimitInfo.maxRetries := 3;
     RateLimitInfo.retryAfter := retryAfter;
     RateLimitInfo.global := ex_global e;
     RateLimitInfo.bucket := bucket;
     RateLimitInfo.messageId := None;
     RateLimitInfo.connectionId := None |}.

(** [handleRateLimitResponse(request, response)]. *)
Definition handleRateLimitResponse (request : QueuedRequest)
    (response : HttpResponse) (now : Z) (m : t) : t :=
  let rateLimitInfo := extractRateLimitInfo (headers response) in
  let retryAfter :=
    match data response with
    | Some d =>
        match data_retry_after d with
        | Some r => if r =? 0 then ex_resetAfter rateLimitInfo else r
        | None => ex_resetAfter rateLimitInfo
        end
    | None => ex_resetAfter rateLimitInfo
    end in
  let m1 := count RateLimitMetrics.RateLimitedRequests m in
  match truthy (bucketId request) with
  | Some b =>
      updateBucket b (info_of rateLimitInfo retryAfter retryAfter (Some b)) now m1
  | None => m1
  end.

(** The message of the error thrown for a response that is neither 429
    nor 2xx. *)
Definition http_error (response : HttpResponse) : JsError :=
  mkError ("HTTP " +:+ string_of_Z (status response) +:+ ": " +:+
           match data response with
           | Some d =>
               match truthy (data_message d) with
               | Some msg => msg
               | None => "Unknown error"
               end
           | None => "Unknown error"
           end).

Definition timeout_error (m : t) : JsError :=
  mkError ("Request timeout after " +:+ string_of_Z (requestTimeout m) +:+ "ms").

(** The [catch] block of [executeRequest]. *)
Definition executeRequest_catch (error : JsError) (request : QueuedRequest)
    (m : t) (h : Heap) : Completion * QueuedRequest * t * Heap :=
  let m1 := count RateLimitMetrics.FailedRequests m in
  if shouldRetry error request then retryRequest request m1 h
  else (Throws error, request, m1, h).

(** [executeRequest(request)], given how the transport call ends. The
    promise that [retryRequest] returns is returned without [await], so
    an error it throws does not pass through the [catch] block. *)
Definition executeRequest (request : QueuedRequest)
    (outcome : TransportOutcome) (now : Z) (m : t) (h : Heap)
  : Completion * QueuedRequest * t * Heap :=
  match outcome with
  | Failed error => executeRequest_catch error request m h
  | TimedOut => executeRequest_catch (timeout_error m) request m h
  | Responded response =>
      let rateLimitInfo := extractRateLimitInfo (headers response) in
      let m1 :=
        match ex_bucket rateLimitInfo with
        | Some b =>
            updateBucket b
              (info_of rateLimitInfo (ex_resetAfter rateLimitInfo)
                 (ex_resetAfter rateLimitInfo) (Some b)) now m
        | None => m
        end in
      if status response =? 429 then
        retryRequest request (handleRateLimitResponse request response now m1) h
      else if (200 <=? status response) && (status response <? 300) then
        (Returns (data response), request,
         count RateLimitMetrics.SuccessfulRequests m1, h)
      else
        executeRequest_catch (http_error response) request
          (count RateLimitMetrics.FailedRequests m1) h
  end.

(** [canExecuteRequest(request)]. *)
Definition canExecuteRequest (request : QueuedRequest) (now : Z) (m : t)
  : bool * t :=
  match truthy (bucketId request) with
  | None => (true, m)
  | Some b =>
      let '(isLimited, m') := isRateLimited b now m in
      (negb isLimited, m')
  end.

(** One turn of the [while (this.processing)] loop of [processQueue], up
    to the call of [executeRequest], which the loop does not await: the
    turn returns the request handed to that call, if it gets that far.
    Nothing is done with the promise that [enqueue] returns for a request
    put back in the queue. *)
Definition processQueue_turn (now : Z) (m : t) (h : Heap)
  : option QueuedRequest * t * Heap :=
  if negb (processing m) then (None, m, h)
  else
    match PriorityQueue.dequeue (queue m) with
    | (None, _) => (None, m, h)
    | (Some request, q) =>
        let '(canExecute, m1) :=
          canExecuteRequest request now (with_queue q m) in
        if negb canExecute then
          let '(q', h', _) := PriorityQueue.enqueue request (queue m1) h in
          (None, with_queue q' m1, h')
        else (Some request, m1, h)
    end.

(** What a call [executeRequest(request)] made by the loop does once its
    transport call has ended, at whatever time that is, followed by the
    callbacks the loop attached with [then] and [catch]. A value returned
    goes to [request.resolve], an error thrown to [request.reject]. When
    [executeRequest] hands back the promise [p] of a new [enqueue], the
    callbacks wait for [p]. If [enqueue] refused the request, [p] is
    rejected already and its error goes to [request.reject]: on a full
    queue that is still the function the request carried before, otherwise
    it is the one of [p] itself. If [p] is pending, the only functions that
    can settle it are those the request carries from then on, so that the
    callbacks, when they run, call functions of a promise that is already
    settled and change nothing. *)
Definition processQueue_completion (request : QueuedRequest)
    (outcome : TransportOutcome) (now : Z) (m : t) (h : Heap) : t * Heap :=
  let '(result, request', m2, h2) := executeRequest request outcome now m h in
  match result with
  | Returns value => (m2, settle (resolve request') (Fulfilled value) h2)
  | Throws error => (m2, settle (reject request') (Rejected error) h2)
  | Requeued p =>
      match h2 !! p with
      | Some (Rejected error) =>
          (m2, settle (reject request') (Rejected error) h2)
      | _ => (m2, h2)
      end
  end.

(** [stop()]. *)
Definition stop (m : t) : t :=
  {| store := store m; queue := queue m; processing := false;
     requestTimeout := requestTimeout m |}.

(** [clearQueue()]. *)
Definition clearQueue (m : t) (h : Heap) : t * Heap :=
  let '(q, h') := PriorityQueue.clear (queue m) h in
  (with_queue q m, h').

End DiscordRateLimitMiddleware.

(* ===================================================================== *)
(** * orchestrator.ts *)
(* ===================================================================== *)

Module DiscordRateLimitOrchestrator.

(** The fields of [config] the orchestrator reads; 0 stands for a field
    that is not given (it is tested with [||]). *)
Record Config := {
  cfg_maxRetries : Z;
  cfg_requestTimeout : Z;
  cfg_cleanupInterval : Z;
}.

(** [store] and [bucketManager.store] are the store of the middleware;
    [cleanupInterval] tells whether the cleanup timer is armed. *)
Record t := {
  middleware : DiscordRateLimitMiddleware.t;
  isShutdown : bool;
  cleanupInterval : bool;
  config : Config;
}.

Definition store (o : t) : MemoryRateLimitStore.t :=
  DiscordRateLimitMiddleware.store (middleware o).

Definition with_middleware (m : DiscordRateLimitMiddleware.t) (o : t) : t :=
  {| middleware := m; isShutdown := isShutdown o;
     cleanupInterval := cleanupInterval o; config := config o |}.

Definition with_store (s : MemoryRateLimitStore.t) (o : t) : t :=
  with_middleware (DiscordRateLimitMiddleware.with_store s (middleware o)) o.

Definition or_default (given default : Z) : Z :=
  if given =? 0 then default else given.

(** [constructor(httpClient, config = {})]. *)
Definition new (config : Config) (now : Z) : t :=
  {| middleware :=
       DiscordRateLimitMiddleware.new
         (MemoryRateLimitStore.new
            (or_default (cfg_cleanupInterval config)
               (RateLimitConfig.bucketCleanupInterval
                  DEFAULT_RATE_LIMIT_CONFIG)) now);
     isShutdown := false;
     cleanupInterval := true;
     config := config |}.

(** [getPriorityFromEndpoint(url)]. *)
Definition getPriorityFromEndpoint (url : string) : Z :=
  let endpointConfig := getRateLimitConfig url in
  if includes "/interactions/" url && includes "/callback" url then 0
  else if includes "/typing" url || startsWith "DELETE/" url then 1
  else if startsWith "POST/" url || startsWith "PUT/" url then 2
  else if startsWith "GET/" url && includes "/audit-logs" url then 3
  else if includes "/bulk-" url then 4
  else if RateLimitConfig.defaultLimit endpointConfig >? 5 then 1 else 2.

Definition shutdown_error : JsError :=
  mkError "Rate limit orchestrator is shutdown".

(** The defaults [enqueue] fills in; a priority, [maxRetries] or
    [timeout] of 0 counts as not provided. *)
Definition fill_defaults (cfg : Config) (request : QueuedRequest)
  : QueuedRequest :=
  let request :=
    if priority request =? 0
    then set_priority (getPriorityFromEndpoint (url request)) request
    else request in
  let request :=
    if maxRetries request =? 0
    then set_maxRetries
           (or_default (cfg_maxRetries cfg)
              (RateLimitConfig.maxRetries DEFAULT_RATE_LIMIT_CONFIG)) request
    else request in
  match timeout request with
  | Some n =>
      if n =? 0
      then set_timeout
             (Some (or_default (cfg_requestTimeout cfg)
                      (RateLimitConfig.requestTimeout
                         DEFAULT_RATE_LIMIT_CONFIG))) request
      else request
  | None =>
      set_timeout
        (Some (or_default (cfg_requestTimeout cfg)
                 (RateLimitConfig.requestTimeout
                    DEFAULT_RATE_LIMIT_CONFIG))) request
  end.

(** [enqueue(request)], up to the point where [middleware.execute] has
    queued the request or handed it to the transport. *)
Definition enqueue (request : QueuedRequest) (now : Z) (o : t) (h : Heap)
  : Admission * t * Heap :=
  if isShutdown o then (Threw shutdown_error, o, h)
  else
    let '(a, m, h') :=
      DiscordRateLimitMiddleware.execute
        (fill_defaults (config o) request) now (middleware o) h in
    (a, with_middleware m o, h').

(** [handleRateLimit(info)]. *)
Definition handleRateLimit (info : RateLimitInfo.t) (now : Z) (o : t) : t :=
  if isShutdown o then o
  else if RateLimitInfo.global info then
    with_store (MemoryRateLimitStore.setGlobalLimit info now (store o)) o
  else
    match truthy (RateLimitInfo.bucket info) with
    | Some b =>
        with_store (BucketManager.handleRateLimit b info now (store o)) o
    | None => o
    end.

(** [isRateLimited(bucketId)]. *)
Definition isRateLimited (bucketId : string) (now : Z) (o : t) : bool * t :=
  let '(limited, m) :=
    DiscordRateLimitMiddleware.isRateLimited bucketId now (middleware o) in
  (limited, with_middleware m o).

(** The document of [exportState()], without the [stats] that
    [importState] does not read; a field is [None] when the document
    lacks it. *)
Record document := {
  doc_buckets : option (gmap string RateLimitBucket.t);
  doc_globalLimit : option RateLimitInfo.t;
  doc_metrics : option RateLimitMetrics.t;
  exportedAt : Z;
}.

(** [exportState()]: the store is exported first, then
    [getDetailedStats()] runs. What the latter does to the store goes
    through [bucketManager.getAllBucketStats()], which is not among the
    sources: it is the argument [getAllBucketStats]. *)
Definition exportState
    (getAllBucketStats : Z → MemoryRateLimitStore.t → MemoryRateLimitStore.t)
    (now : Z) (o : t) : document * t :=
  let state := MemoryRateLimitStore.exportState (store o) in
  ({| doc_buckets := Some (MemoryRateLimitStore.ex_buckets state);
      doc_globalLimit := MemoryRateLimitStore.ex_globalLimit state;
      doc_metrics := Some (MemoryRateLimitStore.ex_metrics state);
      exportedAt := now |},
   with_store (getAllBucketStats now (store o)) o).

Definition import_error : JsError :=
  mkError "Cannot import state while orchestrator is shutdown".

(** [importState(state)]: the error thrown, if any, and the state
    after. *)
Definition importState (state : document) (now : Z) (o : t)
  : option JsError * t :=
  if isShutdown o then (Some import_error, o)
  else
    (None,
     with_store
       (MemoryRateLimitStore.importState
          {| MemoryRateLimitStore.ex_buckets :=
               default ∅ (doc_buckets state);
             MemoryRateLimitStore.ex_globalLimit := doc_globalLimit state;
             MemoryRateLimitStore.ex_metrics :=
               default (RateLimitMetrics.zero 0 now) (doc_metrics state) |}
          (store o)) o).

(** [shutdown()]. *)
Definition shutdown (now : Z) (o : t) (h : Heap) : t * Heap :=
  if isShutdown o then (o, h)
  else
    let '(m, h') :=
      DiscordRateLimitMiddleware.clearQueue
        (DiscordRateLimitMiddleware.stop (middleware o)) h in
    ({| middleware :=
          DiscordRateLimitMiddleware.with_store
            (MemoryRateLimitStore.destroy now
               (DiscordRateLimitMiddleware.store m)) m;
        isShutdown := true;
        cleanupInterval := false;
        config := config o |}, h').

End DiscordRateLimitOrchestrator.

(* ===================================================================== *)
(** * Runs of queue operations *)
(* ===================================================================== *)

(** The state-changing methods of [PriorityQueue]. *)
Inductive queue_op :=
| OpEnqueue (request : QueuedRequest)
| OpDequeue
| OpRemoveExpired (timeoutMs now : Z)
| OpClearBucket (bucket : string)
| OpPromoteRequests (bucket : string) (newPriority : Z)
| OpClear.

Definition queue_step (st : PriorityQueue.t * Heap) (op : queue_op)
  : PriorityQueue.t * Heap :=
  let '(q, h) := st in
  match op with
  | OpEnqueue request =>
      let '(q', h', _) := PriorityQueue.enqueue request q h in (q', h')
  | OpDequeue => ((PriorityQueue.dequeue q).2, h)
  | OpRemoveExpired timeoutMs now =>
      let '(q', h', _) := PriorityQueue.removeExpired timeoutMs now q h in
      (q', h')
  | OpClearBucket bucket =>
      let '(q', h', _) := PriorityQueue.clearBucket bucket q h in (q', h')
  | OpPromoteRequests bucket newPriority =>
      ((PriorityQueue.promoteRequests bucket newPriority q).1, h)
  | OpClear => PriorityQueue.clear q h
  end.

Definition queue_run (ops : list queue_op) (st : PriorityQueue.t * Heap)
  : PriorityQueue.t * Heap :=
  foldl queue_step st ops.

(** The sum over the five tiers of [getQueueSize(priority)]. *)
Definition tier_sizes (q : PriorityQueue.t) : Z :=
  PriorityQueue.getQueueSize CRITICAL q + PriorityQueue.getQueueSize HIGH q
  + PriorityQueue.getQueueSize NORMAL q + PriorityQueue.getQueueSize LOW q
  + PriorityQueue.getQueueSize BULK q.

(** The number of requests the map of queues holds. *)
Definition stored (qs : list (list QueuedRequest)) : Z :=
  Z.of_nat (length (concat qs)).

(** The queue has its five tiers and its counter is the number of
    requests they hold. *)
Definition counted (q : PriorityQueue.t) : Prop :=
  length (PriorityQueue.queues q) = 5%nat
  ∧ PriorityQueue.totalSize q = stored (PriorityQueue.queues q).

(** A sequence of [enqueue] calls. *)
Fixpoint enqueue_all (rs : list QueuedRequest) (q : PriorityQueue.t)
    (h : Heap) : PriorityQueue.t * Heap :=
  match rs with
  | [] => (q, h)
  | r :: rs' =>
      let '(q', h', _) := PriorityQueue.enqueue r q h in enqueue_all rs' q' h'
  end.

(** The requests that [n] calls of [dequeue] return, up to the first
    [null]. *)
Fixpoint drain (n : nat) (q : PriorityQueue.t) : list QueuedRequest :=
  match n with
  | O => []
  | S n' =>
      match PriorityQueue.dequeue q with
      | (Some r, q') => r :: drain n' q'
      | (None, _) => []
      end
  end.

Definition valid_priority (p : Z) : bool := (0 <=? p) && (p <=? 4).

(** The requests a sequence of [enqueue] calls stores, in the order of the
    calls, each with the promise its call created: [n] requests are in the
    queue before the first call and [k] is the next promise. *)
Fixpoint accepted (maxSize n : Z) (k : nat) (rs : list QueuedRequest)
  : list QueuedRequest :=
  match rs with
  | [] => []
  | r :: rs' =>
      if n >=? maxSize then accepted maxSize n (S k) rs'
      else if valid_priority (priority r)
      then set_settlers (PromiseFn k) r :: accepted maxSize (n + 1) (S k) rs'
      else accepted maxSize n (S k) rs'
  end.

Definition has_priority (p : Z) (r : QueuedRequest) : bool :=
  priority r =? p.

(** The requests of one tier, oldest timestamp first, requests of equal
    timestamp in the order of [l]. *)
Definition tier_order (p : Z) (l : list QueuedRequest) : list QueuedRequest :=
  PriorityQueue.sort (List.filter (has_priority p) l).

(** Tier after tier, each in [tier_order]. *)
Definition priority_order (l : list QueuedRequest) : list QueuedRequest :=
  concat (map (fun p => tier_order p l) PriorityQueue.tiers).

(** [a] may be dequeued before [b]: it is more urgent, or as urgent and
    not younger. *)
Definition before (a b : QueuedRequest) : Prop :=
  priority a < priority b
  ∨ (priority a = priority b ∧ timestamp a <= timestamp b).

(** [x] placed behind the requests that are not younger than it. *)
Fixpoint insert_behind (x : QueuedRequest) (l : list QueuedRequest)
  : list QueuedRequest :=
  match l with
  | [] => [x]
  | y :: l' =>
      if timestamp y <=? timestamp x then y :: insert_behind x l'
      else x :: y :: l'
  end.

(** Timestamps never decrease along the list. *)
Fixpoint ascending (l : list QueuedRequest) : Prop :=
  match l with
  | [] => True
  | x :: l' => Forall (fun y => timestamp x <= timestamp y) l' ∧ ascending l'
  end.

(** The requests [rs] as [enqueue] stores them when it accepts them all:
    the [i]-th carries the settling functions of promise [k + i]. *)
Definition attached (k : nat) (rs : list QueuedRequest) : list QueuedRequest :=
  imap (fun i r => set_settlers (PromiseFn (k + i)) r) rs.

(** The reading of "every p1 item is returned in enqueue order before any
    p2 item" for calls that are all accepted: the requests come back tier
    after tier, each tier in the order of its calls. *)
Definition enqueue_order_within_tiers : Prop :=
  ∀ (maxSize : Z) (rs : list QueuedRequest),
    Forall (fun r => valid_priority (priority r) = true) rs →
    Z.of_nat (length rs) <= maxSize →
    map rq_id (drain (length rs)
                 (enqueue_all rs (PriorityQueue.new maxSize) []).1)
    = map rq_id
        (concat (map (fun p => List.filter (has_priority p) rs)
                     PriorityQueue.tiers)).

(* ===================================================================== *)
(** * Runs of bucket operations *)
(* ===================================================================== *)

(** [consumeRequest(bucketId)] called at each of [times] in turn: what the
    calls return and the store after them. *)
Fixpoint consume_at (bucketId : string) (times : list Z)
    (s : MemoryRateLimitStore.t) : list bool * MemoryRateLimitStore.t :=
  match times with
  | [] => ([], s)
  | now :: times' =>
      let '(consumed, s1) := BucketManager.consumeRequest bucketId now s in
      let '(rest, s2) := consume_at bucketId times' s1 in
      (consumed :: rest, s2)
  end.

(** Bucket [bucketId] of the store has [k] tokens left in a window that
    ends at [resetAt]. *)
Definition bucket_has (bucketId : string) (k resetAt : Z)
    (s : MemoryRateLimitStore.t) : Prop :=
  ∃ bucket,
    MemoryRateLimitStore.buckets s !! bucketId = Some bucket
    ∧ RateLimitBucket.remaining bucket = k
    ∧ RateLimitBucket.resetAt bucket = resetAt.

(** No limit of its own blocks bucket [bucketId] at [now]: the store has
    no such bucket, or it has tokens left, or its window is over. *)
Definition bucket_open (bucketId : string) (now : Z)
    (s : MemoryRateLimitStore.t) : Prop :=
  match MemoryRateLimitStore.buckets s !! bucketId with
  | Some bucket =>
      0 < RateLimitBucket.remaining bucket
      ∨ RateLimitBucket.resetAt bucket <= now
  | None => True
  end.

(** The reading of "after [handleRateLimit] with [global = true] and
    [resetAfter = T], [isRateLimited] returns true for every bucket until
    [T] has elapsed" over every orchestrator. *)
Definition global_limit_blocks_every_orchestrator : Prop :=
  ∀ (info : RateLimitInfo.t) (t0 now : Z) (bucketId : string)
    (o : DiscordRateLimitOrchestrator.t),
    RateLimitInfo.global info = true →
    t0 <= now < t0 + RateLimitInfo.resetAfter info →
    (DiscordRateLimitOrchestrator.isRateLimited bucketId now
       (DiscordRateLimitOrchestrator.handleRateLimit info t0 o)).1 = true.

(* ===================================================================== *)
(** * Runs of the middleware *)
(* ===================================================================== *)

(** What can happen to a middleware and its queue: a caller runs [execute];
    a request that [execute] handed to the transport completes; the queue
    loop takes a turn; the transport call of a request that the loop
    dispatched, the [i]-th of those still under way, ends; a method of the
    queue is called; rate-limit information arrives through
    [updateBucket]; the store's timer sweeps the expired buckets; the queue
    is cleared; the loop is stopped. *)
Inductive event :=
| EvExecute (request : QueuedRequest) (now : Z)
| EvComplete (request : QueuedRequest) (outcome : TransportOutcome) (now : Z)
| EvTurn (now : Z)
| EvSettled (i : nat) (outcome : TransportOutcome) (now : Z)
| EvRemoveExpired (timeoutMs now : Z)
| EvClearBucket (bucket : string)
| EvPromoteRequests (bucket : string) (newPriority : Z)
| EvUpdateBucket (bucket : string) (info : RateLimitInfo.t) (now : Z)
| EvClearExpiredBuckets (now : Z)
| EvClearQueue
| EvStop.

(** The state of a run: the middleware, the promises, and the requests
    that the queue loop has dispatched and whose transport calls have not
    ended yet. *)
Abbreviation RunState :=
  (DiscordRateLimitMiddleware.t * Heap * list QueuedRequest)%type.

Definition middleware_step (st : RunState) (e : event) : RunState :=
  let '(m, h, flying) := st in
  match e with
  | EvExecute request now =>
      let '(_, m', h') := DiscordRateLimitMiddleware.execute request now m h in
      (m', h', flying)
  | EvComplete request outcome now =>
      let '(_, _, m', h') :=
        DiscordRateLimitMiddleware.executeRequest request outcome now m h in
      (m', h', flying)
  | EvTurn now =>
      let '(dispatched, m', h') :=
        DiscordRateLimitMiddleware.processQueue_turn now m h in
      (m', h', flying ++ option_list dispatched)
  | EvSettled i outcome now =>
      match flying !! i with
      | Some request =>
          let '(m', h') :=
            DiscordRateLimitMiddleware.processQueue_completion request outcome
              now m h in
          (m', h', delete i flying)
      | None => st
      end
  | EvRemoveExpired timeoutMs now =>
      let '(q, h', _) :=
        PriorityQueue.removeExpired timeoutMs now
          (DiscordRateLimitMiddleware.queue m) h in
      (DiscordRateLimitMiddleware.with_queue q m, h', flying)
  | EvClearBucket bucket =>
      let '(q, h', _) :=
        PriorityQueue.clearBucket bucket (DiscordRateLimitMiddleware.queue m) h in
      (DiscordRateLimitMiddleware.with_queue q m, h', flying)
  | EvPromoteRequests bucket newPriority =>
      (DiscordRateLimitMiddleware.with_queue
         (PriorityQueue.promoteRequests bucket newPriority
            (DiscordRateLimitMiddleware.queue m)).1 m, h, flying)
  | EvUpdateBucket bucket info now =>
      (DiscordRateLimitMiddleware.updateBucket bucket info now m, h, flying)
  | EvClearExpiredBuckets now =>
      (DiscordRateLimitMiddleware.with_store
         (MemoryRateLimitStore.clearExpiredBuckets now
            (DiscordRateLimitMiddleware.store m)) m, h, flying)
  | EvClearQueue =>
      let '(m', h') := DiscordRateLimitMiddleware.clearQueue m h in
      (m', h', flying)
  | EvStop => (DiscordRateLimitMiddleware.stop m, h, flying)
  end.

Definition middleware_run (events : list event) (st : RunState) : RunState :=
  foldl middleware_step st events.

(** The request does not hold the settling functions of promise [p]. *)
Definition clean (p : nat) (r : QueuedRequest) : Prop :=
  resolve r ≠ PromiseFn p ∧ reject r ≠ PromiseFn p.

(** Promise [p] is pending and no queued request holds its settling
    functions. *)
Definition forgotten (p : nat) (st : DiscordRateLimitMiddleware.t * Heap)
  : Prop :=
  st.2 !! p = Some Pending
  ∧ Forall (Forall (clean p))
      (PriorityQueue.queues (DiscordRateLimitMiddleware.queue st.1)).

(** Promise [p] is forgotten by the middleware, and no request whose
    transport call is under way holds its settling functions. *)
Definition forgotten_in_run (p : nat) (st : RunState) : Prop :=
  forgotten p st.1 ∧ Forall (clean p) st.2.

(** The error with which the promise of [enqueue] is rejected before the
    transport is involved, if there is one. *)
Definition enqueue_error (r : Admission * DiscordRateLimitOrchestrator.t * Heap)
  : option JsError :=
  match r.1.1 with
  | Threw error => Some error
  | Queued p =>
      match r.2 !! p with
      | Some (Rejected error) => Some error
      | _ => None
      end
  | Dispatched _ => None
  end.

(** The reading of "[enqueue] throws only for queue-full, shutdown, or
    invalid-priority". *)
Definition enqueue_fails_only_on_admission : Prop :=
  ∀ (request : QueuedRequest) (now : Z)
    (o : DiscordRateLimitOrchestrator.t) (h : Heap) (error : JsError),
    enqueue_error (DiscordRateLimitOrchestrator.enqueue request now o h)
    = Some error →
    error = PriorityQueue.queue_full
    ∨ error = DiscordRateLimitOrchestrator.shutdown_error
    ∨ ∃ p, error = PriorityQueue.invalid_priority p.

(** The reading of "for every store state, importState(exportState())
    reproduces an equivalent state": the same bucket map, the same global
    limit and the same metrics. *)
Definition round_trip_reproduces_every_state : Prop :=
  ∀ s : MemoryRateLimitStore.t,
    let s' :=
      MemoryRateLimitStore.importState (MemoryRateLimitStore.exportState s) s in
    MemoryRateLimitStore.buckets s' = MemoryRateLimitStore.buckets s
    ∧ MemoryRateLimitStore.globalLimit s' = MemoryRateLimitStore.globalLimit s
    ∧ MemoryRateLimitStore.getMetrics s' = MemoryRateLimitStore.getMetrics s.

(** The error of a response carries none of the texts [shouldRetry] looks
    for. *)
Definition plain_message (error : JsError) : Prop :=
  includes "timeout" (message error) = false
  ∧ includes "HTTP 5" (message error) = false
  ∧ includes "HTTP 429" (message error) = false.

(* ===================================================================== *)
(** * What the queue loops visit, and runs of store operations *)
(* ===================================================================== *)

(** The requests that the loops of [removeExpired], [clearBucket] and
    [promoteRequests] take out, in the order they meet them: tier after
    tier, each tier from its last entry to its first. *)
Fixpoint spliced (guard : Z → bool) (test : QueuedRequest → bool) (key : Z)
    (qs : list (list QueuedRequest)) : list QueuedRequest :=
  match qs with
  | [] => []
  | queue :: qs' =>
      (if guard key then rev (List.filter test queue) else [])
      ++ spliced guard test (key + 1) qs'
  end.

(** The map of queues after such a loop: the tiers the loop ran on have
    lost the requests that satisfy [test]. *)
Fixpoint unspliced (guard : Z → bool) (test : QueuedRequest → bool) (key : Z)
    (qs : list (list QueuedRequest)) : list (list QueuedRequest) :=
  match qs with
  | [] => []
  | queue :: qs' =>
      (if guard key then List.filter (fun r => negb (test r)) queue else queue)
      :: unspliced guard test (key + 1) qs'
  end.

(** Calling [reject(error)] of each request in turn. *)
Definition reject_all (error : JsError) (l : list QueuedRequest) (h : Heap)
  : Heap :=
  foldl (fun h x => settle (reject x) (Rejected error) h) h l.

(** [now - request.timestamp > timeoutMs]. *)
Definition expired_in_queue (timeoutMs now : Z) (r : QueuedRequest) : bool :=
  now - timestamp r >? timeoutMs.

(** Every tier is in ascending order of timestamp. *)
Definition tiers_ascending (q : PriorityQueue.t) : Prop :=
  Forall ascending (PriorityQueue.queues q).

(** The methods of [MemoryRateLimitStore] that read or write buckets, the
    global limit and the counters. *)
Inductive store_op :=
| StGetBucket (bucketId : string) (now : Z)
| StSetBucket (bucketId : string) (bucket : RateLimitBucket.t) (now : Z)
| StDeleteBucket (bucketId : string)
| StGetAllBuckets (now : Z)
| StClearExpiredBuckets (now : Z)
| StGetGlobalLimit (now : Z)
| StSetGlobalLimit (limit : RateLimitInfo.t) (now : Z)
| StIncrementMetric (metric : RateLimitMetrics.key)
| StUpdateQueueSize (size : Z).

Definition store_step (s : MemoryRateLimitStore.t) (op : store_op)
  : MemoryRateLimitStore.t :=
  match op with
  | StGetBucket bucketId now => (MemoryRateLimitStore.getBucket bucketId now s).2
  | StSetBucket bucketId bucket now =>
      MemoryRateLimitStore.setBucket bucketId bucket now s
  | StDeleteBucket bucketId => MemoryRateLimitStore.deleteBucket bucketId s
  | StGetAllBuckets now => (MemoryRateLimitStore.getAllBuckets now s).2
  | StClearExpiredBuckets now => MemoryRateLimitStore.clearExpiredBuckets now s
  | StGetGlobalLimit now => (MemoryRateLimitStore.getGlobalLimit now s).2
  | StSetGlobalLimit limit now => MemoryRateLimitStore.setGlobalLimit limit now s
  | StIncrementMetric metric => MemoryRateLimitStore.incrementMetric metric s
  | StUpdateQueueSize size => MemoryRateLimitStore.updateQueueSize size s
  end.

(** The sum of the five counters that [incrementMetric] and
    [setGlobalLimit] advance. *)
Definition counted_events (m : RateLimitMetrics.t) : Z :=
  RateLimitMetrics.totalRequests m + RateLimitMetrics.successfulRequests m
  + RateLimitMetrics.rateLimitedRequests m + RateLimitMetrics.failedRequests m
  + RateLimitMetrics.globalRateLimits m.

(** No counter of [m1] is above the same counter of [m2]. *)
Definition counters_le (m1 m2 : RateLimitMetrics.t) : Prop :=
  RateLimitMetrics.totalRequests m1 <= RateLimitMetrics.totalRequests m2
  ∧ RateLimitMetrics.successfulRequests m1
    <= RateLimitMetrics.successfulRequests m2
  ∧ RateLimitMetrics.rateLimitedRequests m1
    <= RateLimitMetrics.rateLimitedRequests m2
  ∧ RateLimitMetrics.failedRequests m1 <= RateLimitMetrics.failedRequests m2
  ∧ RateLimitMetrics.globalRateLimits m1
    <= RateLimitMetrics.globalRateLimits m2.

(** [executeRequest(request)], started with middleware [m] and promises
    [h], ended in [retryRequest] calling [enqueue]: the request has retries
    left, the call is made for it with its raised [retryCount] on the
    queue of [m], and [p], [m'], [h'] and [request'] are the promise, the
    queue, the promises and the request object after that call. *)
Definition requeued_by (request : QueuedRequest)
    (m : DiscordRateLimitMiddleware.t) (h : Heap) (p : nat)
    (request' : QueuedRequest) (m' : DiscordRateLimitMiddleware.t)
    (h' : Heap) : Prop :=
  retryCount request + 1 <= maxRetries request
  ∧ PriorityQueue.enqueue (set_retryCount (retryCount request + 1) request)
      (DiscordRateLimitMiddleware.queue m) h
    = (DiscordRateLimitMiddleware.queue m', h', p)
  ∧ request'
    = PriorityQueue.enqueued (set_retryCount (retryCount request + 1) request)
        (DiscordRateLimitMiddleware.queue m) h.

(** All characters of the string are decimal digits. *)
Fixpoint all_digits (s : string) : bool :=
  match s with
  | EmptyString => true
  | String c s' => is_digit c && all_digits s'
  end.

(* ===================================================================== *)
(** * Sample requests and states *)
(* ===================================================================== *)

Definition request_A : QueuedRequest :=
  {| rq_id := "A"; url := "https://discord.com/api/v9/channels/123/messages";
     method := "POST"; priority := NORMAL; timestamp := 10;
     retryCount := 0; maxRetries := 3; timeout := None;
     resolve := CallerFn; reject := CallerFn; bucketId := None |}.

Definition request_B : QueuedRequest :=
  {| rq_id := "B"; url := "https://discord.com/api/v9/channels/123/messages";
     method := "POST"; priority := NORMAL; timestamp := 5;
     retryCount := 0; maxRetries := 3; timeout := None;
     resolve := CallerFn; reject := CallerFn; bucketId := None |}.

Definition full_queue : PriorityQueue.t :=
  (PriorityQueue.enqueue request_A (PriorityQueue.new 1) []).1.1.

Definition no_config : DiscordRateLimitOrchestrator.Config :=
  {| DiscordRateLimitOrchestrator.cfg_maxRetries := 0;
     DiscordRateLimitOrchestrator.cfg_requestTimeout := 0;
     DiscordRateLimitOrchestrator.cfg_cleanupInterval := 0 |}.

(** An orchestrator built at time 0. *)
Definition live_orchestrator : DiscordRateLimitOrchestrator.t :=
  DiscordRateLimitOrchestrator.new no_config 0.

(** The same orchestrator after [shutdown()] at time 0. *)
Definition stopped_orchestrator : DiscordRateLimitOrchestrator.t :=
  (DiscordRateLimitOrchestrator.shutdown 0 live_orchestrator []).1.

(** A global rate limit of one minute. *)
Definition global_minute : RateLimitInfo.t :=
  {| RateLimitInfo.limit := 50; RateLimitInfo.remaining := 0;
     RateLimitInfo.resetAfter := 60000; RateLimitInfo.maxRetries := 3;
     RateLimitInfo.retryAfter := 60000; RateLimitInfo.global := true;
     RateLimitInfo.bucket := None; RateLimitInfo.messageId := None;
     RateLimitInfo.connectionId := None |}.

(** A store built at time 0. *)
Definition empty_store : MemoryRateLimitStore.t :=
  MemoryRateLimitStore.new 60000 0.

(** A bucket whose window ended at time 5000. *)
Definition old_bucket : RateLimitBucket.t :=
  {| RateLimitBucket.id := "b"; RateLimitBucket.limit := 5;
     RateLimitBucket.remaining := 0; RateLimitBucket.resetAt := 5000;
     RateLimitBucket.resetAfter := 5000; RateLimitBucket.maxRetries := 3;
     RateLimitBucket.lastUsed := 100; RateLimitBucket.requests := [] |}.

(** A request whose [url] is not a URL and which names no bucket. *)
Definition request_without_url : QueuedRequest :=
  {| rq_id := "C"; url := "not a url"; method := "GET";
     priority := NORMAL; timestamp := 1; retryCount := 0; maxRetries := 3;
     timeout := None; resolve := CallerFn; reject := CallerFn;
     bucketId := None |}.

Definition no_headers : RateLimitHeaders :=
  {| x_ratelimit_limit := 0; x_ratelimit_remaining := 0;
     x_ratelimit_reset_after := 0; x_ratelimit_global := false;
     x_ratelimit_bucket := None |}.

(** A 400 response whose body mentions a timeout. *)
Definition bad_request_response : HttpResponse :=
  {| status := 400; headers := no_headers;
     data := Some {| data_message := Some "Invalid timeout value";
                     data_retry_after := None; data_payload := "" |} |}.

(** A 404 response. *)
Definition not_found_response : HttpResponse :=
  {| status := 404; headers := no_headers;
     data := Some {| data_message := Some "Unknown Channel";
                     data_retry_after := None; data_payload := "" |} |}.

(** A middleware built at time 0 whose store got a global limit of one
    minute at time 0. *)
Definition limited_middleware : DiscordRateLimitMiddleware.t :=
  DiscordRateLimitMiddleware.new
    (MemoryRateLimitStore.setGlobalLimit global_minute 0 empty_store).

(** A request of bucket ["x"], LOW priority. *)
Definition request_X : QueuedRequest :=
  {| rq_id := "X"; url := "https://discord.com/api/v9/channels/123/messages";
     method := "POST"; priority := LOW; timestamp := 7;
     retryCount := 0; maxRetries := 3; timeout := None;
     resolve := CallerFn; reject := CallerFn; bucketId := Some "x" |}.

(** A queue of size 10 after [enqueue] of [request_A], [request_B] and
    [request_X], with the promises 0, 1 and 2 of these calls. *)
Definition three_queued : PriorityQueue.t * Heap :=
  enqueue_all [request_A; request_B; request_X] (PriorityQueue.new 10) [].

(** A 200 response without rate-limit headers. *)
Definition ok_response : HttpResponse :=
  {| status := 200; headers := no_headers;
     data := Some {| data_message := None; data_retry_after := None;
                     data_payload := "done" |} |}.

(** A middleware built at time 0 whose queue holds [request_A], with the
    promise 0 of that [enqueue] call. *)
Definition queued_middleware : DiscordRateLimitMiddleware.t :=
  DiscordRateLimitMiddleware.with_queue
    (PriorityQueue.enqueue request_A (PriorityQueue.new 10) []).1.1
    (DiscordRateLimitMiddleware.new empty_store).

(** A 429 response without rate-limit headers. *)
Definition rate_limited_response : HttpResponse :=
  {| status := 429; headers := no_headers; data := None |}.

(** A store in which [old_bucket] was written at time 100 and read at
    time 5001, after its window had ended. *)
Definition stale_store : MemoryRateLimitStore.t :=
  (MemoryRateLimitStore.getBucket "b" 5001
     (MemoryRateLimitStore.setBucket "b" old_bucket 100 empty_store)).2.

(** A store with one bucket, written at time 100 under the id
    ["__proto__"]. *)
Definition proto_store : MemoryRateLimitStore.t :=
  MemoryRateLimitStore.setBucket "__proto__" old_bucket 100 empty_store.

(* ===================================================================== *)
(** * Properties *)
(* ===================================================================== *)

Section Sorting.

Lemma length_insert_by_timestamp x l :
  length (PriorityQueue.insert_by_timestamp x l) = S (length l).
Proof.
  induction l as [|y l IH]; simpl; [done|].
  destruct (timestamp x <=? timestamp y); simpl; [done|]. by rewrite IH.
Qed.

Lemma length_sort l : length (PriorityQueue.sort l) = length l.
Proof.
  induction l as [|x l IH]; simpl; [done|].
  by rewrite length_insert_by_timestamp, IH.
Qed.

Lemma insert_insert_behind a x s :
  PriorityQueue.insert_by_timestamp a (insert_behind x s)
  = insert_behind x (PriorityQueue.insert_by_timestamp a s).
Proof.
  induction s as [|y s IH]; simpl;
    repeat (match goal with
            | |- context [?u <=? ?v] => destruct (Z.leb_spec u v)
            end; simpl);
    try lia; try done.
  by rewrite IH.
Qed.

Lemma sort_snoc l x :
  PriorityQueue.sort (l ++ [x]) = insert_behind x (PriorityQueue.sort l).
Proof.
  unfold PriorityQueue.sort. induction l as [|a l IH]; simpl; [done|].
  by rewrite IH, insert_insert_behind.
Qed.

Lemma Forall_insert_by_timestamp (P : QueuedRequest → Prop) a s :
  P a → Forall P s → Forall P (PriorityQueue.insert_by_timestamp a s).
Proof.
  intros Ha. induction 1 as [|y s Hy Hs IH]; simpl.
  - by constructor.
  - destruct (timestamp a <=? timestamp y); repeat constructor; done.
Qed.

Lemma Forall_sort (P : QueuedRequest → Prop) l :
  Forall P l → Forall P (PriorityQueue.sort l).
Proof.
  induction 1 as [|x l Hx Hl IH]; simpl; [constructor|].
  by apply Forall_insert_by_timestamp.
Qed.

Lemma insert_ascending a s :
  ascending s → ascending (PriorityQueue.insert_by_timestamp a s).
Proof.
  induction s as [|y s IH]; simpl; [by split|].
  intros [Hy Hs]. destruct (Z.leb_spec (timestamp a) (timestamp y)); simpl.
  - split; [|done]. constructor; [lia|].
    eapply Forall_impl; [exact Hy|]. simpl. intros; lia.
  - split; [|by apply IH].
    apply Forall_insert_by_timestamp; [lia|done].
Qed.

Lemma sort_ascending l : ascending (PriorityQueue.sort l).
Proof.
  induction l as [|x l IH]; simpl; [done|]. by apply insert_ascending.
Qed.

Lemma sort_of_ascending s : ascending s → PriorityQueue.sort s = s.
Proof.
  induction s as [|x s IH]; simpl; [done|].
  intros [Hx Hs]. unfold PriorityQueue.sort in *. simpl. rewrite IH by done.
  destruct s as [|y s]; simpl; [done|].
  inversion Hx; subst.
  assert ((timestamp x <=? timestamp y) = true) as -> by lia. done.
Qed.

Lemma sort_sort l : PriorityQueue.sort (PriorityQueue.sort l) = PriorityQueue.sort l.
Proof. apply sort_of_ascending, sort_ascending. Qed.

End Sorting.

Section QueueSizes.

Implicit Types (q : PriorityQueue.t) (qs : list (list QueuedRequest)).

Lemma stored_cons (queue : list QueuedRequest) qs :
  stored (queue :: qs) = Z.of_nat (length queue) + stored qs.
Proof. unfold stored. simpl. rewrite length_app. lia. Qed.

Lemma stored_insert qs (i : nat) (old new : list QueuedRequest) :
  qs !! i = Some old →
  stored (<[i := new]> qs)
  = stored qs - Z.of_nat (length old) + Z.of_nat (length new).
Proof.
  revert i. induction qs as [|queue qs IH]; intros [|i] H; simplify_eq/=.
  - rewrite !stored_cons. lia.
  - rewrite !stored_cons, (IH _ H). lia.
Qed.

Lemma get_Some p q queue :
  PriorityQueue.get p q = Some queue →
  0 <= p ∧ PriorityQueue.queues q !! Z.to_nat p = Some queue.
Proof.
  unfold PriorityQueue.get. destruct (Z.leb_spec 0 p); [done|discriminate].
Qed.

Lemma tier_sizes_stored q :
  length (PriorityQueue.queues q) = 5%nat →
  tier_sizes q = stored (PriorityQueue.queues q).
Proof.
  unfold tier_sizes, PriorityQueue.getQueueSize, PriorityQueue.get.
  destruct (PriorityQueue.queues q) as [|q0 [|q1 [|q2 [|q3 [|q4 [|]]]]]];
    try discriminate.
  intros _. simpl. rewrite !stored_cons. unfold stored. simpl. lia.
Qed.

Lemma splice_loop_sizes {A} test (act : QueuedRequest → A → A) queue
    r t a kept r' t' a' :
  PriorityQueue.splice_loop test act queue (r, t, a) = (kept, (r', t', a')) →
  kept = List.filter (fun x => negb (test x)) queue
  ∧ r' = r + Z.of_nat (length (List.filter test queue))
  ∧ t' = t - Z.of_nat (length (List.filter test queue)).
Proof.
  unfold PriorityQueue.splice_loop. revert kept r' t' a'.
  induction queue as [|x queue IH]; intros kept r' t' a' H; simpl in H.
  - simplify_eq. simpl. repeat split; lia.
  - destruct (foldr _ _ queue) as [kept1 [[r1 t1] a1]] eqn:E.
    destruct (IH _ _ _ _ eq_refl) as (-> & -> & ->).
    simpl. destruct (test x); simplify_eq; simpl; repeat split; lia.
Qed.

Lemma length_filter_split {A} (f : A → bool) (l : list A) :
  (length (List.filter f l) + length (List.filter (fun x => negb (f x)) l)
   = length l)%nat.
Proof.
  induction l as [|x l IH]; simpl; [done|]. destruct (f x); simpl; lia.
Qed.

Lemma splice_queues_sizes {A} guard test (act : QueuedRequest → A → A)
    key qs r t a qs' r' t' a' :
  PriorityQueue.splice_queues guard test act key qs (r, t, a)
  = (qs', (r', t', a')) →
  length qs' = length qs
  ∧ t' - stored qs' = t - stored qs
  ∧ r' - r = stored qs - stored qs'.
Proof.
  revert key r t a qs' r' t' a'.
  induction qs as [|queue qs IH]; intros key r t a qs' r' t' a' H; simpl in H.
  - simplify_eq. repeat split; lia.
  - destruct (guard key).
    + destruct (PriorityQueue.splice_loop test act queue (r, t, a))
        as [kept [[r1 t1] a1]] eqn:E.
      apply splice_loop_sizes in E as (-> & -> & ->).
      destruct (PriorityQueue.splice_queues guard test act (key + 1) qs _)
        as [qs2 [[r2 t2] a2]] eqn:E2.
      apply IH in E2 as (HL & HT & HR). simplify_eq. simpl.
      rewrite !stored_cons.
      pose proof (length_filter_split test queue). repeat split; lia.
    + destruct (PriorityQueue.splice_queues guard test act (key + 1) qs _)
        as [qs2 [[r2 t2] a2]] eqn:E2.
      apply IH in E2 as (HL & HT & HR). simplify_eq. simpl.
      rewrite !stored_cons. repeat split; lia.
Qed.

Lemma counted_new maxSize : counted (PriorityQueue.new maxSize).
Proof. done. Qed.

Lemma counted_enqueue request q h :
  counted q → counted (PriorityQueue.enqueue request q h).1.1.
Proof.
  intros [HL HT]. unfold PriorityQueue.enqueue.
  destruct (PriorityQueue.totalSize q >=? PriorityQueue.maxSize q); [done|].
  destruct (PriorityQueue.get _ q) as [queue|] eqn:G; [|done].
  apply get_Some in G as [_ G]. split; simpl.
  - by rewrite length_insert.
  - rewrite (stored_insert _ _ _ _ G), length_sort, length_app. simpl. lia.
Qed.

Lemma counted_dequeue_loop ps q :
  counted q → counted (PriorityQueue.dequeue_loop ps q).2.
Proof.
  intros [HL HT]. induction ps as [|p ps IH]; simpl; [done|].
  destruct (PriorityQueue.get p q) as [[|request rest]|] eqn:G; try done.
  apply get_Some in G as [_ G]. split; simpl.
  - by rewrite length_insert.
  - rewrite (stored_insert _ _ _ _ G). simpl. lia.
Qed.

Lemma counted_removeExpired timeoutMs now q h :
  counted q → counted (PriorityQueue.removeExpired timeoutMs now q h).1.1.
Proof.
  intros [HL HT]. unfold PriorityQueue.removeExpired.
  destruct (PriorityQueue.splice_queues _ _ _ _ _ _)
    as [qs [[r t] a]] eqn:E.
  apply splice_queues_sizes in E as (? & ? & ?). split; simpl; lia.
Qed.

Lemma counted_clearBucket bucket q h :
  counted q → counted (PriorityQueue.clearBucket bucket q h).1.1.
Proof.
  intros [HL HT]. unfold PriorityQueue.clearBucket.
  destruct (PriorityQueue.splice_queues _ _ _ _ _ _)
    as [qs [[r t] a]] eqn:E.
  apply splice_queues_sizes in E as (? & ? & ?). split; simpl; lia.
Qed.

Lemma counted_promoteRequests bucket newPriority q :
  counted q → counted (PriorityQueue.promoteRequests bucket newPriority q).1.
Proof.
  intros [HL HT]. unfold PriorityQueue.promoteRequests.
  destruct (PriorityQueue.splice_queues _ _ _ _ _ _)
    as [qs [[r t] moved]] eqn:E.
  apply splice_queues_sizes in E as (? & ? & ?).
  destruct (PriorityQueue.get newPriority _) as [targetQueue|] eqn:G.
  - apply get_Some in G as [_ G]. simpl in G. split; simpl.
    + rewrite length_insert. lia.
    + rewrite (stored_insert _ _ _ _ G), length_sort, length_app, length_map.
      lia.
  - split; simpl; lia.
Qed.

Lemma stored_cleared qs :
  stored (map (fun _ : list QueuedRequest => @nil QueuedRequest) qs) = 0.
Proof.
  induction qs as [|queue qs IH]; [done|].
  simpl. by rewrite stored_cons, IH.
Qed.

Lemma counted_clear q h : counted q → counted (PriorityQueue.clear q h).1.
Proof.
  intros [HL HT]. split; simpl.
  - by rewrite length_map.
  - by rewrite stored_cleared.
Qed.

Lemma counted_step st op : counted st.1 → counted (queue_step st op).1.
Proof.
  destruct st as [q h]. simpl. intros Hq. destruct op; simpl.
  - pose proof (counted_enqueue request q h Hq).
    by destruct (PriorityQueue.enqueue request q h) as [[??]?].
  - by apply counted_dequeue_loop.
  - pose proof (counted_removeExpired timeoutMs now q h Hq).
    by destruct (PriorityQueue.removeExpired timeoutMs now q h) as [[??]?].
  - pose proof (counted_clearBucket bucket q h Hq).
    by destruct (PriorityQueue.clearBucket bucket q h) as [[??]?].
  - by apply counted_promoteRequests.
  - exact (counted_clear q h Hq).
Qed.

Lemma counted_run ops st : counted st.1 → counted (queue_run ops st).1.
Proof.
  revert st. induction ops as [|op ops IH]; intros st Hst; [done|].
  simpl. by apply IH, counted_step.
Qed.

End QueueSizes.

(** C10. After any sequence of [enqueue], [dequeue], [removeExpired],
    [clearBucket], [promoteRequests] and [clear] calls on a new queue,
    [getTotalSize()] is the sum over the five priority tiers of
    [getQueueSize(priority)]. *)
Theorem total_size_is_sum_of_tiers (maxSize : Z) (h : Heap) (ops : list queue_op) :
  PriorityQueue.getTotalSize (queue_run ops (PriorityQueue.new maxSize, h)).1
  = tier_sizes (queue_run ops (PriorityQueue.new maxSize, h)).1.
Proof.
  destruct (counted_run ops (PriorityQueue.new maxSize, h)
              (counted_new maxSize)) as [HL HT].
  unfold PriorityQueue.getTotalSize. by rewrite tier_sizes_stored.
Qed.

(** C6. When the queue already holds [maxSize] entries
    ([getTotalSize() >= maxSize]), [enqueue] leaves the queue as it is and
    the promise it returns is rejected with the queue-full error; no other
    promise changes. *)
Theorem enqueue_on_full_queue (request : QueuedRequest) (q : PriorityQueue.t)
    (h : Heap) :
  PriorityQueue.getTotalSize q >= PriorityQueue.maxSize q →
  PriorityQueue.enqueue request q h
  = (q, h ++ [Rejected (mkError "Rate limit queue is full")], length h).
Proof.
  unfold PriorityQueue.enqueue, PriorityQueue.getTotalSize. intros H.
  destruct (Z.geb_spec (PriorityQueue.totalSize q) (PriorityQueue.maxSize q));
    [done|lia].
Qed.

Section DequeueOrder.

Implicit Types (q : PriorityQueue.t) (l rs : list QueuedRequest).

Lemma tier_order_snoc p l r :
  tier_order p (l ++ [r])
  = if priority r =? p
    then PriorityQueue.sort (tier_order p l ++ [r])
    else tier_order p l.
Proof.
  unfold tier_order. rewrite List.filter_app. simpl. unfold has_priority at 2.
  destruct (priority r =? p).
  - by rewrite !sort_snoc, sort_sort.
  - by rewrite app_nil_r.
Qed.

Lemma get_tiers q l p :
  PriorityQueue.queues q = map (fun p => tier_order p l) PriorityQueue.tiers →
  PriorityQueue.get p q
  = if valid_priority p then Some (tier_order p l) else None.
Proof.
  intros Hq. unfold PriorityQueue.get, valid_priority. rewrite Hq.
  destruct (Z.leb_spec 0 p); simpl; [|done].
  destruct (Z.leb_spec p 4).
  - assert (p = 0 ∨ p = 1 ∨ p = 2 ∨ p = 3 ∨ p = 4) as Hp by lia.
    destruct Hp as [->|[->|[->|[->| ->]]]]; done.
  - apply lookup_ge_None_2. simpl. lia.
Qed.

Lemma queues_snoc l r :
  valid_priority (priority r) = true →
  <[Z.to_nat (priority r) :=
      PriorityQueue.sort (tier_order (priority r) l ++ [r])]>
    (map (fun p => tier_order p l) PriorityQueue.tiers)
  = map (fun p => tier_order p (l ++ [r])) PriorityQueue.tiers.
Proof.
  unfold valid_priority. intros Hv.
  assert (priority r = 0 ∨ priority r = 1 ∨ priority r = 2
          ∨ priority r = 3 ∨ priority r = 4) as Hp by lia.
  simpl. rewrite !tier_order_snoc.
  destruct Hp as [->|[->|[->|[->| ->]]]]; done.
Qed.

Lemma enqueue_all_stored rs q h l :
  PriorityQueue.queues q = map (fun p => tier_order p l) PriorityQueue.tiers →
  PriorityQueue.totalSize q = Z.of_nat (length l) →
  PriorityQueue.queues (enqueue_all rs q h).1
  = map (fun p =>
           tier_order p
             (l ++ accepted (PriorityQueue.maxSize q) (Z.of_nat (length l))
                     (length h) rs))
        PriorityQueue.tiers.
Proof.
  revert q h l. induction rs as [|r rs IH]; intros q h l Hq Ht; simpl.
  - by rewrite app_nil_r.
  - unfold PriorityQueue.enqueue. rewrite Ht.
    destruct (Z.of_nat (length l) >=? PriorityQueue.maxSize q).
    + rewrite (IH q _ l Hq Ht). unfold alloc, fresh.
      rewrite length_app. simpl. by rewrite Nat.add_1_r.
    + simpl. rewrite (get_tiers q l _ Hq).
      destruct (valid_priority (priority r)) eqn:Hv.
      * rewrite (IH _ _ (l ++ [set_settlers (PromiseFn (fresh h)) r])).
        -- simpl. unfold alloc, fresh.
           rewrite !length_app. simpl. rewrite Nat.add_1_r, <- app_assoc.
           simpl. repeat f_equal; lia.
        -- simpl. rewrite Hq. by apply (queues_snoc l (set_settlers _ r)).
        -- simpl. rewrite length_app. simpl. lia.
      * rewrite (IH q _ l Hq Ht). unfold alloc, fresh.
        rewrite length_app. simpl. by rewrite Nat.add_1_r.
Qed.

Lemma dequeue_head q :
  length (PriorityQueue.queues q) = 5%nat →
  match concat (PriorityQueue.queues q) with
  | [] => (PriorityQueue.dequeue q).1 = None
  | r :: rest =>
      (PriorityQueue.dequeue q).1 = Some r
      ∧ concat (PriorityQueue.queues (PriorityQueue.dequeue q).2) = rest
      ∧ length (PriorityQueue.queues (PriorityQueue.dequeue q).2) = 5%nat
  end.
Proof.
  unfold PriorityQueue.dequeue, PriorityQueue.dequeue_loop,
    PriorityQueue.tiers, PriorityQueue.get.
  destruct (PriorityQueue.queues q) as [|q0 [|q1 [|q2 [|q3 [|q4 [|]]]]]];
    try discriminate.
  intros _.
  destruct q0; [|simpl; by rewrite ?app_nil_r].
  destruct q1; [|simpl; by rewrite ?app_nil_r].
  destruct q2; [|simpl; by rewrite ?app_nil_r].
  destruct q3; [|simpl; by rewrite ?app_nil_r].
  destruct q4; [|simpl; by rewrite ?app_nil_r].
  done.
Qed.

Lemma drain_all n q :
  length (PriorityQueue.queues q) = 5%nat →
  (length (concat (PriorityQueue.queues q)) ≤ n)%nat →
  drain n q = concat (PriorityQueue.queues q).
Proof.
  revert q. induction n as [|n IH]; intros q HL Hn.
  - simpl. by destruct (concat (PriorityQueue.queues q)); [|simpl in Hn; lia].
  - simpl. pose proof (dequeue_head q HL) as Hd.
    destruct (PriorityQueue.dequeue q) as [[r'|] q'];
      destruct (concat (PriorityQueue.queues q)) as [|r rest];
      simpl in *; try done.
    + destruct Hd as (? & ? & ?). simplify_eq.
      f_equal. apply IH; [done|lia].
    + by destruct Hd.
Qed.

Lemma length_accepted maxSize n k rs :
  (length (accepted maxSize n k rs) ≤ length rs)%nat.
Proof.
  revert n k. induction rs as [|r rs IH]; intros n k; simpl; [done|].
  destruct (n >=? maxSize); [specialize (IH n (S k)); lia|].
  destruct (valid_priority (priority r)); simpl.
  - specialize (IH (n + 1) (S k)); lia.
  - specialize (IH n (S k)); lia.
Qed.

Lemma length_priority_order l :
  (length (priority_order l) ≤ length l)%nat.
Proof.
  unfold priority_order, tier_order. simpl.
  rewrite !length_app, !length_sort. simpl. unfold has_priority.
  induction l as [|r l IH]; simpl; [done|].
  destruct (Z.eqb_spec (priority r) 0), (Z.eqb_spec (priority r) 1),
    (Z.eqb_spec (priority r) 2), (Z.eqb_spec (priority r) 3),
    (Z.eqb_spec (priority r) 4); simpl; lia.
Qed.

End DequeueOrder.

Section PriorityOrder.

Lemma Forall_has_priority n l :
  Forall (fun r => priority r = n) (tier_order n l).
Proof.
  unfold tier_order. apply Forall_sort.
  induction l as [|r l IH]; simpl; [constructor|].
  unfold has_priority at 1. destruct (Z.eqb_spec (priority r) n); [|done].
  by constructor.
Qed.

Lemma tier_order_sorted n l : StronglySorted before (tier_order n l).
Proof.
  pose proof (Forall_has_priority n l) as Hp.
  pose proof (sort_ascending (List.filter (has_priority n) l)) as Ha.
  fold (tier_order n l) in Ha.
  induction (tier_order n l) as [|x t IH]; [constructor|].
  inversion Hp; subst. destruct Ha as [Hx Ha].
  constructor; [by apply IH|].
  rewrite Forall_forall in *. intros y Hy. right. split.
  - symmetry. auto.
  - auto.
Qed.

Lemma before_across_tiers n1 n2 l x1 x2 :
  n1 < n2 → x1 ∈ tier_order n1 l → x2 ∈ tier_order n2 l → before x1 x2.
Proof.
  intros Hn H1 H2. left.
  pose proof (Forall_has_priority n1 l) as F1.
  pose proof (Forall_has_priority n2 l) as F2.
  rewrite Forall_forall in F1, F2. rewrite (F1 _ H1), (F2 _ H2). done.
Qed.

Lemma priority_order_sorted l : StronglySorted before (priority_order l).
Proof.
  unfold priority_order. simpl. rewrite app_nil_r.
  repeat (apply StronglySorted_app_2; [|apply tier_order_sorted|]);
    try apply tier_order_sorted;
    intros x1 x2 H1 H2;
    repeat (apply elem_of_app in H2 as [H2|H2]);
    (eapply before_across_tiers; [|exact H1|exact H2]; lia).
Qed.

End PriorityOrder.

Lemma accepted_all maxSize n k rs :
  Forall (fun r => valid_priority (priority r) = true) rs →
  n + Z.of_nat (length rs) <= maxSize →
  accepted maxSize n k rs = attached k rs.
Proof.
  intros Hv. revert n k. unfold attached.
  induction Hv as [|r rs Hr Hrs IH]; intros n k Hn; simpl in *; [done|].
  destruct (Z.geb_spec n maxSize); [lia|]. rewrite Hr.
  rewrite Nat.add_0_r. f_equal. rewrite IH by lia.
  apply imap_ext. intros i x _. simpl. do 2 f_equal. lia.
Qed.

(** C1, as the code has it. On a new queue, a sequence of [enqueue] calls
    followed by [dequeue] calls returns the requests that were stored (a
    call is refused when the queue is full or the priority is not one of
    the five) tier after tier in ascending priority, whatever their ages,
    and then [null]: of two requests returned, the earlier one has the
    lower priority number or the same priority and a [timestamp] that is
    not larger. Within a tier the requests come back by ascending
    [timestamp], requests of equal timestamp in the order of their calls;
    that is the order of the calls whenever the timestamps of the tier do
    not decrease from one call to the next. When every priority is valid
    and the calls fit in [maxSize], every request is stored. *)
Theorem dequeue_order (maxSize : Z) (h : Heap) (rs : list QueuedRequest)
    (extra : nat) :
  let l := accepted maxSize 0 (length h) rs in
  drain (length rs + extra) (enqueue_all rs (PriorityQueue.new maxSize) h).1
  = priority_order l
  ∧ StronglySorted before (priority_order l)
  ∧ (∀ p, ascending (tier_order p l))
  ∧ (∀ p, ascending (List.filter (has_priority p) l) →
          tier_order p l = List.filter (has_priority p) l)
  ∧ (Forall (fun r => valid_priority (priority r) = true) rs →
     Z.of_nat (length rs) <= maxSize →
     l = attached (length h) rs).
Proof.
  intros l. repeat split.
  - pose proof (enqueue_all_stored rs (PriorityQueue.new maxSize) h []
                  eq_refl eq_refl) as Hq.
    change (PriorityQueue.queues
              (enqueue_all rs (PriorityQueue.new maxSize) h).1
            = map (fun p => tier_order p l) PriorityQueue.tiers) in Hq.
    rewrite drain_all; rewrite ?Hq; try done.
    pose proof (length_priority_order l) as H1.
    pose proof (length_accepted maxSize 0 (length h) rs) as H2.
    fold l in H2. unfold priority_order in H1. lia.
  - apply priority_order_sorted.
  - intros p. apply sort_ascending.
  - intros p. apply sort_of_ascending.
  - intros Hv Hn. apply accepted_all; [done|lia].
Qed.

(** C1 fails as stated: of two NORMAL requests, the one enqueued second
    with the older timestamp is dequeued first. *)
Lemma dequeue_order_not_enqueue_order : ¬ enqueue_order_within_tiers.
Proof.
  intros H. specialize (H 10 [request_A; request_B]).
  assert (Forall (fun r => valid_priority (priority r) = true)
            [request_A; request_B]) as Hv by (repeat constructor).
  specialize (H Hv ltac:(simpl; lia)). vm_compute in H. discriminate.
Qed.

Lemma dequeue_order_witness :
  drain 2 (enqueue_all [request_B; request_A] (PriorityQueue.new 10) []).1
  = [set_settlers (PromiseFn 0) request_B; set_settlers (PromiseFn 1) request_A]
  ∧ tier_order NORMAL (attached 0 [request_B; request_A])
    = attached 0 [request_B; request_A].
Proof.
  destruct (dequeue_order 10 [] [request_B; request_A] 0)
    as (Hd & _ & _ & Ho & Ha).
  assert (accepted 10 0 0 [request_B; request_A]
          = attached 0 [request_B; request_A]) as E.
  { apply Ha; [repeat constructor | simpl; lia]. }
  simpl length in *. rewrite E in Hd, Ho. split.
  - exact Hd.
  - rewrite (Ho NORMAL); [reflexivity|].
    simpl. repeat split; repeat constructor. simpl. lia.
Defined.

Lemma enqueue_on_full_queue_witness :
  PriorityQueue.getTotalSize full_queue >= PriorityQueue.maxSize full_queue
  ∧ PriorityQueue.enqueue request_B full_queue [Pending]
    = (full_queue,
       [Pending; Rejected (mkError "Rate limit queue is full")], 1%nat).
Proof.
  split; [vm_compute; discriminate|].
  apply (enqueue_on_full_queue request_B full_queue [Pending]).
  vm_compute. discriminate.
Defined.

Section Store.

Implicit Types (s : MemoryRateLimitStore.t) (bucket : RateLimitBucket.t).

Lemma getBucket_live bucketId bucket now s :
  MemoryRateLimitStore.buckets s !! bucketId = Some bucket →
  now <= RateLimitBucket.resetAt bucket →
  MemoryRateLimitStore.getBucket bucketId now s = (Some bucket, s).
Proof.
  intros Hb Hn. unfold MemoryRateLimitStore.getBucket. rewrite Hb.
  destruct (Z.gtb_spec now (RateLimitBucket.resetAt bucket)); [lia|done].
Qed.

Lemma getBucket_expired bucketId bucket now s :
  MemoryRateLimitStore.buckets s !! bucketId = Some bucket →
  RateLimitBucket.resetAt bucket < now →
  MemoryRateLimitStore.getBucket bucketId now s
  = (None,
     MemoryRateLimitStore.with_buckets
       (delete bucketId (MemoryRateLimitStore.buckets s)) s).
Proof.
  intros Hb Hn. unfold MemoryRateLimitStore.getBucket. rewrite Hb.
  destruct (Z.gtb_spec now (RateLimitBucket.resetAt bucket)); [done|lia].
Qed.

Lemma getBucket_absent bucketId now s :
  MemoryRateLimitStore.buckets s !! bucketId = None →
  MemoryRateLimitStore.getBucket bucketId now s = (None, s).
Proof. intros Hb. unfold MemoryRateLimitStore.getBucket. by rewrite Hb. Qed.

Lemma setBucket_lookup bucketId bucket now s :
  MemoryRateLimitStore.buckets
    (MemoryRateLimitStore.setBucket bucketId bucket now s) !! bucketId
  = Some (RateLimitBucket.with_lastUsed now bucket).
Proof. simpl. apply lookup_insert_eq. Qed.

Lemma manager_getBucket_fresh bucketId defaultLimit defaultResetAfter now s :
  (MemoryRateLimitStore.getBucket bucketId now s).1 = None →
  (BucketManager.getBucket bucketId defaultLimit defaultResetAfter now s).1
  = BucketManager.fresh_bucket bucketId defaultLimit defaultResetAfter now.
Proof.
  unfold BucketManager.getBucket.
  destruct (MemoryRateLimitStore.getBucket bucketId now s) as [[b|] s'];
    [discriminate|done].
Qed.

End Store.

(** C4. A store read of a bucket whose [resetAt] has passed returns [null]
    and removes the bucket, leaving the other buckets alone; the next
    manager-level read, whenever it comes, and equally a manager-level read
    in place of the store read, yields a bucket as newly created, with
    [remaining] equal to the full limit. No reset call is involved. *)
Theorem expired_bucket_is_absent (bucketId : string)
    (bucket : RateLimitBucket.t) (now later : Z)
    (defaultLimit defaultResetAfter : Z) (s : MemoryRateLimitStore.t) :
  MemoryRateLimitStore.buckets s !! bucketId = Some bucket →
  RateLimitBucket.resetAt bucket < now →
  let read := MemoryRateLimitStore.getBucket bucketId now s in
  read.1 = None
  ∧ MemoryRateLimitStore.buckets read.2
    = delete bucketId (MemoryRateLimitStore.buckets s)
  ∧ (BucketManager.getBucket bucketId defaultLimit defaultResetAfter
       later read.2).1
    = BucketManager.fresh_bucket bucketId defaultLimit defaultResetAfter later
  ∧ (BucketManager.getBucket bucketId defaultLimit defaultResetAfter now s).1
    = BucketManager.fresh_bucket bucketId defaultLimit defaultResetAfter now
  ∧ RateLimitBucket.remaining
      (BucketManager.fresh_bucket bucketId defaultLimit defaultResetAfter later)
    = defaultLimit.
Proof.
  intros Hb Hn read. unfold read.
  rewrite (getBucket_expired _ _ _ _ Hb Hn). simpl. repeat split.
  - apply manager_getBucket_fresh. rewrite getBucket_absent; [done|].
    simpl. apply lookup_delete_eq.
  - apply manager_getBucket_fresh. by rewrite (getBucket_expired _ _ _ _ Hb Hn).
Qed.

Lemma expired_bucket_is_absent_witness :
  let s := MemoryRateLimitStore.setBucket "b" old_bucket 100 empty_store in
  (MemoryRateLimitStore.getBucket "b" 5001 s).1 = None
  ∧ RateLimitBucket.remaining
      (BucketManager.getBucket "b" 5 5000 5001 s).1 = 5.
Proof.
  intros s.
  destruct (expired_bucket_is_absent "b"
              (RateLimitBucket.with_lastUsed 100 old_bucket) 5001 5001 5 5000 s)
    as (H1 & _ & _ & H4 & H5).
  - reflexivity.
  - simpl. lia.
  - split; [exact H1|]. rewrite H4. exact H5.
Defined.

Section Consume.

Implicit Types (s : MemoryRateLimitStore.t) (bucket : RateLimitBucket.t).

Lemma getBucket_default_live bucketId bucket now s :
  MemoryRateLimitStore.buckets s !! bucketId = Some bucket →
  now <= RateLimitBucket.resetAt bucket →
  BucketManager.getBucket_default bucketId now s = (bucket, s).
Proof.
  intros Hb Hn. unfold BucketManager.getBucket_default, BucketManager.getBucket.
  by rewrite (getBucket_live _ _ _ _ Hb Hn).
Qed.

Lemma getBucket_default_created bucketId now s :
  (MemoryRateLimitStore.getBucket bucketId now s).1 = None →
  RateLimitBucket.remaining (BucketManager.getBucket_default bucketId now s).1
  = 5.
Proof.
  intros H. unfold BucketManager.getBucket_default.
  by rewrite manager_getBucket_fresh.
Qed.

Lemma getBucket_default_cases bucketId now s :
  (∃ bucket,
      MemoryRateLimitStore.buckets s !! bucketId = Some bucket
      ∧ now <= RateLimitBucket.resetAt bucket
      ∧ BucketManager.getBucket_default bucketId now s = (bucket, s))
  ∨ RateLimitBucket.remaining
      (BucketManager.getBucket_default bucketId now s).1 = 5.
Proof.
  destruct (MemoryRateLimitStore.buckets s !! bucketId) as [bucket|] eqn:Hb.
  - destruct (Z.le_gt_cases now (RateLimitBucket.resetAt bucket)).
    + left. exists bucket. by rewrite (getBucket_default_live _ _ _ _ Hb).
    + right. apply getBucket_default_created.
      by rewrite (getBucket_expired _ _ _ _ Hb).
  - right. apply getBucket_default_created. by rewrite getBucket_absent.
Qed.

Lemma consume_live bucketId k resetAt now s :
  bucket_has bucketId k resetAt s → now <= resetAt → 0 < k →
  ∃ s',
    BucketManager.consumeRequest bucketId now s = (true, s')
    ∧ bucket_has bucketId (k - 1) resetAt s'.
Proof.
  intros (bucket & Hb & <- & <-) Hn Hk. unfold BucketManager.consumeRequest.
  rewrite (getBucket_default_live _ _ _ _ Hb Hn).
  destruct (Z.leb_spec (RateLimitBucket.remaining bucket) 0); [lia|].
  eexists. split; [done|]. eexists. split; [apply setBucket_lookup|done].
Qed.

Lemma consume_exhausted bucketId k resetAt now s :
  bucket_has bucketId k resetAt s → now <= resetAt → k <= 0 →
  BucketManager.consumeRequest bucketId now s = (false, s).
Proof.
  intros (bucket & Hb & <- & <-) Hn Hk. unfold BucketManager.consumeRequest.
  rewrite (getBucket_default_live _ _ _ _ Hb Hn).
  by destruct (Z.leb_spec (RateLimitBucket.remaining bucket) 0); [|lia].
Qed.

Lemma consume_expired bucketId k resetAt now s :
  bucket_has bucketId k resetAt s → resetAt < now →
  (BucketManager.consumeRequest bucketId now s).1 = true.
Proof.
  intros (bucket & Hb & <- & <-) Hn. unfold BucketManager.consumeRequest.
  pose proof (getBucket_default_created bucketId now s) as Hc.
  rewrite (getBucket_expired _ _ _ _ Hb Hn) in Hc. specialize (Hc eq_refl).
  destruct (BucketManager.getBucket_default bucketId now s) as [b s1].
  simpl in Hc. rewrite Hc. done.
Qed.

End Consume.

(** C2. [consumeRequest] works on the bucket that the create-or-fetch read
    returns. When that bucket has tokens left it returns [true] and stores
    the bucket with [remaining] one lower, which is not negative; when it
    has none it returns [false] and the store is the one before the call.
    On a bucket created at [t0] with [limit = 5] and [resetAfter = 5000],
    five calls within the window return [true], a sixth returns [false],
    and a call after the window is over returns [true]. *)
Theorem consumeRequest_takes_one_token (bucketId : string) (now : Z)
    (s : MemoryRateLimitStore.t) :
  (let '(bucket, _) := BucketManager.getBucket_default bucketId now s in
   let '(consumed, s') := BucketManager.consumeRequest bucketId now s in
   (0 < RateLimitBucket.remaining bucket →
    consumed = true
    ∧ ∃ bucket',
        MemoryRateLimitStore.buckets s' !! bucketId = Some bucket'
        ∧ RateLimitBucket.remaining bucket'
          = RateLimitBucket.remaining bucket - 1
        ∧ 0 <= RateLimitBucket.remaining bucket')
   ∧ (RateLimitBucket.remaining bucket <= 0 → consumed = false ∧ s' = s))
  ∧ ∀ t0 t1 t2 t3 t4 t5 t6 t7,
      (MemoryRateLimitStore.getBucket bucketId t0 s).1 = None →
      Forall (fun t => t <= t0 + 5000) [t1; t2; t3; t4; t5; t6] →
      t0 + 5000 < t7 →
      (consume_at bucketId [t1; t2; t3; t4; t5; t6; t7]
         (BucketManager.getBucket bucketId 5 5000 t0 s).2).1
      = [true; true; true; true; true; false; true].
Proof.
  split.
  - unfold BucketManager.consumeRequest.
    destruct (getBucket_default_cases bucketId now s)
      as [(bucket & Hb & Hn & ->)|Hc].
    + destruct (Z.leb_spec (RateLimitBucket.remaining bucket) 0).
      * split; [lia|done].
      * split; [|lia]. intros _. split; [done|].
        eexists. split; [apply setBucket_lookup|]. simpl. lia.
    + destruct (BucketManager.getBucket_default bucketId now s) as [b s1].
      simpl in Hc. rewrite Hc. simpl. split; [|lia]. intros _. split; [done|].
      eexists. split; [apply setBucket_lookup|]. simpl. lia.
  - intros t0 t1 t2 t3 t4 t5 t6 t7 Hnone Hin Hout.
    unfold BucketManager.getBucket.
    destruct (MemoryRateLimitStore.getBucket bucketId t0 s) as [[b|] s0];
      [discriminate|]. simpl snd.
    set (s1 := MemoryRateLimitStore.setBucket _ _ _ _).
    assert (bucket_has bucketId 5 (t0 + 5000) s1) as H5.
    { eexists. split; [apply setBucket_lookup|done]. }
    repeat match goal with
           | H : Forall _ (_ :: _) |- _ => inversion H; clear H; subst
           end.
    simpl.
    repeat match goal with
           | H : bucket_has bucketId ?k _ ?st
             |- context [BucketManager.consumeRequest bucketId ?t ?st] =>
               let s' := fresh "s" in
               let E := fresh "E" in
               let H' := fresh "H" in
               destruct (consume_live bucketId k _ t st H) as (s' & E & H');
               [lia|lia|]; rewrite E; clear E H; simpl in H'
           end.
    match goal with
    | H : bucket_has bucketId _ _ _ |- _ =>
        rewrite (consume_exhausted bucketId _ _ t6 _ H) by lia;
        pose proof (consume_expired bucketId _ _ t7 _ H Hout) as E
    end.
    destruct (BucketManager.consumeRequest bucketId t7 _) as [c s7].
    simpl in E. by rewrite E.
Qed.

Lemma consumeRequest_takes_one_token_witness :
  (BucketManager.consumeRequest "b" 10 empty_store).1 = true
  ∧ (consume_at "b" [1; 2; 3; 4; 5000; 5000; 5001]
       (BucketManager.getBucket "b" 5 5000 0 empty_store).2).1
    = [true; true; true; true; true; false; true].
Proof.
  destruct (consumeRequest_takes_one_token "b" 10 empty_store) as [H1 H2].
  split.
  - destruct (BucketManager.getBucket_default "b" 10 empty_store)
      as [bucket s1] eqn:E1.
    destruct (BucketManager.consumeRequest "b" 10 empty_store)
      as [consumed s2] eqn:E2.
    destruct H1 as [H1 _]. apply H1.
    vm_compute in E1. injection E1 as <- <-. reflexivity.
  - apply (H2 0 1 2 3 4 5000 5000 5001).
    + reflexivity.
    + repeat constructor; simpl; lia.
    + simpl; lia.
Defined.

Section GlobalLimit.

Implicit Types (s : MemoryRateLimitStore.t) (o : DiscordRateLimitOrchestrator.t).

Lemma manager_isRateLimited_open bucketId now s :
  MemoryRateLimitStore.globalLimit s = None →
  bucket_open bucketId now s →
  (BucketManager.isRateLimited bucketId now s).1 = false.
Proof.
  intros Hg Hopen. unfold BucketManager.isRateLimited, bucket_open in *.
  unfold MemoryRateLimitStore.getGlobalLimit. rewrite Hg.
  unfold MemoryRateLimitStore.getBucket.
  destruct (MemoryRateLimitStore.buckets s !! bucketId) as [bucket|]; [|done].
  destruct (Z.gtb_spec now (RateLimitBucket.resetAt bucket)); [done|]. simpl.
  destruct Hopen.
  - by destruct (Z.leb_spec (RateLimitBucket.remaining bucket) 0); [lia|].
  - destruct (Z.ltb_spec now (RateLimitBucket.resetAt bucket)); [lia|].
    apply andb_false_r.
Qed.

Lemma middleware_isRateLimited_before g bucketId now m :
  MemoryRateLimitStore.globalLimit (DiscordRateLimitMiddleware.store m)
  = Some g →
  now < RateLimitInfo.resetAfter g →
  (DiscordRateLimitMiddleware.isRateLimited bucketId now m).1 = true.
Proof.
  intros Hg Hn. unfold DiscordRateLimitMiddleware.isRateLimited,
    MemoryRateLimitStore.getGlobalLimit. rewrite Hg.
  destruct (Z.gtb_spec now (RateLimitInfo.resetAfter g)); [lia|].
  by destruct (Z.ltb_spec now (RateLimitInfo.resetAfter g)); [|lia].
Qed.

Lemma middleware_isRateLimited_after g bucketId now m :
  MemoryRateLimitStore.globalLimit (DiscordRateLimitMiddleware.store m)
  = Some g →
  RateLimitInfo.resetAfter g < now →
  bucket_open bucketId now (DiscordRateLimitMiddleware.store m) →
  (DiscordRateLimitMiddleware.isRateLimited bucketId now m).1 = false.
Proof.
  intros Hg Hn Hopen. unfold DiscordRateLimitMiddleware.isRateLimited,
    MemoryRateLimitStore.getGlobalLimit. rewrite Hg.
  destruct (Z.gtb_spec now (RateLimitInfo.resetAfter g)); [|lia].
  pose proof (manager_isRateLimited_open bucketId now
                (MemoryRateLimitStore.with_globalLimit None
                   (DiscordRateLimitMiddleware.store m)) eq_refl Hopen) as E.
  destruct (BucketManager.isRateLimited bucketId now _) as [limited s2].
  by simpl in *.
Qed.

End GlobalLimit.

(** C3, as the code has it. On an orchestrator that has not been shut down,
    [handleRateLimit] with [global = true] and [resetAfter = T] at time
    [t0] stores the limit with the deadline [t0 + T]; from then on
    [isRateLimited] returns [true] for every bucket id, whatever the state
    of the bucket, at every instant before the deadline, and [false] at
    every instant after it when no limit of the bucket itself applies. *)
Theorem global_limit_blocks_until_deadline (info : RateLimitInfo.t)
    (t0 now : Z) (bucketId : string) (o : DiscordRateLimitOrchestrator.t) :
  DiscordRateLimitOrchestrator.isShutdown o = false →
  RateLimitInfo.global info = true →
  let o1 := DiscordRateLimitOrchestrator.handleRateLimit info t0 o in
  MemoryRateLimitStore.globalLimit (DiscordRateLimitOrchestrator.store o1)
  = Some (RateLimitInfo.with_resetAfter
            (t0 + RateLimitInfo.resetAfter info) info)
  ∧ (now < t0 + RateLimitInfo.resetAfter info →
     (DiscordRateLimitOrchestrator.isRateLimited bucketId now o1).1 = true)
  ∧ (t0 + RateLimitInfo.resetAfter info < now →
     bucket_open bucketId now (DiscordRateLimitOrchestrator.store o) →
     (DiscordRateLimitOrchestrator.isRateLimited bucketId now o1).1 = false).
Proof.
  intros Hlive Hglobal o1. unfold o1, DiscordRateLimitOrchestrator.handleRateLimit.
  rewrite Hlive, Hglobal. split; [done|]. split.
  - intros Hn. unfold DiscordRateLimitOrchestrator.isRateLimited.
    pose proof (middleware_isRateLimited_before _ bucketId now
                  (DiscordRateLimitOrchestrator.middleware
                     (DiscordRateLimitOrchestrator.with_store
                        (MemoryRateLimitStore.setGlobalLimit info t0
                           (DiscordRateLimitOrchestrator.store o)) o))
                  eq_refl Hn) as E.
    destruct (DiscordRateLimitMiddleware.isRateLimited bucketId now _)
      as [limited m]. done.
  - intros Hn Hopen. unfold DiscordRateLimitOrchestrator.isRateLimited.
    pose proof (middleware_isRateLimited_after _ bucketId now
                  (DiscordRateLimitOrchestrator.middleware
                     (DiscordRateLimitOrchestrator.with_store
                        (MemoryRateLimitStore.setGlobalLimit info t0
                           (DiscordRateLimitOrchestrator.store o)) o))
                  eq_refl Hn Hopen) as E.
    destruct (DiscordRateLimitMiddleware.isRateLimited bucketId now _)
      as [limited m]. done.
Qed.

(** C3 fails as stated: [handleRateLimit] returns at once on an
    orchestrator that has been shut down, so no bucket is limited
    afterwards. *)
Lemma global_limit_ignored_after_shutdown :
  ¬ global_limit_blocks_every_orchestrator.
Proof.
  intros H.
  specialize (H global_minute 1 2 "any" stopped_orchestrator eq_refl
                ltac:(simpl; lia)).
  vm_compute in H. discriminate.
Qed.

Lemma global_limit_blocks_until_deadline_witness :
  (DiscordRateLimitOrchestrator.isRateLimited "any" 59999
     (DiscordRateLimitOrchestrator.handleRateLimit global_minute 0
        live_orchestrator)).1 = true
  ∧ (DiscordRateLimitOrchestrator.isRateLimited "any" 60001
       (DiscordRateLimitOrchestrator.handleRateLimit global_minute 0
          live_orchestrator)).1 = false.
Proof.
  destruct (global_limit_blocks_until_deadline global_minute 0 59999 "any"
              live_orchestrator eq_refl eq_refl) as (_ & H1 & _).
  destruct (global_limit_blocks_until_deadline global_minute 0 60001 "any"
              live_orchestrator eq_refl eq_refl) as (_ & _ & H2).
  split.
  - apply H1. simpl. lia.
  - apply H2; [simpl; lia|]. exact I.
Defined.

Section RoundTrip.

Lemma with_bucketCount_same (m : RateLimitMetrics.t) :
  RateLimitMetrics.with_bucketCount (RateLimitMetrics.bucketCount m) m = m.
Proof. by destruct m. Qed.

Lemma import_export (s target : MemoryRateLimitStore.t) :
  MemoryRateLimitStore.importState (MemoryRateLimitStore.exportState s) target
  = MemoryRateLimitStore.sync_bucketCount
      {| MemoryRateLimitStore.buckets :=
           delete "__proto__" (MemoryRateLimitStore.buckets s);
         MemoryRateLimitStore.globalLimit := MemoryRateLimitStore.globalLimit s;
         MemoryRateLimitStore.metrics := MemoryRateLimitStore.metrics s;
         MemoryRateLimitStore.cleanupInterval :=
           MemoryRateLimitStore.cleanupInterval target;
         MemoryRateLimitStore.cleanupIntervalMs :=
           MemoryRateLimitStore.cleanupIntervalMs target |}.
Proof. done. Qed.

End RoundTrip.

(** C9, as the code has it. Importing what [exportState()] returned, into
    the store it came from or into any other, gives a store with the same
    global limit (or [null]) and with the same buckets, except a bucket
    stored under the id ["__proto__"], which the export loses; its metrics
    are the exported ones with [bucketCount] set to the size of the
    imported bucket map. So a store without such a bucket whose
    [bucketCount] was the size of its map is reproduced as it was. The
    same holds through the orchestrator when it is not shut down, whatever
    [getDetailedStats()] did to the store after the export was taken. *)
Theorem import_export_round_trip (s target : MemoryRateLimitStore.t) :
  let s' :=
    MemoryRateLimitStore.importState (MemoryRateLimitStore.exportState s)
      target in
  MemoryRateLimitStore.buckets s'
  = delete "__proto__" (MemoryRateLimitStore.buckets s)
  ∧ (∀ bucketId, bucketId ≠ "__proto__" →
       MemoryRateLimitStore.buckets s' !! bucketId
       = MemoryRateLimitStore.buckets s !! bucketId)
  ∧ MemoryRateLimitStore.buckets s' !! "__proto__" = None
  ∧ MemoryRateLimitStore.globalLimit s' = MemoryRateLimitStore.globalLimit s
  ∧ MemoryRateLimitStore.metrics s'
    = RateLimitMetrics.with_bucketCount
        (Z.of_nat (size (MemoryRateLimitStore.buckets s')))
        (MemoryRateLimitStore.metrics s)
  ∧ (MemoryRateLimitStore.buckets s !! "__proto__" = None →
     MemoryRateLimitStore.buckets s' = MemoryRateLimitStore.buckets s
     ∧ (RateLimitMetrics.bucketCount (MemoryRateLimitStore.metrics s)
        = Z.of_nat (size (MemoryRateLimitStore.buckets s)) →
        MemoryRateLimitStore.importState (MemoryRateLimitStore.exportState s) s
        = s))
  ∧ ∀ (o : DiscordRateLimitOrchestrator.t) getAllBucketStats now later,
      DiscordRateLimitOrchestrator.store o = s →
      DiscordRateLimitOrchestrator.isShutdown o = false →
      let '(state, o1) :=
        DiscordRateLimitOrchestrator.exportState getAllBucketStats now o in
      let '(error, o2) :=
        DiscordRateLimitOrchestrator.importState state later o1 in
      error = None
      ∧ MemoryRateLimitStore.buckets (DiscordRateLimitOrchestrator.store o2)
        = delete "__proto__" (MemoryRateLimitStore.buckets s)
      ∧ MemoryRateLimitStore.globalLimit (DiscordRateLimitOrchestrator.store o2)
        = MemoryRateLimitStore.globalLimit s
      ∧ MemoryRateLimitStore.metrics (DiscordRateLimitOrchestrator.store o2)
        = RateLimitMetrics.with_bucketCount
            (Z.of_nat (size (delete "__proto__"
                               (MemoryRateLimitStore.buckets s))))
            (MemoryRateLimitStore.metrics s).
Proof.
  intros s'. unfold s'. rewrite import_export.
  split; [done|]. split.
  { intros bucketId Hne.
    change (delete "__proto__" (MemoryRateLimitStore.buckets s) !! bucketId
            = MemoryRateLimitStore.buckets s !! bucketId).
    by apply lookup_delete_ne. }
  split.
  { change (delete "__proto__" (MemoryRateLimitStore.buckets s) !! "__proto__"
            = None).
    apply lookup_delete_eq. }
  split; [done|]. split; [done|]. split.
  - intros Hp.
    assert (delete "__proto__" (MemoryRateLimitStore.buckets s)
            = MemoryRateLimitStore.buckets s) as Hd by (by apply delete_id).
    split; [exact Hd|].
    intros Hc. rewrite import_export.
    unfold MemoryRateLimitStore.sync_bucketCount,
      MemoryRateLimitStore.bucket_size, MemoryRateLimitStore.with_metrics.
    cbn [MemoryRateLimitStore.buckets MemoryRateLimitStore.globalLimit
         MemoryRateLimitStore.metrics MemoryRateLimitStore.cleanupInterval
         MemoryRateLimitStore.cleanupIntervalMs].
    rewrite Hd, <- Hc, with_bucketCount_same. by destruct s.
  - intros o getAllBucketStats now later Hs Hlive.
    unfold DiscordRateLimitOrchestrator.exportState,
      DiscordRateLimitOrchestrator.importState.
    simpl. rewrite Hlive. simpl. by rewrite Hs.
Qed.

(** C9 fails as stated: a store whose [bucketCount] is not the size of
    its bucket map, as it is after [getBucket] has removed a bucket whose
    window had ended, comes back from the round trip with another
    [bucketCount], here 0 instead of 1. *)
Lemma round_trip_resets_a_stale_bucketCount :
  ¬ round_trip_reproduces_every_state.
Proof.
  intros H. destruct (H stale_store) as (_ & _ & Hm).
  apply (f_equal RateLimitMetrics.bucketCount) in Hm.
  vm_compute in Hm. discriminate.
Qed.

(** The round trip also loses a bucket stored under the id
    ["__proto__"]. *)
Lemma round_trip_loses_the_proto_bucket :
  MemoryRateLimitStore.buckets proto_store !! "__proto__"
  = Some (RateLimitBucket.with_lastUsed 100 old_bucket)
  ∧ MemoryRateLimitStore.buckets
      (MemoryRateLimitStore.importState
         (MemoryRateLimitStore.exportState proto_store) proto_store)
    !! "__proto__" = None.
Proof.
  split; [apply lookup_insert_eq|].
  rewrite import_export.
  change (delete "__proto__" (MemoryRateLimitStore.buckets proto_store)
          !! "__proto__" = None).
  apply lookup_delete_eq.
Qed.

Lemma import_export_round_trip_witness :
  let s := MemoryRateLimitStore.setBucket "b" old_bucket 100 empty_store in
  MemoryRateLimitStore.importState (MemoryRateLimitStore.exportState s) s = s.
Proof.
  intros s.
  destruct (import_export_round_trip s s) as (_ & _ & _ & _ & _ & H & _).
  destruct H as [_ H]; [reflexivity|].
  apply H. reflexivity.
Defined.

Section Admission.

Lemma lookup_alloc (st : PromiseState) (h : Heap) :
  alloc st h !! fresh h = Some st.
Proof.
  unfold alloc, fresh. rewrite lookup_app_r by done.
  by rewrite Nat.sub_diag.
Qed.

Lemma enqueue_promise request q h :
  (PriorityQueue.enqueue request q h).2 = length h
  ∧ ((PriorityQueue.enqueue request q h).1.2 !! length h
     = Some (Rejected PriorityQueue.queue_full)
     ∨ (PriorityQueue.enqueue request q h).1.2 !! length h
       = Some (Rejected (PriorityQueue.invalid_priority (priority request)))
     ∨ (PriorityQueue.enqueue request q h).1.2 !! length h = Some Pending).
Proof.
  unfold PriorityQueue.enqueue.
  destruct (PriorityQueue.totalSize q >=? PriorityQueue.maxSize q); simpl.
  - split; [done|]. left. apply lookup_alloc.
  - destruct (PriorityQueue.get (priority request) q); simpl.
    + split; [done|]. right. right. apply lookup_alloc.
    + split; [done|]. right. left. apply lookup_alloc.
Qed.

Lemma execute_error request now m h :
  match (DiscordRateLimitMiddleware.execute request now m h).1.1 with
  | Threw error => error = invalid_url
  | Queued p =>
      p = length h
      ∧ ∀ error,
          (DiscordRateLimitMiddleware.execute request now m h).2 !! p
          = Some (Rejected error) →
          error = PriorityQueue.queue_full
          ∨ ∃ n, error = PriorityQueue.invalid_priority n
  | Dispatched _ => True
  end.
Proof.
  unfold DiscordRateLimitMiddleware.execute.
  destruct (DiscordRateLimitMiddleware.extractBucketIdFromRequest request)
    as [bucket|]; [|done].
  destruct (DiscordRateLimitMiddleware.isRateLimited bucket now m)
    as [isLimited m1].
  assert (∀ q,
    let '(q', h', p) :=
      PriorityQueue.enqueue (set_bucketId (Some bucket) request) q h in
    p = length h
    ∧ ∀ error, h' !! p = Some (Rejected error) →
               error = PriorityQueue.queue_full
               ∨ ∃ n, error = PriorityQueue.invalid_priority n) as Hq.
  { intros q.
    pose proof (enqueue_promise (set_bucketId (Some bucket) request) q h)
      as [Hp Hs].
    destruct (PriorityQueue.enqueue _ q h) as [[q' h'] p]. simpl in *.
    subst p. split; [done|]. intros error He. rewrite He in Hs.
    destruct Hs as [Hs|[Hs|Hs]]; simplify_eq; eauto. }
  destruct isLimited.
  - specialize (Hq (DiscordRateLimitMiddleware.queue m1)).
    by destruct (PriorityQueue.enqueue _ _ h) as [[q' h'] p].
  - destruct (BucketManager.consumeRequest bucket now _) as [consumed s2].
    destruct consumed; [done|].
    match goal with
    | |- context [PriorityQueue.enqueue _ ?q h] => specialize (Hq q)
    end.
    by destruct (PriorityQueue.enqueue _ _ h) as [[q' h'] p].
Qed.

Lemma execute_limited request bucket now m h :
  DiscordRateLimitMiddleware.extractBucketIdFromRequest request = Some bucket →
  (DiscordRateLimitMiddleware.isRateLimited bucket now m).1 = true →
  (DiscordRateLimitMiddleware.execute request now m h).1.1 = Queued (length h).
Proof.
  intros Hb Hl. unfold DiscordRateLimitMiddleware.execute. rewrite Hb.
  destruct (DiscordRateLimitMiddleware.isRateLimited bucket now m)
    as [isLimited m1]. simpl in Hl. subst isLimited.
  pose proof (enqueue_promise (set_bucketId (Some bucket) request)
                (DiscordRateLimitMiddleware.queue m1) h) as [Hp _].
  destruct (PriorityQueue.enqueue _ _ h) as [[q' h'] p]. simpl in *.
  by subst.
Qed.

End Admission.

(** C7, as the code has it. [shutdown()] marks the orchestrator as shut
    down and a second call changes nothing; after it, every [enqueue] call
    throws the shutdown error and changes nothing. Before the transport is
    involved, [enqueue] fails only with the shutdown error, the queue-full
    error, the invalid-priority error, or the [TypeError] of a [url] that
    [new URL] refuses when the request names no bucket; a request that is
    rate limited is queued, and the promise of the queue is returned. *)
Theorem shutdown_is_terminal (now : Z) (o : DiscordRateLimitOrchestrator.t)
    (h : Heap) :
  let '(o1, h1) := DiscordRateLimitOrchestrator.shutdown now o h in
  DiscordRateLimitOrchestrator.isShutdown o1 = true
  ∧ (∀ later, DiscordRateLimitOrchestrator.shutdown later o1 h1 = (o1, h1))
  ∧ (∀ request later,
       DiscordRateLimitOrchestrator.enqueue request later o1 h1
       = (Threw DiscordRateLimitOrchestrator.shutdown_error, o1, h1))
  ∧ (∀ request later o' h' error,
       enqueue_error (DiscordRateLimitOrchestrator.enqueue request later o' h')
       = Some error →
       error = PriorityQueue.queue_full
       ∨ error = DiscordRateLimitOrchestrator.shutdown_error
       ∨ (∃ p, error = PriorityQueue.invalid_priority p)
       ∨ error = invalid_url)
  ∧ (∀ request later o' h' bucket,
       DiscordRateLimitOrchestrator.isShutdown o' = false →
       DiscordRateLimitMiddleware.extractBucketIdFromRequest
         (DiscordRateLimitOrchestrator.fill_defaults
            (DiscordRateLimitOrchestrator.config o') request) = Some bucket →
       (DiscordRateLimitMiddleware.isRateLimited bucket later
          (DiscordRateLimitOrchestrator.middleware o')).1 = true →
       (DiscordRateLimitOrchestrator.enqueue request later o' h').1.1
       = Queued (length h')).
Proof.
  assert (∀ o1 h1,
            DiscordRateLimitOrchestrator.isShutdown o1 = true →
            (∀ later,
               DiscordRateLimitOrchestrator.shutdown later o1 h1 = (o1, h1))
            ∧ (∀ request later,
                 DiscordRateLimitOrchestrator.enqueue request later o1 h1
                 = (Threw DiscordRateLimitOrchestrator.shutdown_error, o1, h1)))
    as Hdown.
  { intros o1 h1 Hs. split; intros.
    - unfold DiscordRateLimitOrchestrator.shutdown. by rewrite Hs.
    - unfold DiscordRateLimitOrchestrator.enqueue. by rewrite Hs. }
  assert (DiscordRateLimitOrchestrator.isShutdown
            (DiscordRateLimitOrchestrator.shutdown now o h).1 = true) as Hs.
  { unfold DiscordRateLimitOrchestrator.shutdown.
    by destruct (DiscordRateLimitOrchestrator.isShutdown o) eqn:E. }
  destruct (DiscordRateLimitOrchestrator.shutdown now o h) as [o1 h1].
  simpl in Hs. destruct (Hdown o1 h1 Hs) as [H1 H2].
  split; [done|]. split; [done|]. split; [done|]. split.
  - intros request later o' h' error.
    unfold enqueue_error, DiscordRateLimitOrchestrator.enqueue.
    destruct (DiscordRateLimitOrchestrator.isShutdown o').
    + simpl. intros [= <-]. auto.
    + pose proof (execute_error
                    (DiscordRateLimitOrchestrator.fill_defaults
                       (DiscordRateLimitOrchestrator.config o') request)
                    later (DiscordRateLimitOrchestrator.middleware o') h')
        as He.
      destruct (DiscordRateLimitMiddleware.execute _ later _ h')
        as [[a m] h2]. simpl in *.
      destruct a as [e|p|r]; [| |done].
      * intros [= <-]. auto.
      * destruct He as [-> He].
        destruct (h2 !! length h') as [[| |e]|]; try done.
        intros [= <-]. destruct (He e eq_refl) as [->|[n ->]]; eauto.
  - intros request later o' h' bucket Hlive Hb Hl.
    unfold DiscordRateLimitOrchestrator.enqueue. rewrite Hlive.
    pose proof (execute_limited _ bucket later _ h' Hb Hl) as E.
    destruct (DiscordRateLimitMiddleware.execute _ later _ h')
      as [[a m] h2]. done.
Qed.

(** C7 fails as stated: [enqueue] of a request whose [url] is not a URL
    and which names no bucket fails with the [TypeError] of [new URL]. *)
Lemma enqueue_fails_on_invalid_url : ¬ enqueue_fails_only_on_admission.
Proof.
  intros H.
  destruct (H request_without_url 1 live_orchestrator [] invalid_url eq_refl)
    as [E|[E|[p E]]]; discriminate.
Qed.

Lemma shutdown_is_terminal_witness :
  DiscordRateLimitOrchestrator.enqueue request_A 5 stopped_orchestrator []
  = (Threw DiscordRateLimitOrchestrator.shutdown_error,
     stopped_orchestrator, [])
  ∧ (DiscordRateLimitOrchestrator.enqueue request_A 5
       (DiscordRateLimitOrchestrator.handleRateLimit global_minute 0
          live_orchestrator) []).1.1 = Queued 0%nat.
Proof.
  pose proof (shutdown_is_terminal 0 live_orchestrator []) as H.
  change (DiscordRateLimitOrchestrator.shutdown 0 live_orchestrator [])
    with (stopped_orchestrator, @nil PromiseState) in H.
  destruct H as (_ & _ & H3 & _ & H5). split.
  - apply H3.
  - apply (H5 request_A 5 _ [] "bucket:/channels/\d+/messages:POST");
      reflexivity.
Defined.

Section Retry.

Lemma shouldRetry_plain error request :
  code error = None → plain_message error →
  DiscordRateLimitMiddleware.shouldRetry error request = false.
Proof.
  intros Hc (H1 & H2 & H3). unfold DiscordRateLimitMiddleware.shouldRetry.
  rewrite Hc, H1, H2, H3. simpl. by destruct (_ >=? _).
Qed.

(** A response with a 4xx status other than 429 whose error message has
    none of the texts [shouldRetry] looks for fails at once: the error is
    thrown, the request keeps its [retryCount], nothing is queued. *)
Lemma client_error_is_terminal request response now m h :
  400 <= status response < 500 → status response ≠ 429 →
  plain_message (DiscordRateLimitMiddleware.http_error response) →
  ∃ m',
    DiscordRateLimitMiddleware.executeRequest request (Responded response)
      now m h
    = (Throws (DiscordRateLimitMiddleware.http_error response), request, m', h)
    ∧ DiscordRateLimitMiddleware.queue m' = DiscordRateLimitMiddleware.queue m.
Proof.
  intros Hs Hn Hp. unfold DiscordRateLimitMiddleware.executeRequest.
  destruct (Z.eqb_spec (status response) 429); [done|].
  destruct (Z.leb_spec 200 (status response)); [|lia].
  destruct (Z.ltb_spec (status response) 300); [lia|]. simpl.
  unfold DiscordRateLimitMiddleware.executeRequest_catch.
  rewrite shouldRetry_plain by done.
  eexists. split; [done|].
  by destruct (extractBucketId (headers response)).
Qed.

Lemma includes_startsWith p s : startsWith p s = true → includes p s = true.
Proof. intros H. destruct s; simpl in *; by rewrite H. Qed.

Lemma startsWith_app p a b :
  startsWith p a = true → startsWith p (a +:+ b) = true.
Proof.
  revert a. induction p as [|c p IH]; intros [|d a] H; simpl in *; try done.
  change (String d a +:+ b) with (String d (a +:+ b)). simpl.
  destruct (Ascii.eqb c d); [by apply IH|done].
Qed.

Lemma includes_app p a b : includes p a = true → includes p (a +:+ b) = true.
Proof.
  induction a as [|d a IH]; intros H.
  - apply includes_startsWith, startsWith_app.
    simpl in H. by rewrite orb_false_r in H.
  - simpl in H. apply orb_true_iff in H as [H|H].
    + by apply includes_startsWith, startsWith_app.
    + change (String d a +:+ b) with (String d (a +:+ b)). simpl.
      rewrite (IH H). apply orb_true_r.
Qed.

Lemma server_error_message response :
  500 <= status response < 600 →
  startsWith "HTTP 5"
    (message (DiscordRateLimitMiddleware.http_error response)) = true.
Proof.
  intros Hs. unfold DiscordRateLimitMiddleware.http_error, mkError.
  cbn [message].
  assert (∃ k : nat, status response = 500 + Z.of_nat k ∧ (k < 100)%nat)
    as (k & -> & Hk).
  { exists (Z.to_nat (status response - 500)). lia. }
  destruct (data response) as [d|]; [destruct (truthy (data_message d))|];
    (do 100 (destruct k as [|k]; [reflexivity|])); lia.
Qed.

(** Network errors, timeouts and 5xx responses are retried while the
    request has retries left. *)
Lemma transient_errors_are_retried request m :
  retryCount request < maxRetries request →
  (∀ msg, DiscordRateLimitMiddleware.shouldRetry
            {| message := msg; code := Some "ECONNRESET" |} request = true)
  ∧ (∀ msg, DiscordRateLimitMiddleware.shouldRetry
              {| message := msg; code := Some "ETIMEDOUT" |} request = true)
  ∧ DiscordRateLimitMiddleware.shouldRetry
      (DiscordRateLimitMiddleware.timeout_error m) request = true
  ∧ (∀ response, 500 <= status response < 600 →
       DiscordRateLimitMiddleware.shouldRetry
         (DiscordRateLimitMiddleware.http_error response) request = true).
Proof.
  intros Hr. unfold DiscordRateLimitMiddleware.shouldRetry.
  destruct (Z.geb_spec (retryCount request) (maxRetries request)); [lia|].
  split; [done|]. split; [done|]. split.
  - unfold DiscordRateLimitMiddleware.timeout_error, mkError. cbn [message code].
    rewrite !bool_decide_eq_false_2 by done. cbn [orb].
    by rewrite (includes_app "timeout" "Request timeout after ").
  - intros response Hs.
    rewrite (includes_startsWith "HTTP 5" _ (server_error_message response Hs)).
    destruct (bool_decide _ || bool_decide _); [done|].
    by destruct (includes "timeout" _).
Qed.

End Retry.

(** C8 at its failing input: a 400 response whose body says
    "Invalid timeout value" is not surfaced; [shouldRetry] finds "timeout"
    in the error message, the request is queued again and its [retryCount]
    goes from 0 to 1. A 404 response with the body "Unknown Channel" is
    thrown at once and leaves [retryCount] at 0. *)
Theorem client_error_mentioning_timeout_is_retried :
  let m := DiscordRateLimitMiddleware.new empty_store in
  (let '(result, request, m', h') :=
     DiscordRateLimitMiddleware.executeRequest request_A
       (Responded bad_request_response) 5 m [] in
   result = Requeued 0
   ∧ retryCount request_A = 0 ∧ retryCount request = 1
   ∧ h' = [Pending]
   ∧ PriorityQueue.getTotalSize (DiscordRateLimitMiddleware.queue m') = 1)
  ∧ (let '(result, request, m', h') :=
       DiscordRateLimitMiddleware.executeRequest request_A
         (Responded not_found_response) 5 m [] in
     result = Throws (mkError "HTTP 404: Unknown Channel")
     ∧ retryCount request = 0 ∧ h' = []).
Proof. vm_compute. repeat split. Qed.

Section Forgotten.

Variable p : nat.

Implicit Types (q : PriorityQueue.t) (m : DiscordRateLimitMiddleware.t)
  (qs : list (list QueuedRequest)).

Lemma settle_other s st (h : Heap) :
  s ≠ PromiseFn p → settle s st h !! p = h !! p.
Proof.
  intros Hs. destruct s as [|p']; simpl; [done|].
  destruct (h !! p') as [[| |]|]; try done.
  apply list_lookup_insert_ne. congruence.
Qed.

Lemma alloc_other st (h : Heap) x :
  h !! p = Some x → alloc st h !! p = Some x.
Proof. intros H. unfold alloc. by apply lookup_app_l_Some. Qed.

Lemma fresh_other (h : Heap) x : h !! p = Some x → fresh h ≠ p.
Proof. intros H%lookup_lt_Some. unfold fresh. lia. Qed.

Lemma get_clean n q queue :
  Forall (Forall (clean p)) (PriorityQueue.queues q) →
  PriorityQueue.get n q = Some queue → Forall (clean p) queue.
Proof.
  intros Hq [_ Hg]%get_Some. by eapply (Forall_lookup_1 _ _ _ _ Hq).
Qed.

Lemma forgotten_enqueue request q (h : Heap) :
  h !! p = Some Pending →
  Forall (Forall (clean p)) (PriorityQueue.queues q) →
  (PriorityQueue.enqueue request q h).1.2 !! p = Some Pending
  ∧ Forall (Forall (clean p))
      (PriorityQueue.queues (PriorityQueue.enqueue request q h).1.1).
Proof.
  intros Hp Hq. unfold PriorityQueue.enqueue.
  destruct (PriorityQueue.totalSize q >=? PriorityQueue.maxSize q); simpl.
  { split; [by apply alloc_other|done]. }
  destruct (PriorityQueue.get (priority request) q) as [queue|] eqn:G; simpl.
  - split; [by apply alloc_other|].
    apply Forall_insert; [done|]. apply Forall_sort, Forall_app. split.
    + by eapply get_clean.
    + repeat constructor; simpl; by apply fresh_other in Hp; congruence.
  - split; [by apply alloc_other|done].
Qed.

Lemma forgotten_dequeue_loop ps q :
  Forall (Forall (clean p)) (PriorityQueue.queues q) →
  Forall (Forall (clean p))
    (PriorityQueue.queues (PriorityQueue.dequeue_loop ps q).2)
  ∧ ∀ r, (PriorityQueue.dequeue_loop ps q).1 = Some r → clean p r.
Proof.
  intros Hq. induction ps as [|n ps IH]; simpl; [done|].
  destruct (PriorityQueue.get n q) as [[|request rest]|] eqn:G; try done.
  pose proof (get_clean _ _ _ Hq G) as Hc. inversion Hc; subst. simpl. split.
  - by apply Forall_insert.
  - by intros r [= <-].
Qed.

Lemma forgotten_splice_loop {A} (I : A → Prop) test
    (act : QueuedRequest → A → A) queue r t a :
  (∀ x a, clean p x → I a → I (act x a)) →
  Forall (clean p) queue → I a →
  Forall (clean p) (PriorityQueue.splice_loop test act queue (r, t, a)).1
  ∧ I (PriorityQueue.splice_loop test act queue (r, t, a)).2.2.
Proof.
  intros Hact Hq Ha. unfold PriorityQueue.splice_loop.
  induction Hq as [|x queue Hx Hq IH]; simpl; [done|].
  destruct (foldr _ _ queue) as [kept [[r1 t1] a1]]. simpl in IH.
  destruct IH as [IH1 IH2]. destruct (test x); simpl; [auto|].
  split; [by constructor|done].
Qed.

Lemma forgotten_splice_queues {A} (I : A → Prop) guard test
    (act : QueuedRequest → A → A) key qs r t a :
  (∀ x a, clean p x → I a → I (act x a)) →
  Forall (Forall (clean p)) qs → I a →
  Forall (Forall (clean p))
    (PriorityQueue.splice_queues guard test act key qs (r, t, a)).1
  ∧ I (PriorityQueue.splice_queues guard test act key qs (r, t, a)).2.2.
Proof.
  intros Hact Hq. revert key r t a.
  induction Hq as [|queue qs Hqueue Hqs IH]; intros key r t a Ha; simpl;
    [done|].
  destruct (guard key).
  - pose proof (forgotten_splice_loop I test act queue r t a Hact Hqueue Ha)
      as [H1 H2].
    destruct (PriorityQueue.splice_loop test act queue (r, t, a))
      as [kept [[r1 t1] a1]]. simpl in *.
    specialize (IH (key + 1) r1 t1 a1 H2).
    destruct (PriorityQueue.splice_queues guard test act (key + 1) qs _)
      as [qs2 [[r2 t2] a2]]. simpl in *.
    destruct IH. split; [by constructor|done].
  - specialize (IH (key + 1) r t a Ha).
    destruct (PriorityQueue.splice_queues guard test act (key + 1) qs _)
      as [qs2 [[r2 t2] a2]]. simpl in *.
    destruct IH. split; [by constructor|done].
Qed.

Lemma forgotten_settle_reject st x (h : Heap) :
  clean p x → h !! p = Some Pending →
  settle (reject x) st h !! p = Some Pending.
Proof. intros [_ Hx] Hp. by rewrite settle_other. Qed.

Lemma forgotten_removeExpired timeoutMs now q (h : Heap) :
  h !! p = Some Pending →
  Forall (Forall (clean p)) (PriorityQueue.queues q) →
  (PriorityQueue.removeExpired timeoutMs now q h).1.2 !! p = Some Pending
  ∧ Forall (Forall (clean p))
      (PriorityQueue.queues (PriorityQueue.removeExpired timeoutMs now q h).1.1).
Proof.
  intros Hp Hq. unfold PriorityQueue.removeExpired.
  match goal with
  | |- context [PriorityQueue.splice_queues ?g ?t ?f ?k ?qs (?r, ?tt, ?h0)] =>
      pose proof (forgotten_splice_queues
                    (fun h : Heap => h !! p = Some Pending) g t f k qs r tt h0
                    (fun x hh => forgotten_settle_reject _ x hh) Hq Hp)
        as [H1 H2];
      destruct (PriorityQueue.splice_queues g t f k qs (r, tt, h0))
        as [qs1 [[r1 t1] h1]]
  end.
  done.
Qed.

Lemma forgotten_clearBucket bucket q (h : Heap) :
  h !! p = Some Pending →
  Forall (Forall (clean p)) (PriorityQueue.queues q) →
  (PriorityQueue.clearBucket bucket q h).1.2 !! p = Some Pending
  ∧ Forall (Forall (clean p))
      (PriorityQueue.queues (PriorityQueue.clearBucket bucket q h).1.1).
Proof.
  intros Hp Hq. unfold PriorityQueue.clearBucket.
  match goal with
  | |- context [PriorityQueue.splice_queues ?g ?t ?f ?k ?qs (?r, ?tt, ?h0)] =>
      pose proof (forgotten_splice_queues
                    (fun h : Heap => h !! p = Some Pending) g t f k qs r tt h0
                    (fun x hh => forgotten_settle_reject _ x hh) Hq Hp)
        as [H1 H2];
      destruct (PriorityQueue.splice_queues g t f k qs (r, tt, h0))
        as [qs1 [[r1 t1] h1]]
  end.
  done.
Qed.

Lemma forgotten_promoteRequests bucket newPriority q :
  Forall (Forall (clean p)) (PriorityQueue.queues q) →
  Forall (Forall (clean p))
    (PriorityQueue.queues
       (PriorityQueue.promoteRequests bucket newPriority q).1).
Proof.
  intros Hq. unfold PriorityQueue.promoteRequests.
  match goal with
  | |- context [PriorityQueue.splice_queues ?g ?t ?f ?k ?qs (?r, ?tt, ?l0)] =>
      pose proof (forgotten_splice_queues (Forall (clean p)) g t f k qs r tt l0)
        as H;
      destruct (PriorityQueue.splice_queues g t f k qs (r, tt, l0))
        as [qs1 [[r1 t1] moved]]
  end.
  simpl in H. destruct H as [H1 H2]; [|done|constructor|].
  { intros x a Hx Ha. apply Forall_app. split; [done|].
    constructor; [done|constructor]. }
  destruct (PriorityQueue.get newPriority _) as [targetQueue|] eqn:G;
    simpl; [|done].
  apply Forall_insert; [done|]. apply Forall_sort, Forall_app. split.
  - exact (get_clean newPriority (PriorityQueue.with_queues qs1 t1 q) _ H1 G).
  - apply Forall_fmap. eapply Forall_impl; [exact H2|]. by intros x [??].
Qed.

Lemma forgotten_clear q (h : Heap) :
  h !! p = Some Pending →
  Forall (Forall (clean p)) (PriorityQueue.queues q) →
  (PriorityQueue.clear q h).2 !! p = Some Pending
  ∧ Forall (Forall (clean p)) (PriorityQueue.queues (PriorityQueue.clear q h).1).
Proof.
  intros Hp Hq. simpl. split.
  - revert h Hp. induction Hq as [|queue qs Hqueue Hqs IH]; intros h Hp;
      simpl; [done|].
    apply IH. clear IH Hqs. revert h Hp.
    induction Hqueue as [|x queue Hx Hqueue IH]; intros h Hp; simpl; [done|].
    apply IH. by apply forgotten_settle_reject.
  - apply Forall_fmap, Forall_true. simpl. constructor.
Qed.

End Forgotten.

Section ForgottenByMiddleware.

Variable p : nat.

Implicit Types (m : DiscordRateLimitMiddleware.t) (h : Heap).

Lemma forgotten_same_queue m m' h :
  DiscordRateLimitMiddleware.queue m' = DiscordRateLimitMiddleware.queue m →
  forgotten p (m, h) → forgotten p (m', h).
Proof. unfold forgotten. simpl. by intros ->. Qed.

Lemma queue_isRateLimited bucket now m :
  DiscordRateLimitMiddleware.queue
    (DiscordRateLimitMiddleware.isRateLimited bucket now m).2
  = DiscordRateLimitMiddleware.queue m.
Proof.
  unfold DiscordRateLimitMiddleware.isRateLimited.
  destruct (MemoryRateLimitStore.getGlobalLimit now _) as [g s1].
  destruct (match g with Some _ => _ | None => _ end); [done|].
  by destruct (BucketManager.isRateLimited bucket now s1).
Qed.

Lemma queue_canExecuteRequest request now m :
  DiscordRateLimitMiddleware.queue
    (DiscordRateLimitMiddleware.canExecuteRequest request now m).2
  = DiscordRateLimitMiddleware.queue m.
Proof.
  unfold DiscordRateLimitMiddleware.canExecuteRequest.
  destruct (truthy (bucketId request)) as [b|]; [|done].
  pose proof (queue_isRateLimited b now m) as E.
  by destruct (DiscordRateLimitMiddleware.isRateLimited b now m).
Qed.

Lemma queue_handleRateLimitResponse request response now m :
  DiscordRateLimitMiddleware.queue
    (DiscordRateLimitMiddleware.handleRateLimitResponse request response now m)
  = DiscordRateLimitMiddleware.queue m.
Proof.
  unfold DiscordRateLimitMiddleware.handleRateLimitResponse.
  by destruct (truthy (bucketId request)).
Qed.

Lemma forgotten_middleware_enqueue request m h :
  forgotten p (m, h) →
  forgotten p
    (DiscordRateLimitMiddleware.with_queue
       (PriorityQueue.enqueue request (DiscordRateLimitMiddleware.queue m) h).1.1
       m,
     (PriorityQueue.enqueue request (DiscordRateLimitMiddleware.queue m) h).1.2).
Proof.
  intros [Hp Hq]. simpl in *.
  destruct (forgotten_enqueue p request _ h Hp Hq). by split.
Qed.

Lemma clean_enqueued request q h :
  h !! p = Some Pending → clean p request →
  clean p (PriorityQueue.enqueued request q h).
Proof.
  intros Hp Hc. unfold PriorityQueue.enqueued.
  destruct (_ >=? _); [done|].
  apply fresh_other in Hp. split; simpl; congruence.
Qed.

Lemma forgotten_retryRequest request m h :
  forgotten p (m, h) →
  forgotten p ((DiscordRateLimitMiddleware.retryRequest request m h).1.2,
               (DiscordRateLimitMiddleware.retryRequest request m h).2)
  ∧ (clean p request →
     clean p (DiscordRateLimitMiddleware.retryRequest request m h).1.1.2).
Proof.
  intros Hf. unfold DiscordRateLimitMiddleware.retryRequest.
  destruct (_ >? _); [done|].
  pose proof (forgotten_middleware_enqueue
                (set_retryCount (retryCount request + 1) request) m h Hf) as H.
  pose proof (clean_enqueued (set_retryCount (retryCount request + 1) request)
                (DiscordRateLimitMiddleware.queue m) h (proj1 Hf)) as Hc.
  destruct (PriorityQueue.enqueue _ _ h) as [[q' h'] p']. split; [done|].
  intros Hr. by apply Hc.
Qed.

Lemma forgotten_executeRequest_catch error request m h :
  forgotten p (m, h) →
  forgotten p
    ((DiscordRateLimitMiddleware.executeRequest_catch error request m h).1.2,
     (DiscordRateLimitMiddleware.executeRequest_catch error request m h).2)
  ∧ (clean p request →
     clean p (DiscordRateLimitMiddleware.executeRequest_catch
                error request m h).1.1.2).
Proof.
  intros Hf. unfold DiscordRateLimitMiddleware.executeRequest_catch.
  destruct (DiscordRateLimitMiddleware.shouldRetry error request); [|done].
  apply forgotten_retryRequest. by eapply forgotten_same_queue; [|exact Hf].
Qed.

Lemma forgotten_executeRequest request outcome now m h :
  forgotten p (m, h) →
  forgotten p
    ((DiscordRateLimitMiddleware.executeRequest request outcome now m h).1.2,
     (DiscordRateLimitMiddleware.executeRequest request outcome now m h).2)
  ∧ (clean p request →
     clean p (DiscordRateLimitMiddleware.executeRequest
                request outcome now m h).1.1.2).
Proof.
  intros Hf. unfold DiscordRateLimitMiddleware.executeRequest.
  destruct outcome as [response|error|].
  - set (m1 := match ex_bucket _ with Some _ => _ | None => _ end).
    assert (forgotten p (m1, h)) as Hf1.
    { eapply forgotten_same_queue; [|exact Hf]. unfold m1.
      by destruct (ex_bucket _). }
    clearbody m1. destruct (status response =? 429).
    + apply forgotten_retryRequest. eapply forgotten_same_queue; [|exact Hf1].
      apply queue_handleRateLimitResponse.
    + destruct (_ && _).
      * split; [|done]. by eapply forgotten_same_queue; [|exact Hf1].
      * apply forgotten_executeRequest_catch.
        by eapply forgotten_same_queue; [|exact Hf1].
  - by apply forgotten_executeRequest_catch.
  - by apply forgotten_executeRequest_catch.
Qed.

Lemma forgotten_execute request now m h :
  forgotten p (m, h) →
  forgotten p ((DiscordRateLimitMiddleware.execute request now m h).1.2,
               (DiscordRateLimitMiddleware.execute request now m h).2).
Proof.
  intros Hf. unfold DiscordRateLimitMiddleware.execute.
  destruct (DiscordRateLimitMiddleware.extractBucketIdFromRequest request)
    as [bucket|]; [|by eapply forgotten_same_queue; [|exact Hf]].
  pose proof (queue_isRateLimited bucket now m) as E.
  destruct (DiscordRateLimitMiddleware.isRateLimited bucket now m)
    as [isLimited m1]. simpl in E.
  assert (forgotten p (m1, h)) as Hf1
    by (by eapply forgotten_same_queue; [|exact Hf]).
  destruct isLimited.
  - pose proof (forgotten_middleware_enqueue
                  (set_bucketId (Some bucket) request) m1 h Hf1) as H.
    destruct (PriorityQueue.enqueue _ _ h) as [[q' h'] p']. simpl in *.
    by eapply forgotten_same_queue; [|exact H].
  - destruct (BucketManager.consumeRequest bucket now _) as [consumed s2].
    destruct consumed.
    + by eapply forgotten_same_queue; [|exact Hf1].
    + pose proof (forgotten_middleware_enqueue
                    (set_bucketId (Some bucket) request)
                    (DiscordRateLimitMiddleware.with_store s2 m1) h) as H.
      simpl in H. destruct (PriorityQueue.enqueue _ _ h) as [[q' h'] p'].
      simpl in *. eapply forgotten_same_queue; [|apply H]; [done|].
      by eapply forgotten_same_queue; [|exact Hf1].
Qed.

Lemma forgotten_processQueue_turn now m h :
  forgotten p (m, h) →
  forgotten p
    ((DiscordRateLimitMiddleware.processQueue_turn now m h).1.2,
     (DiscordRateLimitMiddleware.processQueue_turn now m h).2)
  ∧ ∀ request,
      (DiscordRateLimitMiddleware.processQueue_turn now m h).1.1
      = Some request →
      clean p request.
Proof.
  intros Hf. unfold DiscordRateLimitMiddleware.processQueue_turn.
  destruct (DiscordRateLimitMiddleware.processing m); simpl; [|done].
  destruct Hf as [Hp Hq]. simpl in Hp, Hq.
  pose proof (forgotten_dequeue_loop p PriorityQueue.tiers _ Hq) as [Hq' Hr].
  fold (PriorityQueue.dequeue (DiscordRateLimitMiddleware.queue m)) in *.
  destruct (PriorityQueue.dequeue (DiscordRateLimitMiddleware.queue m))
    as [[request|] q]; [|by split].
  simpl in Hq'. specialize (Hr request eq_refl).
  pose proof (queue_canExecuteRequest request now
                (DiscordRateLimitMiddleware.with_queue q m)) as E.
  destruct (DiscordRateLimitMiddleware.canExecuteRequest request now _)
    as [canExecute m1]. simpl in E.
  assert (forgotten p (m1, h)) as Hf1.
  { split; simpl; [done|]. by rewrite E. }
  destruct canExecute; simpl.
  - split; [done|]. by intros r [= <-].
  - pose proof (forgotten_middleware_enqueue request m1 h Hf1) as H.
    by destruct (PriorityQueue.enqueue _ _ h) as [[q' h'] p'].
Qed.

Lemma forgotten_processQueue_completion request outcome now m h :
  forgotten p (m, h) → clean p request →
  forgotten p
    (DiscordRateLimitMiddleware.processQueue_completion request outcome
       now m h).
Proof.
  intros Hf Hr. unfold DiscordRateLimitMiddleware.processQueue_completion.
  pose proof (forgotten_executeRequest request outcome now m h Hf)
    as ([Hp2 Hq2] & Hc).
  specialize (Hc Hr).
  destruct (DiscordRateLimitMiddleware.executeRequest request outcome now m h)
    as [[[result request'] m2] h2]. simpl in *.
  destruct Hc as [Hc1 Hc2].
  destruct result as [value|error|p'].
  - split; simpl; [|done]. by rewrite settle_other.
  - split; simpl; [|done]. by rewrite settle_other.
  - destruct (h2 !! p') as [[|value|error]|]; try by split.
    split; simpl; [|done]. by rewrite settle_other.
Qed.

Lemma Forall_clean_delete (i : nat) (flying : list QueuedRequest) :
  Forall (clean p) flying → Forall (clean p) (delete i flying).
Proof.
  intros H. revert i. induction H as [|x l Hx Hl IH]; intros [|i]; simpl;
    [done|done|done|]. constructor; [done|apply IH].
Qed.

Lemma forgotten_step st e :
  forgotten_in_run p st → forgotten_in_run p (middleware_step st e).
Proof.
  destruct st as [[m h] flying]. unfold forgotten_in_run. simpl.
  intros [Hf Hfly].
  destruct e as [request now|request outcome now|now|i outcome now
                |timeoutMs now|bucket|bucket newPriority|bucket info now
                |now| |]; simpl.
  - pose proof (forgotten_execute request now m h Hf) as H.
    by destruct (DiscordRateLimitMiddleware.execute request now m h) as [[??]?].
  - pose proof (forgotten_executeRequest request outcome now m h Hf) as [H _].
    by destruct (DiscordRateLimitMiddleware.executeRequest request outcome now m h)
      as [[[??]?]?].
  - pose proof (forgotten_processQueue_turn now m h Hf) as [H1 H2].
    destruct (DiscordRateLimitMiddleware.processQueue_turn now m h)
      as [[dispatched m'] h']. simpl in *. split; [done|].
    apply Forall_app. split; [done|].
    destruct dispatched as [request|]; simpl; [|constructor].
    constructor; [by apply H2|constructor].
  - destruct (flying !! i) as [request|] eqn:E; simpl; [|done].
    pose proof (forgotten_processQueue_completion request outcome now m h Hf
                  (Forall_lookup_1 _ _ _ _ Hfly E)) as H.
    destruct (DiscordRateLimitMiddleware.processQueue_completion _ _ _ _ _)
      as [m' h']. simpl. split; [done|]. by apply Forall_clean_delete.
  - destruct Hf as [Hp Hq]. simpl in *.
    pose proof (forgotten_removeExpired p timeoutMs now _ h Hp Hq) as [H1 H2].
    by destruct (PriorityQueue.removeExpired timeoutMs now _ h) as [[??]?].
  - destruct Hf as [Hp Hq]. simpl in *.
    pose proof (forgotten_clearBucket p bucket _ h Hp Hq) as [H1 H2].
    by destruct (PriorityQueue.clearBucket bucket _ h) as [[??]?].
  - destruct Hf as [Hp Hq]. split; [|done]. split; simpl in *; [done|].
    by apply forgotten_promoteRequests.
  - done.
  - done.
  - destruct Hf as [Hp Hq]. simpl in *.
    destruct (forgotten_clear p _ h Hp Hq) as [H1 H2]. by split.
  - done.
Qed.

Lemma forgotten_run events st :
  forgotten_in_run p st → forgotten_in_run p (middleware_run events st).
Proof.
  revert st. induction events as [|e events IH]; intros st Hf; [done|].
  simpl. by apply IH, forgotten_step.
Qed.

End ForgottenByMiddleware.

(** C5 at its failing input. A request is queued while a global limit
    holds, and its caller gets promise 0. The queue loop takes the request
    out while the limit still holds and calls [enqueue] again: the request
    now carries the settling functions of promise 1, and nothing holds
    those of promise 0. Whatever happens afterwards (calls of [execute],
    completions, turns of the loop, the ends of the transport calls the
    loop started, [removeExpired], [clearBucket], [promoteRequests],
    [updateBucket], sweeps of the store, [clearQueue], [stop]), promise 0
    stays pending. *)
Theorem requeued_request_forgets_its_promise (events : list event) :
  let '(admission, m1, h1) :=
    DiscordRateLimitMiddleware.execute request_A 1 limited_middleware [] in
  let '(dispatched, m2, h2) :=
    DiscordRateLimitMiddleware.processQueue_turn 2 m1 h1 in
  admission = Queued 0
  ∧ h1 = [Pending]
  ∧ dispatched = None
  ∧ map (map resolve)
      (PriorityQueue.queues (DiscordRateLimitMiddleware.queue m2))
    = [[]; []; [PromiseFn 1]; []; []]
  ∧ h2 = [Pending; Pending]
  ∧ (middleware_run events (m2, h2, [])).1.2 !! 0%nat = Some Pending.
Proof.
  destruct (DiscordRateLimitMiddleware.execute request_A 1 limited_middleware [])
    as [[admission m1] h1] eqn:E1.
  vm_compute in E1. injection E1 as <- <- <-.
  match goal with
  | |- context [DiscordRateLimitMiddleware.processQueue_turn ?n ?m ?h] =>
      destruct (DiscordRateLimitMiddleware.processQueue_turn n m h)
        as [[dispatched m2] h2] eqn:E2
  end.
  vm_compute in E2. injection E2 as <- <- <-.
  split; [done|]. split; [done|]. split; [done|]. split; [done|].
  split; [done|].
  apply forgotten_run. split; [|constructor]. split; [done|]. simpl.
  repeat constructor; simpl; discriminate.
Qed.

Section Splicing.

Implicit Types (q : PriorityQueue.t) (qs : list (list QueuedRequest))
  (h : Heap).

Lemma foldl_rev_foldr {A} (act : QueuedRequest → A → A) a l :
  foldl (fun a x => act x a) a (rev l) = foldr act a l.
Proof.
  revert a. induction l as [|x l IH]; intros a; simpl; [done|].
  by rewrite foldl_app, IH.
Qed.

Lemma spliced_state_eq {A B} (k : B) (r1 t1 r2 t2 : Z) (a : A) :
  r1 = r2 → t1 = t2 → (k, (r1, t1, a)) = (k, (r2, t2, a)).
Proof. by intros -> ->. Qed.

Lemma splice_loop_eq {A} test (act : QueuedRequest → A → A) queue r t a :
  PriorityQueue.splice_loop test act queue (r, t, a)
  = (List.filter (fun x => negb (test x)) queue,
     (r + Z.of_nat (length (List.filter test queue)),
      t - Z.of_nat (length (List.filter test queue)),
      foldr act a (List.filter test queue))).
Proof.
  unfold PriorityQueue.splice_loop.
  induction queue as [|x queue IH]; simpl.
  - apply spliced_state_eq; lia.
  - rewrite IH. destruct (test x); simpl; apply spliced_state_eq; lia.
Qed.

Lemma splice_queues_eq {A} guard test (act : QueuedRequest → A → A)
    key qs r t a :
  PriorityQueue.splice_queues guard test act key qs (r, t, a)
  = (unspliced guard test key qs,
     (r + Z.of_nat (length (spliced guard test key qs)),
      t - Z.of_nat (length (spliced guard test key qs)),
      foldl (fun a x => act x a) a (spliced guard test key qs))).
Proof.
  revert key r t a. induction qs as [|queue qs IH]; intros key r t a; simpl.
  - apply spliced_state_eq; lia.
  - destruct (guard key).
    + rewrite splice_loop_eq, IH. rewrite foldl_app, foldl_rev_foldr.
      rewrite length_app, length_rev. apply spliced_state_eq; lia.
    + rewrite IH. simpl. done.
Qed.

Lemma unspliced_all test key qs :
  unspliced (fun _ => true) test key qs
  = map (List.filter (fun r => negb (test r))) qs.
Proof.
  revert key. induction qs as [|queue qs IH]; intros key; simpl; [done|].
  by rewrite IH.
Qed.

Lemma elem_of_list_filter_bool {A} (f : A → bool) (l : list A) x :
  x ∈ List.filter f l ↔ x ∈ l ∧ f x = true.
Proof. rewrite !list_elem_of_In. apply List.filter_In. Qed.

Lemma elem_of_rev {A} (l : list A) x : x ∈ rev l ↔ x ∈ l.
Proof. rewrite !list_elem_of_In. symmetry. apply in_rev. Qed.

Lemma elem_of_spliced_all test key qs x :
  x ∈ spliced (fun _ => true) test key qs
  ↔ ∃ queue, queue ∈ qs ∧ x ∈ queue ∧ test x = true.
Proof.
  revert key. induction qs as [|queue qs IH]; intros key; simpl.
  - split; [by intros ?%elem_of_nil|]. by intros (? & ?%elem_of_nil & _).
  - rewrite elem_of_app, elem_of_rev, elem_of_list_filter_bool, IH. split.
    + intros [[??]|(queue' & ? & ? & ?)].
      * exists queue. split; [left|done].
      * exists queue'. split; [by right|done].
    + intros (queue' & [->|?]%elem_of_cons & ? & ?); [by left|].
      right. by exists queue'.
Qed.

Lemma stored_spliced guard test key qs :
  stored qs
  = stored (unspliced guard test key qs)
    + Z.of_nat (length (spliced guard test key qs)).
Proof.
  revert key. induction qs as [|queue qs IH]; intros key; simpl; [done|].
  rewrite !stored_cons, (IH (key + 1)), length_app.
  destruct (guard key); simpl.
  - rewrite length_rev. pose proof (length_filter_split test queue). lia.
  - lia.
Qed.

Lemma settle_settled s st h p (e : JsError) :
  h !! p = Some (Rejected e) → settle s st h !! p = Some (Rejected e).
Proof.
  intros Hp. destruct s as [|p']; simpl; [done|].
  destruct (h !! p') as [[| |]|] eqn:E; try done.
  destruct (decide (p' = p)) as [->|]; [congruence|].
  by rewrite list_lookup_insert_ne.
Qed.

Lemma settle_pending st h p :
  h !! p = Some Pending → settle (PromiseFn p) st h !! p = Some st.
Proof.
  intros Hp. simpl. rewrite Hp. apply list_lookup_insert_eq.
  by eapply lookup_lt_Some.
Qed.

Lemma settle_unrelated s st h p :
  s ≠ PromiseFn p → settle s st h !! p = h !! p.
Proof.
  intros Hs. destruct s as [|p']; simpl; [done|].
  destruct (h !! p') as [[| |]|]; try done.
  apply list_lookup_insert_ne. congruence.
Qed.

Lemma length_settle s st h : length (settle s st h) = length h.
Proof.
  destruct s as [|p']; simpl; [done|].
  destruct (h !! p') as [[| |]|]; try done. apply length_insert.
Qed.

Lemma reject_all_settled e e' l h p :
  h !! p = Some (Rejected e) → reject_all e' l h !! p = Some (Rejected e).
Proof.
  unfold reject_all. revert h. induction l as [|x l IH]; intros h Hp; simpl;
    [done|]. by apply IH, settle_settled.
Qed.

Lemma reject_all_rejects e l h p x :
  x ∈ l → reject x = PromiseFn p → h !! p = Some Pending →
  reject_all e l h !! p = Some (Rejected e).
Proof.
  unfold reject_all. revert h. induction l as [|y l IH]; intros h Hx Hr Hp.
  - by apply elem_of_nil in Hx.
  - simpl.
    assert (reject y = PromiseFn p ∨ reject y ≠ PromiseFn p) as [Hy|Hy].
    { destruct (reject y) as [|p']; [by right|].
      destruct (decide (p' = p)) as [->|]; [by left|right; congruence]. }
    + apply (reject_all_settled e). rewrite Hy. by apply settle_pending.
    + apply elem_of_cons in Hx as [->|Hx]; [done|].
      apply IH; [done..|]. by rewrite settle_unrelated.
Qed.

Lemma reject_all_unrelated e l h p :
  (∀ x, x ∈ l → reject x ≠ PromiseFn p) →
  reject_all e l h !! p = h !! p.
Proof.
  unfold reject_all. revert h. induction l as [|y l IH]; intros h Hl; simpl;
    [done|].
  rewrite IH.
  - apply settle_unrelated, Hl. by left.
  - intros x Hx. apply Hl. by right.
Qed.

Lemma length_reject_all e l h : length (reject_all e l h) = length h.
Proof.
  unfold reject_all. revert h. induction l as [|y l IH]; intros h; simpl;
    [done|]. by rewrite IH, length_settle.
Qed.

Lemma removeExpired_eq timeoutMs now q h :
  PriorityQueue.removeExpired timeoutMs now q h
  = (PriorityQueue.with_queues
       (map (List.filter (fun r => negb (expired_in_queue timeoutMs now r)))
            (PriorityQueue.queues q))
       (PriorityQueue.totalSize q
        - Z.of_nat (length (spliced (fun _ => true)
                              (expired_in_queue timeoutMs now) 0
                              (PriorityQueue.queues q)))) q,
     reject_all PriorityQueue.timed_out
       (spliced (fun _ => true) (expired_in_queue timeoutMs now) 0
          (PriorityQueue.queues q)) h,
     Z.of_nat (length (spliced (fun _ => true)
                         (expired_in_queue timeoutMs now) 0
                         (PriorityQueue.queues q)))).
Proof.
  unfold PriorityQueue.removeExpired.
  change (fun request => now - timestamp request >? timeoutMs)
    with (expired_in_queue timeoutMs now).
  rewrite splice_queues_eq, unspliced_all. done.
Qed.

Lemma clearBucket_eq bucket q h :
  PriorityQueue.clearBucket bucket q h
  = (PriorityQueue.with_queues
       (map (List.filter (fun r => negb (PriorityQueue.in_bucket bucket r)))
            (PriorityQueue.queues q))
       (PriorityQueue.totalSize q
        - Z.of_nat (length (spliced (fun _ => true)
                              (PriorityQueue.in_bucket bucket) 0
                              (PriorityQueue.queues q)))) q,
     reject_all (PriorityQueue.bucket_limited bucket)
       (spliced (fun _ => true) (PriorityQueue.in_bucket bucket) 0
          (PriorityQueue.queues q)) h,
     Z.of_nat (length (spliced (fun _ => true)
                         (PriorityQueue.in_bucket bucket) 0
                         (PriorityQueue.queues q)))).
Proof.
  unfold PriorityQueue.clearBucket.
  rewrite splice_queues_eq, unspliced_all. done.
Qed.

Lemma clear_heap q h :
  (PriorityQueue.clear q h).2
  = reject_all PriorityQueue.queue_cleared (concat (PriorityQueue.queues q)) h.
Proof.
  simpl. unfold reject_all. generalize (PriorityQueue.queues q). intros qs.
  revert h. induction qs as [|queue qs IH]; intros h; simpl; [done|].
  by rewrite foldl_app, IH.
Qed.

End Splicing.

Section Eviction.

Lemma filter_as_list_filter {A} (f : A → bool) (l : list A) :
  filter (fun x => f x = true) l = List.filter f l.
Proof.
  induction l as [|x l IH]; [done|]. rewrite filter_cons. simpl.
  destruct (f x) eqn:E; case_decide; try done; by rewrite IH.
Qed.

Lemma length_spliced_all test key qs :
  length (spliced (fun _ => true) test key qs)
  = length (concat (map (List.filter test) qs)).
Proof.
  revert key. induction qs as [|queue qs IH]; intros key; simpl; [done|].
  by rewrite !length_app, length_rev, IH.
Qed.

Lemma filter_negb_filter {A} (f : A → bool) (l : list A) :
  List.filter f (List.filter (fun x => negb (f x)) l) = [].
Proof.
  induction l as [|x l IH]; simpl; [done|].
  destruct (f x) eqn:E; simpl; [done|]. by rewrite E.
Qed.

Lemma elem_of_concat {A} (qs : list (list A)) x :
  x ∈ concat qs ↔ ∃ queue, queue ∈ qs ∧ x ∈ queue.
Proof.
  rewrite list_elem_of_In, in_concat. split.
  - intros (queue & ?%list_elem_of_In & ?%list_elem_of_In). eauto.
  - intros (queue & ?%list_elem_of_In & ?%list_elem_of_In). eauto.
Qed.

End Eviction.

(** X1. [removeExpired(timeoutMs)] takes out of every tier exactly the
    requests with [now - timestamp > timeoutMs] and keeps the others in
    their order; it returns the number taken out and lowers [totalSize] by
    it. The pending promise of every request taken out is rejected with
    "Request timed out in queue"; a promise that belongs to no such
    request is left as it was. *)
Theorem removeExpired_evicts_and_rejects (timeoutMs now : Z)
    (q : PriorityQueue.t) (h : Heap) :
  let '(q', h', removed) := PriorityQueue.removeExpired timeoutMs now q h in
  PriorityQueue.queues q'
  = map (List.filter (fun r => negb (expired_in_queue timeoutMs now r)))
        (PriorityQueue.queues q)
  ∧ removed = stored (PriorityQueue.queues q) - stored (PriorityQueue.queues q')
  ∧ PriorityQueue.getTotalSize q' = PriorityQueue.getTotalSize q - removed
  ∧ length h' = length h
  ∧ (∀ queue x p,
       queue ∈ PriorityQueue.queues q → x ∈ queue →
       expired_in_queue timeoutMs now x = true →
       reject x = PromiseFn p → h !! p = Some Pending →
       h' !! p = Some (Rejected (mkError "Request timed out in queue")))
  ∧ (∀ p,
       (∀ queue x,
          queue ∈ PriorityQueue.queues q → x ∈ queue →
          expired_in_queue timeoutMs now x = true → reject x ≠ PromiseFn p) →
       h' !! p = h !! p).
Proof.
  rewrite removeExpired_eq. simpl.
  split; [done|]. split.
  { rewrite (stored_spliced (fun _ => true) (expired_in_queue timeoutMs now) 0
               (PriorityQueue.queues q)), unspliced_all. lia. }
  split; [done|]. split; [apply length_reject_all|]. split.
  - intros queue x p Hq Hx He Hr Hp.
    eapply reject_all_rejects; [|exact Hr|exact Hp].
    apply elem_of_spliced_all. eauto.
  - intros p Hp. apply reject_all_unrelated.
    intros x (queue & ? & ? & ?)%elem_of_spliced_all. eauto.
Qed.

Lemma removeExpired_evicts_and_rejects_witness :
  (PriorityQueue.removeExpired 32 40 three_queued.1 three_queued.2).1.2
  !! 1%nat = Some (Rejected (mkError "Request timed out in queue")).
Proof.
  pose proof (removeExpired_evicts_and_rejects 32 40
                three_queued.1 three_queued.2) as H.
  destruct (PriorityQueue.removeExpired 32 40 three_queued.1 three_queued.2)
    as [[q' h'] removed].
  destruct H as (_ & _ & _ & _ & H & _).
  apply (H [set_settlers (PromiseFn 1) request_B;
            set_settlers (PromiseFn 0) request_A]
           (set_settlers (PromiseFn 1) request_B) 1%nat);
    try reflexivity.
  - apply list_elem_of_In. simpl. auto.
  - apply list_elem_of_In. simpl. auto.
Defined.

(** X2. [clearBucket(bucketId)] takes out of every tier exactly the
    requests of that bucket, returns their number, which is the number
    [getRequestsByBucket(bucketId)] listed before, and lowers [totalSize]
    by it; afterwards [getRequestsByBucket(bucketId)] is empty. The pending
    promise of every request taken out is rejected; a promise that belongs
    to no request of the bucket is left as it was. *)
Theorem clearBucket_removes_the_bucket (bucket : string)
    (q : PriorityQueue.t) (h : Heap) :
  let '(q', h', cleared) := PriorityQueue.clearBucket bucket q h in
  PriorityQueue.queues q'
  = map (List.filter (fun r => negb (PriorityQueue.in_bucket bucket r)))
        (PriorityQueue.queues q)
  ∧ cleared = Z.of_nat (length (PriorityQueue.getRequestsByBucket bucket q))
  ∧ PriorityQueue.getTotalSize q' = PriorityQueue.getTotalSize q - cleared
  ∧ PriorityQueue.getRequestsByBucket bucket q' = []
  ∧ (∀ queue x p,
       queue ∈ PriorityQueue.queues q → x ∈ queue →
       bucketId x = Some bucket →
       reject x = PromiseFn p → h !! p = Some Pending →
       h' !! p
       = Some (Rejected (mkError ("Bucket " +:+ bucket +:+ " rate limited"))))
  ∧ (∀ p,
       (∀ queue x,
          queue ∈ PriorityQueue.queues q → x ∈ queue →
          bucketId x = Some bucket → reject x ≠ PromiseFn p) →
       h' !! p = h !! p).
Proof.
  rewrite clearBucket_eq. simpl.
  split; [done|]. split.
  { rewrite length_spliced_all. unfold PriorityQueue.getRequestsByBucket.
    do 3 f_equal. apply map_ext. intros queue.
    symmetry. apply filter_as_list_filter. }
  split; [done|]. split.
  { unfold PriorityQueue.getRequestsByBucket. simpl.
    induction (PriorityQueue.queues q) as [|queue qs IH]; simpl; [done|].
    rewrite IH, app_nil_r, filter_as_list_filter.
    apply filter_negb_filter. }
  split.
  - intros queue x p Hq Hx Hb Hr Hp.
    eapply reject_all_rejects; [|exact Hr|exact Hp].
    apply elem_of_spliced_all. exists queue. repeat split; [done..|].
    unfold PriorityQueue.in_bucket. by apply bool_decide_eq_true.
  - intros p Hp. apply reject_all_unrelated.
    intros x (queue & ? & ? & Hb)%elem_of_spliced_all.
    apply bool_decide_eq_true in Hb. eauto.
Qed.

Lemma clearBucket_removes_the_bucket_witness :
  (PriorityQueue.clearBucket "x" three_queued.1 three_queued.2).1.2
  !! 2%nat = Some (Rejected (mkError "Bucket x rate limited")).
Proof.
  pose proof (clearBucket_removes_the_bucket "x"
                three_queued.1 three_queued.2) as H.
  destruct (PriorityQueue.clearBucket "x" three_queued.1 three_queued.2)
    as [[q' h'] cleared].
  destruct H as (_ & _ & _ & _ & H & _).
  apply (H [set_settlers (PromiseFn 2) request_X]
           (set_settlers (PromiseFn 2) request_X) 2%nat);
    try reflexivity.
  - apply list_elem_of_In. simpl. auto.
  - apply list_elem_of_In. simpl. auto.
Defined.

(** X3. [clear()] empties every tier and sets [totalSize] to 0; the
    pending promise of every request that was queued is rejected with
    "Queue cleared", and a promise that belongs to no queued request is
    left as it was. *)
Theorem clear_rejects_everything (q : PriorityQueue.t) (h : Heap) :
  let '(q', h') := PriorityQueue.clear q h in
  PriorityQueue.getTotalSize q' = 0
  ∧ (∀ p, PriorityQueue.getQueueSize p q' = 0)
  ∧ PriorityQueue.dequeue q' = (None, q')
  ∧ length h' = length h
  ∧ (∀ queue x p,
       queue ∈ PriorityQueue.queues q → x ∈ queue →
       reject x = PromiseFn p → h !! p = Some Pending →
       h' !! p = Some (Rejected (mkError "Queue cleared")))
  ∧ (∀ p,
       (∀ queue x,
          queue ∈ PriorityQueue.queues q → x ∈ queue →
          reject x ≠ PromiseFn p) →
       h' !! p = h !! p).
Proof.
  pose proof (clear_heap q h) as Hh.
  destruct (PriorityQueue.clear q h) as [q' h'] eqn:E.
  injection E as <- Eh. simpl in Hh. subst h'.
  assert (∀ p, PriorityQueue.get p
                 (PriorityQueue.with_queues
                    (map (fun _ => []) (PriorityQueue.queues q)) 0 q)
               = None
               ∨ PriorityQueue.get p
                   (PriorityQueue.with_queues
                      (map (fun _ => []) (PriorityQueue.queues q)) 0 q)
                 = Some []) as Hget.
  { intros p. unfold PriorityQueue.get. simpl.
    destruct (0 <=? p); [|by left].
    rewrite list_lookup_fmap.
    destruct (PriorityQueue.queues q !! Z.to_nat p); [by right|by left]. }
  split; [done|]. split.
  { intros p. unfold PriorityQueue.getQueueSize.
    by destruct (Hget p) as [-> | ->]. }
  split.
  { unfold PriorityQueue.dequeue.
    induction PriorityQueue.tiers as [|p ps IH]; simpl; [done|].
    by destruct (Hget p) as [-> | ->]. }
  split; [rewrite Hh; apply length_reject_all|]. split.
  - intros queue x p Hq Hx Hr Hp. rewrite Hh.
    eapply reject_all_rejects; [|exact Hr|exact Hp].
    apply elem_of_concat. eauto.
  - intros p Hp. rewrite Hh. apply reject_all_unrelated.
    intros x (queue & ? & ?)%elem_of_concat. eauto.
Qed.

Lemma clear_rejects_everything_witness :
  (PriorityQueue.clear three_queued.1 three_queued.2).2 !! 0%nat
  = Some (Rejected (mkError "Queue cleared")).
Proof.
  pose proof (clear_rejects_everything three_queued.1 three_queued.2) as H.
  destruct (PriorityQueue.clear three_queued.1 three_queued.2) as [q' h'].
  destruct H as (_ & _ & _ & _ & H & _).
  apply (H [set_settlers (PromiseFn 1) request_B;
            set_settlers (PromiseFn 0) request_A]
           (set_settlers (PromiseFn 0) request_A) 0%nat);
    try reflexivity.
  - apply list_elem_of_In. simpl. auto.
  - apply list_elem_of_In. simpl. auto.
Defined.

Section Promotion.

Implicit Types (q : PriorityQueue.t) (qs : list (list QueuedRequest)).

Lemma foldl_snoc {A} (a l : list A) :
  foldl (fun moved removed => moved ++ [removed]) a l = a ++ l.
Proof.
  revert a. induction l as [|x l IH]; intros a; simpl.
  - by rewrite app_nil_r.
  - by rewrite IH, <- app_assoc.
Qed.

Lemma unspliced_lookup guard test key qs (i : nat) :
  unspliced guard test key qs !! i
  = (fun queue =>
       if guard (key + Z.of_nat i)
       then List.filter (fun r => negb (test r)) queue else queue)
    <$> qs !! i.
Proof.
  revert key i. induction qs as [|queue qs IH]; intros key [|i]; simpl;
    try done.
  - by rewrite Z.add_0_r.
  - rewrite IH. by replace (key + 1 + Z.of_nat i) with (key + Z.pos (Pos.of_succ_nat i)) by lia.
Qed.

Lemma elem_of_spliced guard test key qs x :
  x ∈ spliced guard test key qs
  ↔ ∃ (i : nat) queue,
      qs !! i = Some queue ∧ guard (key + Z.of_nat i) = true
      ∧ x ∈ queue ∧ test x = true.
Proof.
  revert key. induction qs as [|queue qs IH]; intros key; simpl.
  - split; [by intros ?%elem_of_nil|]. by intros (? & ? & ? & _).
  - rewrite elem_of_app, IH. split.
    + intros [Hx|(i & queue' & Hi & Hg & Hx & Ht)].
      * destruct (guard key) eqn:E; [|by apply elem_of_nil in Hx].
        apply elem_of_rev, elem_of_list_filter_bool in Hx as [??].
        exists 0%nat, queue. by rewrite Z.add_0_r.
      * exists (S i), queue'. split; [done|]. split; [|done].
        by replace (key + Z.of_nat (S i)) with (key + 1 + Z.of_nat i) by lia.
    + intros ([|i] & queue' & Hi & Hg & Hx & Ht); simpl in Hi.
      * simplify_eq. rewrite Z.add_0_r in Hg. rewrite Hg. left.
        by apply elem_of_rev, elem_of_list_filter_bool.
      * right. exists i, queue'. split; [done|]. split; [|done].
        by replace (key + 1 + Z.of_nat i) with (key + Z.of_nat (S i)) by lia.
Qed.

Lemma promoteRequests_eq bucket newPriority q :
  PriorityQueue.promoteRequests bucket newPriority q
  = let moved :=
      spliced (fun key => key >? newPriority) (PriorityQueue.in_bucket bucket)
        0 (PriorityQueue.queues q) in
    let qs :=
      unspliced (fun key => key >? newPriority)
        (PriorityQueue.in_bucket bucket) 0 (PriorityQueue.queues q) in
    let total := PriorityQueue.totalSize q - Z.of_nat (length moved) in
    match PriorityQueue.get newPriority (PriorityQueue.with_queues qs total q)
    with
    | Some targetQueue =>
        (PriorityQueue.with_queues
           (<[Z.to_nat newPriority :=
                PriorityQueue.sort
                  (targetQueue ++ map (set_priority newPriority) moved)]> qs)
           (total + Z.of_nat (length moved)) q,
         Z.of_nat (length moved))
    | None => (PriorityQueue.with_queues qs total q, 0)
    end.
Proof.
  unfold PriorityQueue.promoteRequests.
  rewrite splice_queues_eq, foldl_snoc. done.
Qed.

Lemma unspliced_none guard test key qs :
  (∀ i : nat, (i < length qs)%nat → guard (key + Z.of_nat i) = false) →
  unspliced guard test key qs = qs ∧ spliced guard test key qs = [].
Proof.
  revert key. induction qs as [|queue qs IH]; intros key Hg; simpl; [done|].
  pose proof (Hg 0%nat ltac:(simpl; lia)) as H0. rewrite Z.add_0_r in H0.
  rewrite H0. destruct (IH (key + 1)) as [-> ->]; [|done].
  intros i Hi. specialize (Hg (S i) ltac:(simpl; lia)).
  by replace (key + 1 + Z.of_nat i) with (key + Z.of_nat (S i)) by lia.
Qed.

End Promotion.

(** X4. [promoteRequests(bucketId, newPriority)] for a [newPriority] that
    is a tier: every request of the bucket that sits in a tier of higher
    number is taken out of it and put, with its [priority] set to
    [newPriority], into the tier [newPriority], which is then sorted by
    timestamp; the other requests of those tiers keep their order, the
    tiers of lower number are untouched. The number returned is the number
    of requests moved and [totalSize] is what it was. *)
Theorem promoteRequests_moves_the_bucket (bucket : string) (newPriority : Z)
    (q : PriorityQueue.t) (targetQueue : list QueuedRequest) :
  PriorityQueue.get newPriority q = Some targetQueue →
  let moved :=
    spliced (fun key => key >? newPriority) (PriorityQueue.in_bucket bucket)
      0 (PriorityQueue.queues q) in
  let '(q', promoted) := PriorityQueue.promoteRequests bucket newPriority q in
  promoted = Z.of_nat (length moved)
  ∧ PriorityQueue.getTotalSize q' = PriorityQueue.getTotalSize q
  ∧ (∀ x, x ∈ moved ↔
          ∃ (i : nat) queue,
            PriorityQueue.queues q !! i = Some queue
            ∧ newPriority < Z.of_nat i
            ∧ x ∈ queue ∧ bucketId x = Some bucket)
  ∧ (∀ (i : nat) queue,
       PriorityQueue.queues q !! i = Some queue →
       PriorityQueue.queues q' !! i
       = Some (if Z.of_nat i >? newPriority
               then List.filter
                      (fun r => negb (PriorityQueue.in_bucket bucket r)) queue
               else if Z.of_nat i =? newPriority
               then PriorityQueue.sort
                      (queue ++ map (set_priority newPriority) moved)
               else queue)).
Proof.
  intros [Hnp Ht]%get_Some moved. rewrite promoteRequests_eq. fold moved.
  cbv zeta.
  set (qs := unspliced _ _ _ _).
  assert (qs !! Z.to_nat newPriority = Some targetQueue) as Hq.
  { unfold qs. rewrite unspliced_lookup, Ht. simpl.
    by destruct (Z.gtb_spec (0 + Z.of_nat (Z.to_nat newPriority)) newPriority);
      [lia|]. }
  unfold PriorityQueue.get at 1. simpl.
  destruct (Z.leb_spec 0 newPriority); [|lia]. rewrite Hq.
  split; [done|]. split; [unfold PriorityQueue.getTotalSize; simpl; lia|].
  split.
  - intros x. unfold moved. rewrite elem_of_spliced.
    split; intros (i & queue & Hi & Hg & Hx & Hb); exists i, queue.
    + apply bool_decide_eq_true in Hb. repeat split; [done| |done..]. lia.
    + repeat split; [done| |done|].
      * destruct (Z.gtb_spec (0 + Z.of_nat i) newPriority); [done|lia].
      * by apply bool_decide_eq_true.
  - intros i queue Hi. simpl.
    destruct (decide (i = Z.to_nat newPriority)) as [->|Hne].
    + rewrite list_lookup_insert_eq by (by eapply lookup_lt_Some).
      rewrite Hi in Ht. simplify_eq.
      destruct (Z.gtb_spec (Z.of_nat (Z.to_nat newPriority)) newPriority);
        [lia|].
      by destruct (Z.eqb_spec (Z.of_nat (Z.to_nat newPriority)) newPriority);
        [|lia].
    + rewrite list_lookup_insert_ne by done.
      unfold qs. rewrite unspliced_lookup, Hi. simpl. rewrite Z.add_0_l.
      destruct (Z.gtb_spec (Z.of_nat i) newPriority); [done|].
      by destruct (Z.eqb_spec (Z.of_nat i) newPriority); [lia|].
Qed.

Lemma promoteRequests_moves_the_bucket_witness :
  (PriorityQueue.promoteRequests "x" HIGH three_queued.1).2 = 1
  ∧ PriorityQueue.getQueueSize LOW
      (PriorityQueue.promoteRequests "x" HIGH three_queued.1).1 = 0
  ∧ PriorityQueue.getQueueSize HIGH
      (PriorityQueue.promoteRequests "x" HIGH three_queued.1).1 = 1.
Proof.
  pose proof (promoteRequests_moves_the_bucket "x" HIGH three_queued.1 []
                eq_refl) as H.
  destruct (PriorityQueue.promoteRequests "x" HIGH three_queued.1)
    as [q' promoted].
  destruct H as (H1 & _ & _ & H4). split; [exact H1|]. cbn [fst].
  change (PriorityQueue.getQueueSize LOW q')
    with (match PriorityQueue.queues q' !! 3%nat with
          | Some queue => Z.of_nat (length queue)
          | None => 0
          end).
  change (PriorityQueue.getQueueSize HIGH q')
    with (match PriorityQueue.queues q' !! 1%nat with
          | Some queue => Z.of_nat (length queue)
          | None => 0
          end).
  rewrite (H4 3%nat [set_settlers (PromiseFn 2) request_X] eq_refl).
  rewrite (H4 1%nat [] eq_refl). split; reflexivity.
Defined.

(** X5. [promoteRequests(bucketId, newPriority)] for a [newPriority] that
    is no tier. A negative one makes the loops take every request of the
    bucket out of every tier; no target queue is found, so they are not put
    back, the call returns 0 and [totalSize] is lowered by their number. A
    [newPriority] at or beyond the number of tiers changes nothing and
    returns 0. *)
Theorem promoteRequests_without_target (bucket : string) (newPriority : Z)
    (q : PriorityQueue.t) :
  (newPriority < 0 →
   let '(q', promoted) := PriorityQueue.promoteRequests bucket newPriority q in
   promoted = 0
   ∧ PriorityQueue.queues q'
     = map (List.filter (fun r => negb (PriorityQueue.in_bucket bucket r)))
           (PriorityQueue.queues q)
   ∧ PriorityQueue.getRequestsByBucket bucket q' = []
   ∧ PriorityQueue.getTotalSize q'
     = PriorityQueue.getTotalSize q
       - Z.of_nat (length (PriorityQueue.getRequestsByBucket bucket q)))
  ∧ (Z.of_nat (length (PriorityQueue.queues q)) <= newPriority →
     PriorityQueue.promoteRequests bucket newPriority q = (q, 0)).
Proof.
  split.
  - intros Hn. rewrite promoteRequests_eq. cbv zeta.
    unfold PriorityQueue.get at 1.
    destruct (Z.leb_spec 0 newPriority); [lia|].
    assert (∀ qs key, 0 <= key →
              unspliced (fun key => key >? newPriority)
                (PriorityQueue.in_bucket bucket) key qs
              = unspliced (fun _ => true)
                  (PriorityQueue.in_bucket bucket) key qs
              ∧ spliced (fun key => key >? newPriority)
                  (PriorityQueue.in_bucket bucket) key qs
                = spliced (fun _ => true)
                    (PriorityQueue.in_bucket bucket) key qs) as Hall.
    { induction qs as [|queue qs IH]; intros key Hk; simpl; [done|].
      destruct (Z.gtb_spec key newPriority); [|lia].
      destruct (IH (key + 1)) as [-> ->]; [lia|done]. }
    destruct (Hall (PriorityQueue.queues q) 0) as [-> ->]; [lia|].
    rewrite unspliced_all. split; [done|]. split; [done|]. split.
    + unfold PriorityQueue.getRequestsByBucket. simpl.
      induction (PriorityQueue.queues q) as [|queue qs IH]; simpl; [done|].
      rewrite IH, app_nil_r, filter_as_list_filter.
      apply filter_negb_filter.
    + simpl. rewrite length_spliced_all.
      unfold PriorityQueue.getRequestsByBucket.
      do 4 f_equal. apply map_ext. intros queue.
      symmetry. apply filter_as_list_filter.
  - intros Hn. rewrite promoteRequests_eq. cbv zeta.
    destruct (unspliced_none (fun key => key >? newPriority)
                (PriorityQueue.in_bucket bucket) 0 (PriorityQueue.queues q))
      as [-> ->].
    { intros i Hi. destruct (Z.gtb_spec (0 + Z.of_nat i) newPriority); [lia|done]. }
    unfold PriorityQueue.get. simpl.
    destruct (Z.leb_spec 0 newPriority); [|lia].
    rewrite lookup_ge_None_2 by lia.
    rewrite Z.sub_0_r. by destruct q.
Qed.

Lemma promoteRequests_without_target_witness :
  (PriorityQueue.promoteRequests "x" (-1) three_queued.1).2 = 0
  ∧ PriorityQueue.getTotalSize
      (PriorityQueue.promoteRequests "x" (-1) three_queued.1).1 = 2
  ∧ PriorityQueue.promoteRequests "x" 5 three_queued.1 = (three_queued.1, 0).
Proof.
  destruct (promoteRequests_without_target "x" (-1) three_queued.1) as [H _].
  destruct (promoteRequests_without_target "x" 5 three_queued.1) as [_ H'].
  specialize (H ltac:(lia)).
  destruct (PriorityQueue.promoteRequests "x" (-1) three_queued.1)
    as [q' promoted].
  destruct H as (H1 & _ & _ & H4). split; [exact H1|]. split.
  - cbn [fst]. rewrite H4. reflexivity.
  - apply H'. simpl. lia.
Defined.

Section QueueInvariants.

Implicit Types (q : PriorityQueue.t) (qs : list (list QueuedRequest))
  (h : Heap).

Lemma enqueue_invalid request q h :
  PriorityQueue.totalSize q < PriorityQueue.maxSize q →
  PriorityQueue.get (priority request) q = None →
  PriorityQueue.enqueue request q h
  = (q, h ++ [Rejected (PriorityQueue.invalid_priority (priority request))],
     length h).
Proof.
  intros Hs Hg. unfold PriorityQueue.enqueue.
  destruct (Z.geb_spec (PriorityQueue.totalSize q) (PriorityQueue.maxSize q));
    [lia|].
  simpl. by rewrite Hg.
Qed.

Lemma get_None p q :
  length (PriorityQueue.queues q) = 5%nat →
  PriorityQueue.get p q = None ↔ ¬ (0 <= p <= 4).
Proof.
  intros HL. unfold PriorityQueue.get.
  destruct (Z.leb_spec 0 p); [|split; [lia|done]].
  rewrite lookup_ge_None, HL. lia.
Qed.

Lemma elem_of_insert_by_timestamp x a l :
  x ∈ PriorityQueue.insert_by_timestamp a l ↔ x = a ∨ x ∈ l.
Proof.
  induction l as [|y l IH]; simpl.
  - by rewrite list_elem_of_singleton, elem_of_nil; intuition.
  - destruct (timestamp a <=? timestamp y).
    + by rewrite elem_of_cons.
    + rewrite !elem_of_cons, IH. tauto.
Qed.

Lemma elem_of_sort x l : x ∈ PriorityQueue.sort l ↔ x ∈ l.
Proof.
  induction l as [|a l IH]; simpl; [done|].
  by rewrite elem_of_insert_by_timestamp, IH, elem_of_cons.
Qed.

Lemma ascending_filter (f : QueuedRequest → bool) l :
  ascending l → ascending (List.filter f l).
Proof.
  induction l as [|x l IH]; simpl; [done|].
  intros [Hx Hl]. destruct (f x); simpl; [|by apply IH].
  split; [|by apply IH].
  apply List.Forall_forall. intros y [Hy _]%List.filter_In.
  rewrite List.Forall_forall in Hx. by apply Hx.
Qed.

Lemma Forall_ascending_unspliced guard test key qs :
  Forall ascending qs → Forall ascending (unspliced guard test key qs).
Proof.
  intros H. revert key. induction H as [|queue qs Hq Hqs IH]; intros key;
    simpl; constructor; [|apply IH].
  destruct (guard key); [by apply ascending_filter|done].
Qed.

Lemma dequeue_loop_found ps q r q' :
  PriorityQueue.dequeue_loop ps q = (Some r, q') →
  ∃ ps1 p ps2 rest,
    ps = ps1 ++ p :: ps2
    ∧ (∀ p', p' ∈ ps1 → PriorityQueue.getQueueSize p' q = 0)
    ∧ PriorityQueue.get p q = Some (r :: rest)
    ∧ q' = PriorityQueue.with_queues
             (<[Z.to_nat p := rest]> (PriorityQueue.queues q))
             (PriorityQueue.totalSize q - 1) q.
Proof.
  induction ps as [|p ps IH]; simpl; [done|].
  destruct (PriorityQueue.get p q) as [[|request rest]|] eqn:G.
  - intros (ps1 & p0 & ps2 & rest & -> & Hz & Hg & ->)%IH.
    exists (p :: ps1), p0, ps2, rest. repeat split; [|done].
    intros p' [->|?]%elem_of_cons; [|by apply Hz].
    unfold PriorityQueue.getQueueSize. by rewrite G.
  - intros [= <- <-]. exists [], p, ps, rest. repeat split; [|done].
    by intros p' ?%elem_of_nil.
  - intros (ps1 & p0 & ps2 & rest & -> & Hz & Hg & ->)%IH.
    exists (p :: ps1), p0, ps2, rest. repeat split; [|done].
    intros p' [->|?]%elem_of_cons; [|by apply Hz].
    unfold PriorityQueue.getQueueSize. by rewrite G.
Qed.

Lemma dequeue_loop_none ps q :
  (PriorityQueue.dequeue_loop ps q).1 = None →
  (PriorityQueue.dequeue_loop ps q).2 = q.
Proof.
  induction ps as [|p ps IH]; simpl; [done|].
  by destruct (PriorityQueue.get p q) as [[|request rest]|].
Qed.

Lemma peek_loop_dequeue_loop ps q :
  PriorityQueue.peek_loop ps q = (PriorityQueue.dequeue_loop ps q).1.
Proof.
  induction ps as [|p ps IH]; simpl; [done|].
  by destruct (PriorityQueue.get p q) as [[|request rest]|].
Qed.

Lemma tiers_split ps1 p ps2 :
  PriorityQueue.tiers = ps1 ++ p :: ps2 →
  0 <= p <= 4 ∧ ∀ p', 0 <= p' < p → p' ∈ ps1.
Proof.
  unfold PriorityQueue.tiers. intros H.
  destruct ps1 as [|a0 [|a1 [|a2 [|a3 [|a4 [|a5 ps1]]]]]]; simplify_eq/=;
    (split; [lia|]); intros p' Hp'; rewrite ?elem_of_cons; lia.
Qed.

Lemma tiers_ascending_step st op :
  tiers_ascending st.1 → tiers_ascending (queue_step st op).1.
Proof.
  destruct st as [q h]. unfold tiers_ascending. simpl. intros Hq.
  destruct op; simpl.
  - unfold PriorityQueue.enqueue.
    destruct (_ >=? _); [done|].
    destruct (PriorityQueue.get _ _) as [queue|]; [|done]. simpl.
    apply Forall_insert; [done|apply sort_ascending].
  - destruct (PriorityQueue.dequeue q) as [[r|] q'] eqn:E.
    + apply dequeue_loop_found in E
        as (ps1 & p & ps2 & rest & _ & _ & [_ Hg]%get_Some & ->).
      simpl. apply Forall_insert; [done|].
      by destruct (Forall_lookup_1 _ _ _ _ Hq Hg).
    + pose proof (dequeue_loop_none PriorityQueue.tiers q) as Hn.
      unfold PriorityQueue.dequeue in E. rewrite E in Hn.
      simpl in *. by rewrite Hn.
  - rewrite removeExpired_eq. simpl.
    rewrite <- (unspliced_all _ 0). by apply Forall_ascending_unspliced.
  - rewrite clearBucket_eq. simpl.
    rewrite <- (unspliced_all _ 0). by apply Forall_ascending_unspliced.
  - rewrite promoteRequests_eq. cbv zeta.
    destruct (PriorityQueue.get _ _) as [targetQueue|]; simpl.
    + apply Forall_insert; [|apply sort_ascending].
      by apply Forall_ascending_unspliced.
    + by apply Forall_ascending_unspliced.
  - apply Forall_fmap, Forall_true. done.
Qed.

Lemma tiers_ascending_run ops st :
  tiers_ascending st.1 → tiers_ascending (queue_run ops st).1.
Proof.
  revert st. induction ops as [|op ops IH]; intros st Hst; [done|].
  simpl. by apply IH, tiers_ascending_step.
Qed.

Lemma maxSize_step st op :
  PriorityQueue.maxSize (queue_step st op).1 = PriorityQueue.maxSize st.1.
Proof.
  destruct st as [q h]. destruct op; simpl.
  - unfold PriorityQueue.enqueue. destruct (_ >=? _); [done|].
    by destruct (PriorityQueue.get _ _).
  - unfold PriorityQueue.dequeue.
    induction PriorityQueue.tiers as [|p ps IH]; simpl; [done|].
    by destruct (PriorityQueue.get p q) as [[|??]|].
  - by rewrite removeExpired_eq.
  - by rewrite clearBucket_eq.
  - rewrite promoteRequests_eq. cbv zeta.
    by destruct (PriorityQueue.get _ _).
  - done.
Qed.

Lemma totalSize_step st op :
  PriorityQueue.totalSize (queue_step st op).1 <= PriorityQueue.totalSize st.1
  ∨ PriorityQueue.totalSize (queue_step st op).1 = 0
  ∨ PriorityQueue.totalSize (queue_step st op).1 <= PriorityQueue.maxSize st.1.
Proof.
  destruct st as [q h]. destruct op; simpl.
  - unfold PriorityQueue.enqueue.
    destruct (Z.geb_spec (PriorityQueue.totalSize q) (PriorityQueue.maxSize q));
      [by left|].
    destruct (PriorityQueue.get _ _); simpl; [right; right; lia|by left].
  - left. unfold PriorityQueue.dequeue.
    induction PriorityQueue.tiers as [|p ps IH]; simpl; [done|].
    destruct (PriorityQueue.get p q) as [[|??]|]; simpl; try done. lia.
  - rewrite removeExpired_eq. simpl. left. lia.
  - rewrite clearBucket_eq. simpl. left. lia.
  - rewrite promoteRequests_eq. cbv zeta.
    destruct (PriorityQueue.get _ _); simpl; left; lia.
  - right. by left.
Qed.

Lemma bounded_run ops st :
  PriorityQueue.totalSize st.1 <= Z.max 0 (PriorityQueue.maxSize st.1) →
  PriorityQueue.maxSize (queue_run ops st).1 = PriorityQueue.maxSize st.1
  ∧ PriorityQueue.totalSize (queue_run ops st).1
    <= Z.max 0 (PriorityQueue.maxSize st.1).
Proof.
  revert st. induction ops as [|op ops IH]; intros st Hst; [done|].
  simpl. pose proof (maxSize_step st op) as Hm.
  pose proof (totalSize_step st op) as Ht.
  destruct (IH (queue_step st op)) as [-> H]; [lia|].
  split; [done|lia].
Qed.

Lemma estimate_foldl qs a :
  foldl (fun totalTime (queue : list QueuedRequest) =>
           totalTime + Z.of_nat (length queue) * 100) a qs
  = a + 100 * stored qs.
Proof.
  revert a. induction qs as [|queue qs IH]; intros a; simpl.
  - unfold stored. simpl. lia.
  - rewrite IH, stored_cons. lia.
Qed.

End QueueInvariants.

(** X6. [enqueue(request)] on a queue that is not full, for a [priority]
    that is none of 0..4: the queue is left as it is and the returned
    promise is rejected with "Invalid priority level: <priority>"; no other
    promise changes. *)
Theorem enqueue_with_invalid_priority (request : QueuedRequest)
    (q : PriorityQueue.t) (h : Heap) :
  length (PriorityQueue.queues q) = 5%nat →
  PriorityQueue.getTotalSize q < PriorityQueue.maxSize q →
  ¬ (0 <= priority request <= 4) →
  PriorityQueue.enqueue request q h
  = (q,
     h ++ [Rejected (mkError ("Invalid priority level: "
                              +:+ string_of_Z (priority request)))],
     length h).
Proof.
  intros HL Hs Hp. apply enqueue_invalid; [done|]. by apply get_None.
Qed.

Lemma enqueue_with_invalid_priority_witness :
  PriorityQueue.enqueue (set_priority 7 request_A) (PriorityQueue.new 10) []
  = (PriorityQueue.new 10,
     [Rejected (mkError "Invalid priority level: 7")], 0%nat).
Proof.
  apply (enqueue_with_invalid_priority (set_priority 7 request_A)
           (PriorityQueue.new 10) []).
  - reflexivity.
  - simpl. lia.
  - simpl. lia.
Defined.

(** X7. [enqueue(request)] on a queue that is not full, for a [priority]
    in 0..4: the returned promise is new and pending, the request is stored
    in the tier of its priority with the settling functions of that
    promise, the tier is in ascending order of timestamp afterwards, its
    size and [totalSize] have grown by one, and the other tiers are
    untouched. *)
Theorem enqueue_accepts (request : QueuedRequest) (q : PriorityQueue.t)
    (h : Heap) :
  length (PriorityQueue.queues q) = 5%nat →
  PriorityQueue.getTotalSize q < PriorityQueue.maxSize q →
  0 <= priority request <= 4 →
  let '(q', h', p) := PriorityQueue.enqueue request q h in
  p = length h ∧ h' = h ++ [Pending]
  ∧ PriorityQueue.getTotalSize q' = PriorityQueue.getTotalSize q + 1
  ∧ PriorityQueue.getQueueSize (priority request) q'
    = PriorityQueue.getQueueSize (priority request) q + 1
  ∧ (∀ p', p' ≠ priority request →
           PriorityQueue.get p' q' = PriorityQueue.get p' q)
  ∧ ∃ queue,
      PriorityQueue.get (priority request) q' = Some queue
      ∧ set_settlers (PromiseFn p) request ∈ queue
      ∧ ascending queue.
Proof.
  intros HL Hs Hp. unfold PriorityQueue.enqueue.
  unfold PriorityQueue.getTotalSize in Hs.
  destruct (Z.geb_spec (PriorityQueue.totalSize q) (PriorityQueue.maxSize q));
    [lia|].
  change (priority (set_settlers (PromiseFn (fresh h)) request))
    with (priority request).
  destruct (PriorityQueue.get (priority request) q) as [queue|] eqn:G.
  2:{ apply get_None in G; [lia|done]. }
  pose proof G as [_ G']%get_Some.
  assert (PriorityQueue.get (priority request)
            (PriorityQueue.with_queues
               (<[Z.to_nat (priority request) :=
                    PriorityQueue.sort
                      (queue ++ [set_settlers (PromiseFn (fresh h)) request])]>
                  (PriorityQueue.queues q))
               (PriorityQueue.totalSize q + 1) q)
          = Some (PriorityQueue.sort
                    (queue ++ [set_settlers (PromiseFn (fresh h)) request])))
    as G2.
  { unfold PriorityQueue.get. simpl.
    destruct (Z.leb_spec 0 (priority request)); [|lia].
    apply list_lookup_insert_eq. by eapply lookup_lt_Some. }
  split; [done|]. split; [done|]. split; [done|]. split.
  { unfold PriorityQueue.getQueueSize. rewrite G2, G, length_sort, length_app.
    simpl. lia. }
  split.
  { intros p' Hne. unfold PriorityQueue.get. simpl.
    destruct (Z.leb_spec 0 p'); [|done].
    apply list_lookup_insert_ne. lia. }
  eexists. split; [exact G2|]. split; [|apply sort_ascending].
  apply elem_of_sort, elem_of_app. right. by apply list_elem_of_singleton.
Qed.

Lemma enqueue_accepts_witness :
  PriorityQueue.getQueueSize NORMAL
    (PriorityQueue.enqueue request_A (PriorityQueue.new 10) []).1.1 = 1.
Proof.
  pose proof (enqueue_accepts request_A (PriorityQueue.new 10) []
                eq_refl ltac:(simpl; lia)
                ltac:(unfold request_A, NORMAL; simpl; lia)) as H.
  destruct (PriorityQueue.enqueue request_A (PriorityQueue.new 10) [])
    as [[q' h'] p].
  destruct H as (_ & _ & _ & H & _). exact H.
Defined.

(** X8. Whatever calls are made on a queue built with [maxSize], the
    queue keeps its [maxSize] and [getTotalSize()] stays between 0 and
    [maxSize] (between 0 and 0 when [maxSize] is negative). *)
Theorem queue_never_exceeds_maxSize (maxSize : Z) (h : Heap)
    (ops : list queue_op) :
  PriorityQueue.maxSize (queue_run ops (PriorityQueue.new maxSize, h)).1
  = maxSize
  ∧ 0 <= PriorityQueue.getTotalSize
           (queue_run ops (PriorityQueue.new maxSize, h)).1
    <= Z.max 0 maxSize.
Proof.
  destruct (bounded_run ops (PriorityQueue.new maxSize, h)) as [Hm Ht];
    [simpl; lia|].
  destruct (counted_run ops (PriorityQueue.new maxSize, h)
              (counted_new maxSize)) as [_ Hc].
  split; [done|]. unfold PriorityQueue.getTotalSize. split; [|done].
  rewrite Hc. unfold stored. lia.
Qed.

(** X9. Whatever calls are made on a new queue, every tier stays in
    ascending order of timestamp, and a [dequeue()] that returns a request
    takes it from the head of the first tier that is not empty: every tier
    of lower number is empty, no request of that tier has a smaller
    timestamp, the tier keeps the rest and [totalSize] drops by one. *)
Theorem dequeue_takes_the_oldest_of_the_first_tier (maxSize : Z) (h : Heap)
    (ops : list queue_op) :
  tiers_ascending (queue_run ops (PriorityQueue.new maxSize, h)).1
  ∧ ∀ r q',
      PriorityQueue.dequeue (queue_run ops (PriorityQueue.new maxSize, h)).1
      = (Some r, q') →
      ∃ p rest,
        0 <= p <= 4
        ∧ PriorityQueue.get p (queue_run ops (PriorityQueue.new maxSize, h)).1
          = Some (r :: rest)
        ∧ (∀ p', 0 <= p' < p →
             PriorityQueue.getQueueSize p'
               (queue_run ops (PriorityQueue.new maxSize, h)).1 = 0)
        ∧ Forall (fun x => timestamp r <= timestamp x) rest
        ∧ PriorityQueue.get p q' = Some rest
        ∧ PriorityQueue.getTotalSize q'
          = PriorityQueue.getTotalSize
              (queue_run ops (PriorityQueue.new maxSize, h)).1 - 1.
Proof.
  assert (tiers_ascending (queue_run ops (PriorityQueue.new maxSize, h)).1)
    as Ha.
  { apply tiers_ascending_run. unfold tiers_ascending. simpl.
    repeat constructor. }
  split; [done|]. intros r q' E.
  apply dequeue_loop_found in E as (ps1 & p & ps2 & rest & Hps & Hz & Hg & ->).
  apply tiers_split in Hps as [Hp Hlt].
  pose proof Hg as [_ Hg']%get_Some.
  exists p, rest. split; [done|]. split; [done|]. split.
  { intros p' Hp'. by apply Hz, Hlt. }
  split.
  { by destruct (Forall_lookup_1 _ _ _ _ Ha Hg'). }
  split; [|done].
  unfold PriorityQueue.get. simpl.
  destruct (Z.leb_spec 0 p); [|lia].
  apply list_lookup_insert_eq. by eapply lookup_lt_Some.
Qed.

Lemma dequeue_takes_the_oldest_of_the_first_tier_witness :
  ∃ p rest,
    0 <= p <= 4
    ∧ PriorityQueue.get p
        (queue_run [OpEnqueue request_A; OpEnqueue request_B]
           (PriorityQueue.new 10, [])).1
      = Some (set_settlers (PromiseFn 1) request_B :: rest)
    ∧ Forall (fun x => 5 <= timestamp x) rest.
Proof.
  destruct (dequeue_takes_the_oldest_of_the_first_tier 10 []
              [OpEnqueue request_A; OpEnqueue request_B]) as [_ H].
  destruct (H (set_settlers (PromiseFn 1) request_B)
              (PriorityQueue.dequeue
                 (queue_run [OpEnqueue request_A; OpEnqueue request_B]
                    (PriorityQueue.new 10, [])).1).2 eq_refl)
    as (p & rest & Hp & Hg & _ & Hf & _).
  exists p, rest. split; [exact Hp|]. split; [exact Hg|exact Hf].
Defined.

(** X10. Whatever calls are made on a new queue, [peek()] returns what
    [dequeue()] would return; [dequeue()] returns [null] exactly when
    [getTotalSize()] is 0, and then leaves the queue as it is;
    [getNextWaitTime()] is never negative and is 0 for an empty queue. *)
Theorem peek_and_empty_queue (maxSize : Z) (h : Heap) (ops : list queue_op)
    (now : Z) :
  PriorityQueue.peek (queue_run ops (PriorityQueue.new maxSize, h)).1
  = (PriorityQueue.dequeue (queue_run ops (PriorityQueue.new maxSize, h)).1).1
  ∧ ((PriorityQueue.dequeue
        (queue_run ops (PriorityQueue.new maxSize, h)).1).1 = None
     ↔ PriorityQueue.getTotalSize
         (queue_run ops (PriorityQueue.new maxSize, h)).1 = 0)
  ∧ ((PriorityQueue.dequeue
        (queue_run ops (PriorityQueue.new maxSize, h)).1).1 = None →
     (PriorityQueue.dequeue
        (queue_run ops (PriorityQueue.new maxSize, h)).1).2
     = (queue_run ops (PriorityQueue.new maxSize, h)).1)
  ∧ 0 <= PriorityQueue.getNextWaitTime now
           (queue_run ops (PriorityQueue.new maxSize, h)).1
  ∧ (PriorityQueue.getTotalSize
       (queue_run ops (PriorityQueue.new maxSize, h)).1 = 0 →
     PriorityQueue.getNextWaitTime now
       (queue_run ops (PriorityQueue.new maxSize, h)).1 = 0).
Proof.
  destruct (counted_run ops (PriorityQueue.new maxSize, h)
              (counted_new maxSize)) as [HL HT].
  set (q := (queue_run ops (PriorityQueue.new maxSize, h)).1) in *.
  assert (PriorityQueue.peek q = (PriorityQueue.dequeue q).1) as Hpeek
    by apply peek_loop_dequeue_loop.
  assert ((PriorityQueue.dequeue q).1 = None
          ↔ PriorityQueue.getTotalSize q = 0) as Hnull.
  { unfold PriorityQueue.getTotalSize. rewrite HT. unfold stored.
    pose proof (dequeue_head q HL) as Hd.
    destruct (concat (PriorityQueue.queues q)) as [|r rest]; simpl.
    - by rewrite Hd.
    - destruct Hd as [-> _]. split; [done|lia]. }
  split; [done|]. split; [done|]. split; [apply dequeue_loop_none|].
  unfold PriorityQueue.getNextWaitTime. rewrite Hpeek. split.
  - destruct (PriorityQueue.dequeue q).1; lia.
  - intros Hz. apply Hnull in Hz. by rewrite Hz.
Qed.

Lemma peek_and_empty_queue_witness :
  PriorityQueue.getNextWaitTime 0
    (queue_run [OpEnqueue request_A; OpClear] (PriorityQueue.new 10, [])).1
  = 0.
Proof.
  destruct (peek_and_empty_queue 10 [] [OpEnqueue request_A; OpClear] 0)
    as (_ & _ & _ & _ & H).
  apply H. reflexivity.
Defined.

(** X11. Whatever calls are made on a new queue,
    [getEstimatedProcessingTime()] is 100 times [getTotalSize()], and
    [getStats()] has the entry [total], which is [getTotalSize()], followed
    by the entries [priority_0] to [priority_4] with the sizes of the five
    tiers. *)
Theorem statistics_follow_the_counter (maxSize : Z) (h : Heap)
    (ops : list queue_op) :
  PriorityQueue.getEstimatedProcessingTime
    (queue_run ops (PriorityQueue.new maxSize, h)).1
  = 100 * PriorityQueue.getTotalSize
            (queue_run ops (PriorityQueue.new maxSize, h)).1
  ∧ PriorityQueue.getStats (queue_run ops (PriorityQueue.new maxSize, h)).1
    = [("total",
        PriorityQueue.getTotalSize
          (queue_run ops (PriorityQueue.new maxSize, h)).1);
       ("priority_0",
        PriorityQueue.getQueueSize CRITICAL
          (queue_run ops (PriorityQueue.new maxSize, h)).1);
       ("priority_1",
        PriorityQueue.getQueueSize HIGH
          (queue_run ops (PriorityQueue.new maxSize, h)).1);
       ("priority_2",
        PriorityQueue.getQueueSize NORMAL
          (queue_run ops (PriorityQueue.new maxSize, h)).1);
       ("priority_3",
        PriorityQueue.getQueueSize LOW
          (queue_run ops (PriorityQueue.new maxSize, h)).1);
       ("priority_4",
        PriorityQueue.getQueueSize BULK
          (queue_run ops (PriorityQueue.new maxSize, h)).1)].
Proof.
  destruct (counted_run ops (PriorityQueue.new maxSize, h)
              (counted_new maxSize)) as [HL HT].
  set (q := (queue_run ops (PriorityQueue.new maxSize, h)).1) in *.
  split.
  - unfold PriorityQueue.getEstimatedProcessingTime, PriorityQueue.getTotalSize.
    rewrite estimate_foldl, HT. lia.
  - unfold PriorityQueue.getStats, PriorityQueue.getQueueSize,
      PriorityQueue.get, PriorityQueue.getTotalSize.
    destruct (PriorityQueue.queues q) as [|q0 [|q1 [|q2 [|q3 [|q4 [|]]]]]];
      try discriminate.
    reflexivity.
Qed.

Section StoreBuckets.

Implicit Types (s : MemoryRateLimitStore.t) (bucket : RateLimitBucket.t).

Lemma buckets_setBucket bucketId bucket now s :
  MemoryRateLimitStore.buckets
    (MemoryRateLimitStore.setBucket bucketId bucket now s)
  = <[bucketId := RateLimitBucket.with_lastUsed now bucket]>
      (MemoryRateLimitStore.buckets s).
Proof. done. Qed.

Lemma buckets_deleteBucket bucketId s :
  MemoryRateLimitStore.buckets (MemoryRateLimitStore.deleteBucket bucketId s)
  = delete bucketId (MemoryRateLimitStore.buckets s).
Proof. done. Qed.

Lemma buckets_sweep now s :
  MemoryRateLimitStore.buckets (MemoryRateLimitStore.sweep now s)
  = filter (fun kv => MemoryRateLimitStore.expired now kv.2 = false)
      (MemoryRateLimitStore.buckets s).
Proof. done. Qed.

Lemma getBucket_result bucketId now s :
  (MemoryRateLimitStore.getBucket bucketId now s).1
  = match MemoryRateLimitStore.buckets s !! bucketId with
    | Some bucket =>
        if now >? RateLimitBucket.resetAt bucket then None else Some bucket
    | None => None
    end.
Proof.
  unfold MemoryRateLimitStore.getBucket.
  destruct (MemoryRateLimitStore.buckets s !! bucketId) as [bucket|]; [|done].
  by destruct (now >? RateLimitBucket.resetAt bucket).
Qed.

Lemma sweep_lookup now s bucketId bucket :
  MemoryRateLimitStore.buckets (MemoryRateLimitStore.sweep now s) !! bucketId
  = Some bucket
  ↔ MemoryRateLimitStore.buckets s !! bucketId = Some bucket
    ∧ now <= RateLimitBucket.resetAt bucket.
Proof.
  rewrite buckets_sweep, map_lookup_filter_Some.
  unfold MemoryRateLimitStore.expired. simpl.
  destruct (Z.gtb_spec now (RateLimitBucket.resetAt bucket)).
  - split; [by intros [_ ?]|]. intros [_ ?]. lia.
  - split; [intros [? _]; split; [done|lia]|]. by intros [? _].
Qed.

Lemma sweep_sweep now s :
  MemoryRateLimitStore.sweep now (MemoryRateLimitStore.sweep now s)
  = MemoryRateLimitStore.sweep now s.
Proof.
  unfold MemoryRateLimitStore.sweep at 1.
  assert (filter (fun kv => MemoryRateLimitStore.expired now kv.2 = false)
            (MemoryRateLimitStore.buckets (MemoryRateLimitStore.sweep now s))
          = MemoryRateLimitStore.buckets (MemoryRateLimitStore.sweep now s))
    as ->.
  { apply map_filter_id. intros i x Hx.
    rewrite buckets_sweep in Hx. by apply map_lookup_filter_Some in Hx as [_ ?]. }
  done.
Qed.

Lemma size_lookup_Some bucketId bucket (m : gmap string RateLimitBucket.t) :
  m !! bucketId = Some bucket → size m = S (size (delete bucketId m)).
Proof.
  intros Hb. rewrite <- (insert_delete_id m bucketId bucket) at 1 by done.
  apply map_size_insert_None, lookup_delete_eq.
Qed.

Lemma size_store_step s op :
  Z.of_nat (size (MemoryRateLimitStore.buckets s))
  <= RateLimitMetrics.bucketCount (MemoryRateLimitStore.metrics s) →
  Z.of_nat (size (MemoryRateLimitStore.buckets (store_step s op)))
  <= RateLimitMetrics.bucketCount (MemoryRateLimitStore.metrics (store_step s op)).
Proof.
  intros Hs.
  destruct op as [b now|b bucket now|b|now|now|now|limit now|metric|size];
    simpl; try done; try reflexivity.
  - unfold MemoryRateLimitStore.getBucket.
    destruct (MemoryRateLimitStore.buckets s !! b) as [bucket|] eqn:Hb;
      [|done].
    destruct (now >? RateLimitBucket.resetAt bucket); [|done].
    cbn [snd MemoryRateLimitStore.buckets MemoryRateLimitStore.with_buckets
         MemoryRateLimitStore.metrics].
    rewrite (size_lookup_Some _ _ _ Hb) in Hs. lia.
  - unfold MemoryRateLimitStore.getGlobalLimit.
    destruct (MemoryRateLimitStore.globalLimit s) as [g|]; [|done].
    by destruct (now >? RateLimitInfo.resetAfter g).
Qed.

Lemma metrics_store_step s op :
  counters_le (MemoryRateLimitStore.metrics s)
    (MemoryRateLimitStore.metrics (store_step s op))
  ∧ counted_events (MemoryRateLimitStore.metrics (store_step s op))
    <= counted_events (MemoryRateLimitStore.metrics s) + 1
  ∧ RateLimitMetrics.lastReset (MemoryRateLimitStore.metrics (store_step s op))
    = RateLimitMetrics.lastReset (MemoryRateLimitStore.metrics s).
Proof.
  unfold counters_le, counted_events.
  destruct op as [b now|b bucket now|b|now|now|now|limit now|metric|size];
    simpl.
  - unfold MemoryRateLimitStore.getBucket.
    destruct (MemoryRateLimitStore.buckets s !! b) as [bucket|];
      [|simpl; lia].
    destruct (now >? RateLimitBucket.resetAt bucket); simpl; lia.
  - lia.
  - lia.
  - lia.
  - lia.
  - unfold MemoryRateLimitStore.getGlobalLimit.
    destruct (MemoryRateLimitStore.globalLimit s) as [g|]; [|simpl; lia].
    destruct (now >? RateLimitInfo.resetAfter g); simpl; lia.
  - lia.
  - destruct metric; simpl; lia.
  - lia.
Qed.

End StoreBuckets.

(** X12. [setBucket(bucketId, bucket)] followed by [getBucket(bucketId)]
    no later than the bucket's [resetAt]: the read returns the bucket with
    [lastUsed] set to the time of the write and changes nothing;
    [bucketCount] is the number of buckets stored; reads of other ids
    return what they returned before the write. *)
Theorem setBucket_then_getBucket (bucketId : string)
    (bucket : RateLimitBucket.t) (written read : Z)
    (s : MemoryRateLimitStore.t) :
  read <= RateLimitBucket.resetAt bucket →
  MemoryRateLimitStore.getBucket bucketId read
    (MemoryRateLimitStore.setBucket bucketId bucket written s)
  = (Some (RateLimitBucket.with_lastUsed written bucket),
     MemoryRateLimitStore.setBucket bucketId bucket written s)
  ∧ RateLimitMetrics.bucketCount
      (MemoryRateLimitStore.getMetrics
         (MemoryRateLimitStore.setBucket bucketId bucket written s))
    = Z.of_nat (size (MemoryRateLimitStore.buckets
                        (MemoryRateLimitStore.setBucket bucketId bucket
                           written s)))
  ∧ ∀ other, other ≠ bucketId →
      (MemoryRateLimitStore.getBucket other read
         (MemoryRateLimitStore.setBucket bucketId bucket written s)).1
      = (MemoryRateLimitStore.getBucket other read s).1.
Proof.
  intros Hr. split; [|split].
  - apply getBucket_live; [apply setBucket_lookup|exact Hr].
  - reflexivity.
  - intros other Hne. rewrite !getBucket_result, buckets_setBucket.
    by rewrite lookup_insert_ne.
Qed.

Lemma setBucket_then_getBucket_witness :
  (MemoryRateLimitStore.getBucket "b" 5000
     (MemoryRateLimitStore.setBucket "b" old_bucket 100 empty_store)).1
  = Some (RateLimitBucket.with_lastUsed 100 old_bucket).
Proof.
  destruct (setBucket_then_getBucket "b" old_bucket 100 5000 empty_store)
    as [H _].
  - simpl. lia.
  - rewrite H. reflexivity.
Defined.

(** X13. [deleteBucket(bucketId)] followed by [getBucket(bucketId)]: the
    read returns [null] and changes nothing; [bucketCount] is the number of
    buckets stored; reads of other ids return what they returned before;
    deleting an id that is not stored leaves the bucket map as it is. *)
Theorem deleteBucket_then_getBucket (bucketId : string) (now : Z)
    (s : MemoryRateLimitStore.t) :
  MemoryRateLimitStore.getBucket bucketId now
    (MemoryRateLimitStore.deleteBucket bucketId s)
  = (None, MemoryRateLimitStore.deleteBucket bucketId s)
  ∧ RateLimitMetrics.bucketCount
      (MemoryRateLimitStore.getMetrics
         (MemoryRateLimitStore.deleteBucket bucketId s))
    = Z.of_nat (size (MemoryRateLimitStore.buckets
                        (MemoryRateLimitStore.deleteBucket bucketId s)))
  ∧ (∀ other, other ≠ bucketId →
       (MemoryRateLimitStore.getBucket other now
          (MemoryRateLimitStore.deleteBucket bucketId s)).1
       = (MemoryRateLimitStore.getBucket other now s).1)
  ∧ (MemoryRateLimitStore.buckets s !! bucketId = None →
     MemoryRateLimitStore.buckets
       (MemoryRateLimitStore.deleteBucket bucketId s)
     = MemoryRateLimitStore.buckets s).
Proof.
  split; [|split; [|split]].
  - apply getBucket_absent. rewrite buckets_deleteBucket.
    apply lookup_delete_eq.
  - reflexivity.
  - intros other Hne. rewrite !getBucket_result, buckets_deleteBucket.
    by rewrite lookup_delete_ne.
  - intros Hb. rewrite buckets_deleteBucket. by apply delete_id.
Qed.

Lemma deleteBucket_then_getBucket_witness :
  MemoryRateLimitStore.buckets
    (MemoryRateLimitStore.deleteBucket "b" empty_store)
  = MemoryRateLimitStore.buckets empty_store.
Proof.
  destruct (deleteBucket_then_getBucket "b" 0 empty_store)
    as (_ & _ & _ & H).
  apply H. reflexivity.
Defined.

(** X14. [getBucket(bucketId)] on a bucket whose [resetAt] has passed
    deletes the bucket but does not touch the metrics: the bucket map
    shrinks by one while [bucketCount] stays, so a count that was exact
    before is one too high after the read. *)
Theorem expired_read_keeps_bucketCount (bucketId : string)
    (bucket : RateLimitBucket.t) (now : Z) (s : MemoryRateLimitStore.t) :
  MemoryRateLimitStore.buckets s !! bucketId = Some bucket →
  RateLimitBucket.resetAt bucket < now →
  Z.of_nat (size (MemoryRateLimitStore.buckets
                    (MemoryRateLimitStore.getBucket bucketId now s).2))
  = Z.of_nat (size (MemoryRateLimitStore.buckets s)) - 1
  ∧ MemoryRateLimitStore.getMetrics
      (MemoryRateLimitStore.getBucket bucketId now s).2
    = MemoryRateLimitStore.getMetrics s
  ∧ (RateLimitMetrics.bucketCount (MemoryRateLimitStore.getMetrics s)
     = Z.of_nat (size (MemoryRateLimitStore.buckets s)) →
     RateLimitMetrics.bucketCount
       (MemoryRateLimitStore.getMetrics
          (MemoryRateLimitStore.getBucket bucketId now s).2)
     = Z.of_nat (size (MemoryRateLimitStore.buckets
                         (MemoryRateLimitStore.getBucket bucketId now s).2))
       + 1).
Proof.
  intros Hb Hn. rewrite (getBucket_expired _ _ _ _ Hb Hn).
  cbn [snd MemoryRateLimitStore.buckets MemoryRateLimitStore.with_buckets
       MemoryRateLimitStore.getMetrics MemoryRateLimitStore.metrics].
  unfold MemoryRateLimitStore.getMetrics.
  rewrite (size_lookup_Some _ _ _ Hb).
  split; [lia|]. split; [done|]. intros ->. lia.
Qed.

Lemma expired_read_keeps_bucketCount_witness :
  RateLimitMetrics.bucketCount
    (MemoryRateLimitStore.getMetrics
       (MemoryRateLimitStore.getBucket "b" 5001
          (MemoryRateLimitStore.setBucket "b" old_bucket 100 empty_store)).2)
  = Z.of_nat (size (MemoryRateLimitStore.buckets
                      (MemoryRateLimitStore.getBucket "b" 5001
                         (MemoryRateLimitStore.setBucket "b" old_bucket 100
                            empty_store)).2))
    + 1.
Proof.
  destruct (expired_read_keeps_bucketCount "b"
              (RateLimitBucket.with_lastUsed 100 old_bucket) 5001
              (MemoryRateLimitStore.setBucket "b" old_bucket 100 empty_store))
    as (_ & _ & H).
  - reflexivity.
  - simpl. lia.
  - apply H. reflexivity.
Defined.

(** X15. Whatever reads and writes are made on a new store,
    [bucketCount] is never below the number of buckets stored. *)
Theorem bucketCount_never_under_reports (cleanupIntervalMs now : Z)
    (ops : list store_op) :
  Z.of_nat (size (MemoryRateLimitStore.buckets
                    (foldl store_step
                       (MemoryRateLimitStore.new cleanupIntervalMs now) ops)))
  <= RateLimitMetrics.bucketCount
       (MemoryRateLimitStore.getMetrics
          (foldl store_step
             (MemoryRateLimitStore.new cleanupIntervalMs now) ops)).
Proof.
  unfold MemoryRateLimitStore.getMetrics.
  assert (Z.of_nat (size (MemoryRateLimitStore.buckets
                            (MemoryRateLimitStore.new cleanupIntervalMs now)))
          <= RateLimitMetrics.bucketCount
               (MemoryRateLimitStore.metrics
                  (MemoryRateLimitStore.new cleanupIntervalMs now))) as H
    by done.
  revert H. generalize (MemoryRateLimitStore.new cleanupIntervalMs now).
  induction ops as [|op ops IH]; intros s Hs; [done|].
  simpl. by apply IH, size_store_step.
Qed.

(** X16. [clearExpiredBuckets()] keeps exactly the buckets whose
    [resetAt] has not passed and sets [bucketCount] to their number; a
    second call at the same time changes nothing; the global limit is not
    touched. [getAllBuckets()] leaves the store in the same state and
    returns those buckets. Reading a bucket after the sweep returns what
    reading it without the sweep returns. *)
Theorem sweep_keeps_the_live_buckets (now : Z) (s : MemoryRateLimitStore.t) :
  (∀ bucketId bucket,
     MemoryRateLimitStore.buckets
       (MemoryRateLimitStore.clearExpiredBuckets now s) !! bucketId
     = Some bucket
     ↔ MemoryRateLimitStore.buckets s !! bucketId = Some bucket
       ∧ now <= RateLimitBucket.resetAt bucket)
  ∧ RateLimitMetrics.bucketCount
      (MemoryRateLimitStore.getMetrics
         (MemoryRateLimitStore.clearExpiredBuckets now s))
    = Z.of_nat (size (MemoryRateLimitStore.buckets
                        (MemoryRateLimitStore.clearExpiredBuckets now s)))
  ∧ MemoryRateLimitStore.clearExpiredBuckets now
      (MemoryRateLimitStore.clearExpiredBuckets now s)
    = MemoryRateLimitStore.clearExpiredBuckets now s
  ∧ MemoryRateLimitStore.globalLimit
      (MemoryRateLimitStore.clearExpiredBuckets now s)
    = MemoryRateLimitStore.globalLimit s
  ∧ (MemoryRateLimitStore.getAllBuckets now s).2
    = MemoryRateLimitStore.clearExpiredBuckets now s
  ∧ (∀ bucket,
       bucket ∈ (MemoryRateLimitStore.getAllBuckets now s).1
       ↔ ∃ bucketId,
           MemoryRateLimitStore.buckets s !! bucketId = Some bucket
           ∧ now <= RateLimitBucket.resetAt bucket)
  ∧ (∀ bucketId,
       (MemoryRateLimitStore.getBucket bucketId now
          (MemoryRateLimitStore.clearExpiredBuckets now s)).1
       = (MemoryRateLimitStore.getBucket bucketId now s).1).
Proof.
  unfold MemoryRateLimitStore.clearExpiredBuckets.
  split; [intros; apply sweep_lookup|].
  split; [reflexivity|]. split; [apply sweep_sweep|].
  split; [reflexivity|]. split; [reflexivity|]. split.
  - intros bucket. unfold MemoryRateLimitStore.getAllBuckets.
    cbn [fst]. rewrite list_elem_of_In, in_map_iff. split.
    + intros ([bucketId b] & Hb & Hin). simpl in Hb. subst b.
      apply list_elem_of_In, elem_of_map_to_list, sweep_lookup in Hin.
      by exists bucketId.
    + intros (bucketId & Hb). exists (bucketId, bucket). split; [done|].
      by apply list_elem_of_In, elem_of_map_to_list, sweep_lookup.
  - intros bucketId. rewrite !getBucket_result.
    destruct (MemoryRateLimitStore.buckets (MemoryRateLimitStore.sweep now s)
              !! bucketId) as [bucket|] eqn:E.
    + apply sweep_lookup in E as [-> Hn].
      by destruct (Z.gtb_spec now (RateLimitBucket.resetAt bucket)); [lia|].
    + destruct (MemoryRateLimitStore.buckets s !! bucketId) as [bucket|] eqn:E2;
        [|done].
      destruct (Z.gtb_spec now (RateLimitBucket.resetAt bucket)); [done|].
      assert (MemoryRateLimitStore.buckets (MemoryRateLimitStore.sweep now s)
              !! bucketId = Some bucket) as E3
        by (apply sweep_lookup; split; [done|lia]).
      congruence.
Qed.

Lemma sweep_keeps_the_live_buckets_witness :
  MemoryRateLimitStore.buckets
    (MemoryRateLimitStore.clearExpiredBuckets 5000
       (MemoryRateLimitStore.setBucket "b" old_bucket 100 empty_store))
  !! "b" = Some (RateLimitBucket.with_lastUsed 100 old_bucket).
Proof.
  destruct (sweep_keeps_the_live_buckets 5000
              (MemoryRateLimitStore.setBucket "b" old_bucket 100 empty_store))
    as (H & _).
  apply H. split; [reflexivity|simpl; lia].
Defined.

(** X17. Whatever reads and writes of buckets, of the global limit and of
    the counters are made on a store, none of [totalRequests],
    [successfulRequests], [rateLimitedRequests], [failedRequests] and
    [globalRateLimits] ever decreases, their sum grows by at most one for
    each call, and [lastReset] stays. *)
Theorem counters_never_decrease (ops : list store_op)
    (s : MemoryRateLimitStore.t) :
  counters_le (MemoryRateLimitStore.getMetrics s)
    (MemoryRateLimitStore.getMetrics (foldl store_step s ops))
  ∧ counted_events (MemoryRateLimitStore.getMetrics (foldl store_step s ops))
    <= counted_events (MemoryRateLimitStore.getMetrics s)
       + Z.of_nat (length ops)
  ∧ RateLimitMetrics.lastReset
      (MemoryRateLimitStore.getMetrics (foldl store_step s ops))
    = RateLimitMetrics.lastReset (MemoryRateLimitStore.getMetrics s).
Proof.
  unfold MemoryRateLimitStore.getMetrics.
  revert s. induction ops as [|op ops IH]; intros s.
  - unfold counters_le. simpl. lia.
  - simpl foldl. destruct (IH (store_step s op)) as (H1 & H2 & H3).
    destruct (metrics_store_step s op) as (G1 & G2 & G3).
    unfold counters_le in *. rewrite length_cons. repeat split; lia.
Qed.

(** X18. [destroy()] stops the sweeping timer, empties the bucket map,
    drops the global limit and resets the metrics; as the map is emptied
    before the metrics are reset, [bucketCount] is 0. Every later read
    returns [null] and changes nothing, and a second [destroy()] at the
    same time changes nothing. *)
Theorem destroy_empties_the_store (now : Z) (s : MemoryRateLimitStore.t) :
  MemoryRateLimitStore.getMetrics (MemoryRateLimitStore.destroy now s)
  = RateLimitMetrics.zero 0 now
  ∧ MemoryRateLimitStore.cleanupInterval (MemoryRateLimitStore.destroy now s)
    = false
  ∧ (∀ bucketId later,
       MemoryRateLimitStore.getBucket bucketId later
         (MemoryRateLimitStore.destroy now s)
       = (None, MemoryRateLimitStore.destroy now s))
  ∧ (∀ later,
       MemoryRateLimitStore.getAllBuckets later
         (MemoryRateLimitStore.destroy now s)
       = ([], MemoryRateLimitStore.destroy now s))
  ∧ (∀ later,
       MemoryRateLimitStore.getGlobalLimit later
         (MemoryRateLimitStore.destroy now s)
       = (None, MemoryRateLimitStore.destroy now s))
  ∧ MemoryRateLimitStore.destroy now (MemoryRateLimitStore.destroy now s)
    = MemoryRateLimitStore.destroy now s.
Proof.
  assert (MemoryRateLimitStore.destroy now s
          = {| MemoryRateLimitStore.buckets := ∅;
               MemoryRateLimitStore.globalLimit := None;
               MemoryRateLimitStore.metrics := RateLimitMetrics.zero 0 now;
               MemoryRateLimitStore.cleanupInterval := false;
               MemoryRateLimitStore.cleanupIntervalMs :=
                 MemoryRateLimitStore.cleanupIntervalMs s |}) as ->.
  { unfold MemoryRateLimitStore.destroy, MemoryRateLimitStore.resetMetrics,
      MemoryRateLimitStore.bucket_size. simpl. by rewrite map_size_empty. }
  split; [done|]. split; [done|]. split; [done|]. split.
  { intros later. unfold MemoryRateLimitStore.getAllBuckets,
      MemoryRateLimitStore.sweep, MemoryRateLimitStore.sync_bucketCount,
      MemoryRateLimitStore.bucket_size. simpl.
    rewrite map_filter_empty, map_to_list_empty, map_size_empty. done. }
  split; [done|].
  unfold MemoryRateLimitStore.destroy, MemoryRateLimitStore.resetMetrics,
    MemoryRateLimitStore.bucket_size. simpl. by rewrite map_size_empty.
Qed.

Section Endpoints.

Lemma startsWith_prefix p s :
  startsWith p s = true → ∃ r, s = p +:+ r.
Proof.
  revert s. induction p as [|c p IH]; intros s H.
  - by exists s.
  - destruct s as [|d s]; simpl in H; [done|].
    destruct (Ascii.eqb_spec c d) as [->|]; [|done].
    destruct (IH s H) as [r ->]. by exists r.
Qed.

Lemma startsWith_self_app p b : startsWith p (p +:+ b) = true.
Proof.
  induction p as [|c p IH]; [done|].
  change (String c p +:+ b) with (String c (p +:+ b)). simpl.
  by rewrite Ascii.eqb_refl.
Qed.

Lemma default_limit_of_unranked_endpoint url :
  (startsWith "GET/" url && includes "/audit-logs" url) = false →
  (RateLimitConfig.defaultLimit (getRateLimitConfig url) >? 5) = false.
Proof.
  intros E. unfold getRateLimitConfig, ENDPOINT_RATE_LIMITS. cbn [assoc].
  repeat match goal with
         | |- context [String.eqb url ?k] =>
             destruct (String.eqb_spec url k) as [->|_];
             [vm_compute in E; try discriminate; reflexivity|]
         end.
  reflexivity.
Qed.

Lemma getPriorityFromEndpoint_eq url :
  DiscordRateLimitOrchestrator.getPriorityFromEndpoint url
  = getRequestPriority url None.
Proof.
  unfold DiscordRateLimitOrchestrator.getPriorityFromEndpoint,
    getRequestPriority. cbv zeta.
  destruct (includes "/interactions/" url && includes "/callback" url);
    [done|].
  destruct (includes "/typing" url || startsWith "DELETE/" url); [done|].
  destruct (startsWith "POST/" url || startsWith "PUT/" url); [done|].
  destruct (startsWith "GET/" url && includes "/audit-logs" url) eqn:E;
    [done|].
  destruct (includes "/bulk-" url); [done|].
  by rewrite (default_limit_of_unranked_endpoint url E).
Qed.

Lemma getRequestPriority_range url :
  0 <= getRequestPriority url None <= 4
  ∧ (getRequestPriority url None = 0
     ↔ (includes "/interactions/" url && includes "/callback" url) = true).
Proof.
  unfold getRequestPriority.
  destruct (includes "/interactions/" url && includes "/callback" url);
    [split; [lia|done]|].
  destruct (includes "/typing" url || startsWith "DELETE/" url);
    [split; [lia|split; [lia|done]]|].
  destruct (startsWith "POST/" url || startsWith "PUT/" url);
    [split; [lia|split; [lia|done]]|].
  destruct (startsWith "GET/" url && includes "/audit-logs" url);
    [split; [lia|split; [lia|done]]|].
  destruct (includes "/bulk-" url); split; try lia; split; try lia; done.
Qed.

End Endpoints.

(** X19. [calculateBackoffDelay(retryCount, baseDelay)] for a count
    [retryCount] and a [baseDelay] that is not negative: the delay lies
    between 0 and 30000, does not shrink when [retryCount] grows, the delay
    of the next retry is twice the present one, capped at 30000, and the
    first delay is [baseDelay], capped. With a [baseDelay] of at least
    1000 the cap is reached from the fifth retry on. *)
Theorem backoff_doubles_up_to_the_cap (retryCount baseDelay : Z) :
  0 <= retryCount < 1023 → 0 <= baseDelay →
  0 <= calculateBackoffDelay retryCount baseDelay <= 30000
  ∧ calculateBackoffDelay retryCount baseDelay
    <= calculateBackoffDelay (retryCount + 1) baseDelay
  ∧ calculateBackoffDelay (retryCount + 1) baseDelay
    = Z.min (2 * calculateBackoffDelay retryCount baseDelay) 30000
  ∧ calculateBackoffDelay 0 baseDelay = Z.min baseDelay 30000
  ∧ (1000 <= baseDelay → 5 <= retryCount →
     calculateBackoffDelay retryCount baseDelay = 30000).
Proof.
  intros Hr Hb. unfold calculateBackoffDelay.
  rewrite Z.pow_add_r, Z.pow_1_r, Z.pow_0_r by lia.
  assert (0 < 2 ^ retryCount) as Hp by (apply Z.pow_pos_nonneg; lia).
  assert (0 <= baseDelay * 2 ^ retryCount) as Hm by nia.
  split; [lia|]. split; [nia|]. split; [nia|]. split; [f_equal; lia|].
  intros Hb' Hr'.
  assert (2 ^ 5 <= 2 ^ retryCount) as H5 by (apply Z.pow_le_mono_r; lia).
  change (2 ^ 5) with 32 in H5. nia.
Qed.

Lemma backoff_doubles_up_to_the_cap_witness :
  calculateBackoffDelay 6 1000 = 30000.
Proof.
  destruct (backoff_doubles_up_to_the_cap 6 1000 ltac:(lia) ltac:(lia))
    as (_ & _ & _ & _ & H).
  apply H; lia.
Defined.

(** X20. The orchestrator's [getPriorityFromEndpoint(url)] returns what
    [getRequestPriority(url)] of the configuration module returns: its
    last line, which looks at the endpoint's [defaultLimit], makes no
    difference, as the only endpoint configured with a limit above 5 is
    ranked LOW before that line is reached. The priority is one of
    0..4. *)
Theorem endpoint_priority_ignores_the_limit (url : string) :
  DiscordRateLimitOrchestrator.getPriorityFromEndpoint url
  = getRequestPriority url None
  ∧ 0 <= DiscordRateLimitOrchestrator.getPriorityFromEndpoint url <= 4.
Proof.
  rewrite getPriorityFromEndpoint_eq. split; [done|].
  apply getRequestPriority_range.
Qed.

(** X21. An endpoint for which [shouldUsePriorityQueue] answers [true]
    is ranked CRITICAL, HIGH or NORMAL by [getRequestPriority], never LOW
    or BULK. *)
Theorem priority_endpoints_rank_at_least_normal (endpoint : string) :
  shouldUsePriorityQueue endpoint = true →
  0 <= getRequestPriority endpoint None <= 2.
Proof.
  unfold shouldUsePriorityQueue. cbn [existsb]. rewrite orb_false_r.
  intros H. unfold getRequestPriority.
  destruct (includes "/interactions/" endpoint
            && includes "/callback" endpoint); [lia|].
  apply orb_true_iff in H as [H|H]; [|apply orb_true_iff in H as [H|H]];
    apply startsWith_prefix in H as [r ->].
  - rewrite (startsWith_app "POST/" "POST/interactions" r eq_refl).
    destruct (includes "/typing" _ || startsWith "DELETE/" _); [lia|].
    simpl. lia.
  - rewrite (includes_app "/typing" "POST/channels/:channel_id/typing" r
               eq_refl).
    simpl. lia.
  - rewrite (startsWith_app "DELETE/"
               "DELETE/channels/:channel_id/messages/:message_id" r eq_refl).
    rewrite orb_true_r. lia.
Qed.

Lemma priority_endpoints_rank_at_least_normal_witness :
  0 <= getRequestPriority "POST/interactions/1/token/callback" None <= 2.
Proof.
  apply (priority_endpoints_rank_at_least_normal
           "POST/interactions/1/token/callback").
  reflexivity.
Defined.

(** X22. [setGlobalLimit(limit)] at time [t0] counts one global rate
    limit, leaves the buckets alone and stores the limit with the deadline
    [t0 + limit.resetAfter]. [getGlobalLimit()] returns it up to and
    including the deadline and changes nothing; after the deadline it
    returns [null] and forgets the limit, so that every later read returns
    [null], whatever the clock says then. *)
Theorem global_limit_expires_after_its_deadline (limit : RateLimitInfo.t)
    (t0 now : Z) (s : MemoryRateLimitStore.t) :
  RateLimitMetrics.globalRateLimits
    (MemoryRateLimitStore.getMetrics
       (MemoryRateLimitStore.setGlobalLimit limit t0 s))
  = RateLimitMetrics.globalRateLimits (MemoryRateLimitStore.getMetrics s) + 1
  ∧ MemoryRateLimitStore.buckets (MemoryRateLimitStore.setGlobalLimit limit t0 s)
    = MemoryRateLimitStore.buckets s
  ∧ (now <= t0 + RateLimitInfo.resetAfter limit →
     MemoryRateLimitStore.getGlobalLimit now
       (MemoryRateLimitStore.setGlobalLimit limit t0 s)
     = (Some (RateLimitInfo.with_resetAfter
                (t0 + RateLimitInfo.resetAfter limit) limit),
        MemoryRateLimitStore.setGlobalLimit limit t0 s))
  ∧ (t0 + RateLimitInfo.resetAfter limit < now →
     (MemoryRateLimitStore.getGlobalLimit now
        (MemoryRateLimitStore.setGlobalLimit limit t0 s)).1 = None
     ∧ ∀ clock,
         (MemoryRateLimitStore.getGlobalLimit clock
            (MemoryRateLimitStore.getGlobalLimit now
               (MemoryRateLimitStore.setGlobalLimit limit t0 s)).2).1
         = None).
Proof.
  split; [unfold MemoryRateLimitStore.getMetrics; simpl; lia|].
  split; [done|].
  unfold MemoryRateLimitStore.getGlobalLimit.
  cbn [MemoryRateLimitStore.globalLimit MemoryRateLimitStore.setGlobalLimit
       MemoryRateLimitStore.with_metrics MemoryRateLimitStore.with_globalLimit
       RateLimitInfo.resetAfter RateLimitInfo.with_resetAfter].
  split; intros Hn;
    destruct (Z.gtb_spec now (t0 + RateLimitInfo.resetAfter limit)); try lia;
    done.
Qed.

Lemma global_limit_expires_after_its_deadline_witness :
  (MemoryRateLimitStore.getGlobalLimit 60000
     (MemoryRateLimitStore.setGlobalLimit global_minute 0 empty_store)).1
  = Some (RateLimitInfo.with_resetAfter 60000 global_minute)
  ∧ (MemoryRateLimitStore.getGlobalLimit 60001
       (MemoryRateLimitStore.setGlobalLimit global_minute 0 empty_store)).1
    = None.
Proof.
  destruct (global_limit_expires_after_its_deadline global_minute 0 60000
              empty_store) as (_ & _ & H1 & _).
  destruct (global_limit_expires_after_its_deadline global_minute 0 60001
              empty_store) as (_ & _ & _ & H2).
  split.
  - rewrite H1; [reflexivity|simpl; lia].
  - apply H2. simpl. lia.
Defined.

Section UrlPatterns.

Lemma digits_then_digits post ds b :
  all_digits ds = true → ds ≠ EmptyString →
  DiscordRateLimitMiddleware.digits_then post (ds +:+ post +:+ b) = true.
Proof.
  induction ds as [|c ds IH]; [done|]. intros Hd _.
  simpl in Hd. apply andb_true_iff in Hd as [Hc Hd].
  change (String c ds +:+ post +:+ b) with (String c (ds +:+ post +:+ b)).
  simpl. rewrite Hc. simpl.
  destruct ds as [|d ds].
  - change (EmptyString +:+ post +:+ b) with (post +:+ b).
    by rewrite startsWith_self_app.
  - rewrite IH by done. apply orb_true_r.
Qed.

Lemma after_prefix_self pre post s :
  DiscordRateLimitMiddleware.after_prefix pre post (pre +:+ s)
  = DiscordRateLimitMiddleware.digits_then post s.
Proof.
  induction pre as [|c pre IH]; [by destruct s|].
  change (String c pre +:+ s) with (String c (pre +:+ s)). simpl.
  by rewrite Ascii.eqb_refl.
Qed.

Lemma test_route_behind pre post a s :
  DiscordRateLimitMiddleware.after_prefix pre post s = true →
  DiscordRateLimitMiddleware.test_route pre post (a +:+ s) = true.
Proof.
  intros H. induction a as [|c a IH].
  - change (EmptyString +:+ s) with s. destruct s; simpl; by rewrite H.
  - change (String c a +:+ s) with (String c (a +:+ s)). simpl.
    rewrite IH. apply orb_true_r.
Qed.

Lemma test_route_match pre post a ds b :
  all_digits ds = true → ds ≠ EmptyString →
  DiscordRateLimitMiddleware.test_route pre post
    (a +:+ pre +:+ ds +:+ post +:+ b) = true.
Proof.
  intros Hd Hne. apply test_route_behind.
  rewrite after_prefix_self. by apply digits_then_digits.
Qed.

End UrlPatterns.

(** X23. A request without [bucketId] whose URL contains
    [/channels/<digits>/messages] gets the bucket id
    [bucket:/channels/\d+/messages:<method>], whatever the digits are and
    whatever surrounds them: requests of one method to the messages of
    different channels share one bucket. *)
Theorem channel_messages_share_one_bucket (request : QueuedRequest)
    (before channel rest : string) :
  truthy (bucketId request) = None →
  url request = before +:+ "/channels/" +:+ channel +:+ "/messages" +:+ rest →
  all_digits channel = true → channel ≠ EmptyString →
  DiscordRateLimitMiddleware.extractUrlPattern (url request)
  = Some "/channels/\d+/messages"
  ∧ DiscordRateLimitMiddleware.extractBucketIdFromRequest request
    = Some ("bucket:/channels/\d+/messages:" +:+ method request).
Proof.
  intros Hb Hu Hd Hne.
  assert (DiscordRateLimitMiddleware.extractUrlPattern (url request)
          = Some "/channels/\d+/messages") as Hp.
  { unfold DiscordRateLimitMiddleware.extractUrlPattern.
    by rewrite Hu, (test_route_match "/channels/" "/messages"). }
  split; [done|].
  unfold DiscordRateLimitMiddleware.extractBucketIdFromRequest.
  by rewrite Hb, Hp.
Qed.

Lemma channel_messages_share_one_bucket_witness :
  DiscordRateLimitMiddleware.extractBucketIdFromRequest request_A
  = Some "bucket:/channels/\d+/messages:POST".
Proof.
  destruct (channel_messages_share_one_bucket request_A
              "https://discord.com/api/v9" "123" "") as [_ H].
  - reflexivity.
  - reflexivity.
  - reflexivity.
  - discriminate.
  - exact H.
Defined.

Section Execution.

Implicit Types (m : DiscordRateLimitMiddleware.t) (h : Heap)
  (request : QueuedRequest).

Lemma shouldRetry_budget error request :
  DiscordRateLimitMiddleware.shouldRetry error request = true →
  retryCount request < maxRetries request.
Proof.
  unfold DiscordRateLimitMiddleware.shouldRetry.
  destruct (Z.geb_spec (retryCount request) (maxRetries request));
    [done|lia].
Qed.

Lemma enqueue_heap request q h :
  ∃ st, (PriorityQueue.enqueue request q h).1.2 = h ++ [st].
Proof.
  unfold PriorityQueue.enqueue.
  destruct (_ >=? _); [by eexists|].
  destruct (PriorityQueue.get _ _); by eexists.
Qed.

Lemma retryRequest_shape request m h :
  let '(result, request', m', h') :=
    DiscordRateLimitMiddleware.retryRequest request m h in
  DiscordRateLimitMiddleware.store m' = DiscordRateLimitMiddleware.store m
  ∧ match result with
    | Returns _ => False
    | Throws error =>
        maxRetries request < retryCount request + 1
        ∧ error = mkError ("Request failed after "
                           +:+ string_of_Z (maxRetries request) +:+ " retries")
        ∧ request' = set_retryCount (retryCount request + 1) request
        ∧ m' = m ∧ h' = h
    | Requeued p => requeued_by request m h p request' m' h'
    end.
Proof.
  unfold DiscordRateLimitMiddleware.retryRequest, requeued_by.
  cbn [retryCount maxRetries set_retryCount].
  destruct (Z.gtb_spec (retryCount request + 1) (maxRetries request)).
  - repeat split; lia.
  - destruct (PriorityQueue.enqueue _ _ h) as [[q h'] p].
    split; [done|]. split; [lia|]. done.
Qed.

Lemma requeued_by_same_queue request m0 m h p request' m' h' :
  DiscordRateLimitMiddleware.queue m0 = DiscordRateLimitMiddleware.queue m →
  requeued_by request m0 h p request' m' h' →
  requeued_by request m h p request' m' h'.
Proof. unfold requeued_by. by intros ->. Qed.

Lemma executeRequest_rate_limited request response now m h :
  status response = 429 →
  let '(result, request', m', h') :=
    DiscordRateLimitMiddleware.executeRequest request (Responded response)
      now m h in
  match result with
  | Returns _ => False
  | Throws error =>
      maxRetries request < retryCount request + 1
      ∧ error = mkError ("Request failed after "
                         +:+ string_of_Z (maxRetries request) +:+ " retries")
      ∧ request' = set_retryCount (retryCount request + 1) request
      ∧ h' = h
      ∧ DiscordRateLimitMiddleware.queue m' = DiscordRateLimitMiddleware.queue m
  | Requeued p => requeued_by request m h p request' m' h'
  end.
Proof.
  intros Hs. unfold DiscordRateLimitMiddleware.executeRequest.
  set (m1 := match ex_bucket _ with Some _ => _ | None => _ end).
  assert (DiscordRateLimitMiddleware.queue m1
          = DiscordRateLimitMiddleware.queue m) as Hq1.
  { unfold m1. by destruct (ex_bucket _). }
  clearbody m1.
  destruct (Z.eqb_spec (status response) 429) as [E|E]; [|done].
  pose proof (retryRequest_shape request
                (DiscordRateLimitMiddleware.handleRateLimitResponse
                   request response now m1) h) as H.
  pose proof (queue_handleRateLimitResponse request response now m1) as Hq2.
  destruct (DiscordRateLimitMiddleware.retryRequest _ _ _)
    as [[[result request'] m'] h'].
  destruct H as (_ & H). destruct result as [v|e|p]; [done| |].
  - destruct H as (? & -> & -> & -> & ->). repeat split; [done|congruence].
  - eapply requeued_by_same_queue; [|exact H]. congruence.
Qed.

Lemma requeued_by_promise request m h p request' m' h' :
  requeued_by request m h p request' m' h' →
  p = length h
  ∧ (∃ st, h' = h ++ [st])
  ∧ maxRetries request' = maxRetries request
  ∧ retryCount request' = retryCount request + 1
  ∧ retryCount request' <= maxRetries request.
Proof.
  intros (Hr & He & ->).
  pose proof (enqueue_promise
                (set_retryCount (retryCount request + 1) request)
                (DiscordRateLimitMiddleware.queue m) h) as [Hp _].
  pose proof (enqueue_heap
                (set_retryCount (retryCount request + 1) request)
                (DiscordRateLimitMiddleware.queue m) h) as Hh.
  rewrite He in Hp, Hh. simpl in Hp, Hh.
  unfold PriorityQueue.enqueued.
  destruct (_ >=? _); simpl; repeat split; try done; lia.
Qed.

Lemma executeRequest_catch_shape error request m h :
  let '(result, request', m', h') :=
    DiscordRateLimitMiddleware.executeRequest_catch error request m h in
  DiscordRateLimitMiddleware.store m'
  = MemoryRateLimitStore.incrementMetric RateLimitMetrics.FailedRequests
      (DiscordRateLimitMiddleware.store m)
  ∧ match result with
    | Returns _ => False
    | Throws _ =>
        request' = request ∧ h' = h
        ∧ DiscordRateLimitMiddleware.queue m'
          = DiscordRateLimitMiddleware.queue m
    | Requeued p => requeued_by request m h p request' m' h'
    end.
Proof.
  unfold DiscordRateLimitMiddleware.executeRequest_catch.
  destruct (DiscordRateLimitMiddleware.shouldRetry error request) eqn:E;
    [|done].
  apply shouldRetry_budget in E.
  pose proof (retryRequest_shape request
                (DiscordRateLimitMiddleware.count
                   RateLimitMetrics.FailedRequests m) h) as H.
  destruct (DiscordRateLimitMiddleware.retryRequest _ _ _)
    as [[[result request'] m'] h'].
  destruct H as (Hs & H). split; [done|].
  destruct result as [v|e|p]; [done| |].
  - destruct H as (? & _). lia.
  - by eapply requeued_by_same_queue; [|exact H].
Qed.

End Execution.

Section ExecuteRequest.

Implicit Types (m : DiscordRateLimitMiddleware.t) (h : Heap)
  (request : QueuedRequest).

Lemma executeRequest_shape request outcome now m h :
  let '(result, request', m', h') :=
    DiscordRateLimitMiddleware.executeRequest request outcome now m h in
  match result with
  | Returns v =>
      request' = request ∧ h' = h
      ∧ ∃ response,
          outcome = Responded response ∧ 200 <= status response < 300
          ∧ v = data response
  | Throws error =>
      h' = h
      ∧ DiscordRateLimitMiddleware.queue m' = DiscordRateLimitMiddleware.queue m
      ∧ (request' = request
         ∨ request' = set_retryCount (retryCount request + 1) request
           ∧ maxRetries request < retryCount request + 1
           ∧ error = mkError ("Request failed after "
                              +:+ string_of_Z (maxRetries request)
                              +:+ " retries")
           ∧ ∃ response,
               outcome = Responded response ∧ status response = 429)
  | Requeued p => requeued_by request m h p request' m' h'
  end.
Proof.
  assert (∀ error m0,
    DiscordRateLimitMiddleware.queue m0 = DiscordRateLimitMiddleware.queue m →
    let '(result, request', m', h') :=
      DiscordRateLimitMiddleware.executeRequest_catch error request m0 h in
    match result with
    | Returns v => False
    | Throws _ =>
        h' = h ∧ request' = request
        ∧ DiscordRateLimitMiddleware.queue m'
          = DiscordRateLimitMiddleware.queue m
    | Requeued p => requeued_by request m h p request' m' h'
    end) as Hcatch.
  { intros error m0 Hq.
    pose proof (executeRequest_catch_shape error request m0 h) as H.
    destruct (DiscordRateLimitMiddleware.executeRequest_catch _ _ _ _)
      as [[[result request'] m'] h'].
    destruct H as [_ H]. destruct result; [done| |].
    - destruct H as (? & ? & ?). split; [done|]. split; [done|congruence].
    - by eapply requeued_by_same_queue; [|exact H]. }
  unfold DiscordRateLimitMiddleware.executeRequest.
  destruct outcome as [response|error|].
  - set (m1 := match ex_bucket _ with Some _ => _ | None => _ end).
    assert (DiscordRateLimitMiddleware.queue m1
            = DiscordRateLimitMiddleware.queue m) as Hq1.
    { unfold m1. by destruct (ex_bucket _). }
    clearbody m1.
    destruct (Z.eqb_spec (status response) 429) as [E|E].
    + pose proof (retryRequest_shape request
                    (DiscordRateLimitMiddleware.handleRateLimitResponse
                       request response now m1) h) as H.
      pose proof (queue_handleRateLimitResponse request response now m1)
        as Hq2.
      destruct (DiscordRateLimitMiddleware.retryRequest _ _ _)
        as [[[result request'] m'] h'].
      destruct H as (_ & H). destruct result as [v|e|p]; [done| |].
      * destruct H as (? & -> & -> & -> & ->). split; [done|].
        split; [congruence|]. right. eauto 10.
      * eapply requeued_by_same_queue; [|exact H]. congruence.
    + destruct (Z.leb_spec 200 (status response)),
        (Z.ltb_spec (status response) 300); cbn [andb].
      2-4: match goal with
           | |- context [DiscordRateLimitMiddleware.executeRequest_catch
                           ?e ?r ?m0 ?hh] =>
               specialize (Hcatch e m0 Hq1);
               destruct (DiscordRateLimitMiddleware.executeRequest_catch
                           e r m0 hh) as [[[result request'] m'] h']
           end;
           (destruct result as [v|e|p]; [done| |done]);
           destruct Hcatch as (-> & -> & ?); split; [done|];
           split; [done|by left].
      split; [done|]. split; [done|]. exists response. by repeat split.
  - specialize (Hcatch error m eq_refl).
    destruct (DiscordRateLimitMiddleware.executeRequest_catch _ _ _ _)
      as [[[result request'] m'] h'].
    destruct result as [v|e|p]; [done| |done].
    destruct Hcatch as (-> & -> & ?). split; [done|]. split; [done|by left].
  - specialize (Hcatch (DiscordRateLimitMiddleware.timeout_error m) m eq_refl).
    destruct (DiscordRateLimitMiddleware.executeRequest_catch _ _ _ _)
      as [[[result request'] m'] h'].
    destruct result as [v|e|p]; [done| |done].
    destruct Hcatch as (-> & -> & ?). split; [done|]. split; [done|by left].
Qed.

End ExecuteRequest.

(** X24. However the transport call ends, [executeRequest] leaves
    [maxRetries] alone and raises [retryCount] by at most one; when it
    queues the request again, [retryCount] has been raised by one and is
    not above [maxRetries], and the promise handed back is the new one of
    that [enqueue] call; a request whose [retryCount] has reached
    [maxRetries] is never queued again. *)
Theorem retries_stay_within_maxRetries (request : QueuedRequest)
    (outcome : TransportOutcome) (now : Z)
    (m : DiscordRateLimitMiddleware.t) (h : Heap) :
  let '(result, request', m', h') :=
    DiscordRateLimitMiddleware.executeRequest request outcome now m h in
  maxRetries request' = maxRetries request
  ∧ (retryCount request' = retryCount request
     ∨ retryCount request' = retryCount request + 1)
  ∧ (∀ p, result = Requeued p →
          p = length h
          ∧ retryCount request' = retryCount request + 1
          ∧ retryCount request' <= maxRetries request)
  ∧ (maxRetries request <= retryCount request →
     ∀ p, result ≠ Requeued p).
Proof.
  pose proof (executeRequest_shape request outcome now m h) as H.
  destruct (DiscordRateLimitMiddleware.executeRequest request outcome now m h)
    as [[[result request'] m'] h'].
  destruct result as [v|e|p].
  - destruct H as (-> & _).
    split; [done|]. split; [by left|]. split; [done|]. by intros.
  - destruct H as (_ & _ & [->|(-> & _)]).
    + split; [done|]. split; [by left|]. split; [done|]. by intros.
    + split; [done|]. split; [by right|]. split; [done|]. by intros.
  - pose proof H as (Hr & _).
    apply requeued_by_promise in H as (-> & _ & Hm & Hc & Hle).
    split; [done|]. split; [by right|]. split.
    + intros p' [= <-]. done.
    + intros Hx. lia.
Qed.

Lemma retries_stay_within_maxRetries_witness :
  retryCount
    (DiscordRateLimitMiddleware.executeRequest request_A
       (Failed (mkError "timeout")) 5
       (DiscordRateLimitMiddleware.new empty_store) []).1.1.2
  = 1.
Proof.
  pose proof (retries_stay_within_maxRetries request_A
                (Failed (mkError "timeout")) 5
                (DiscordRateLimitMiddleware.new empty_store) []) as H.
  destruct (DiscordRateLimitMiddleware.executeRequest _ _ _ _ _)
    as [[[result request'] m'] h'] eqn:E.
  vm_compute in E. injection E as <- _ _ _.
  destruct H as (_ & _ & H & _).
  destruct (H 0%nat eq_refl) as (_ & Hr & _). exact Hr.
Defined.

(** X25. [executeRequest] returns a value exactly when the transport
    call ends with a response whose status is in 200..299, and the value
    is the [data] of that response; the request and the promises are then
    as they were and nothing is queued. *)
Theorem only_a_2xx_response_resolves (request : QueuedRequest)
    (outcome : TransportOutcome) (now : Z)
    (m : DiscordRateLimitMiddleware.t) (h : Heap) (v : option ResponseData) :
  ((DiscordRateLimitMiddleware.executeRequest request outcome now m h).1.1.1
   = Returns v
   ↔ ∃ response,
       outcome = Responded response ∧ 200 <= status response < 300
       ∧ v = data response)
  ∧ ((DiscordRateLimitMiddleware.executeRequest request outcome now m h).1.1.1
     = Returns v →
     (DiscordRateLimitMiddleware.executeRequest request outcome now m h).1.1.2
     = request
     ∧ (DiscordRateLimitMiddleware.executeRequest request outcome now m h).2
       = h
     ∧ DiscordRateLimitMiddleware.queue
         (DiscordRateLimitMiddleware.executeRequest request outcome now m h).1.2
       = DiscordRateLimitMiddleware.queue m).
Proof.
  split.
  - split.
    + intros E.
      pose proof (executeRequest_shape request outcome now m h) as H.
      destruct (DiscordRateLimitMiddleware.executeRequest _ _ _ _ _)
        as [[[result request'] m'] h'].
      simpl in E. subst result. by destruct H as (_ & _ & H).
    + intros (response & -> & Hs & ->).
      unfold DiscordRateLimitMiddleware.executeRequest.
      destruct (Z.eqb_spec (status response) 429); [lia|].
      destruct (Z.leb_spec 200 (status response)); [|lia].
      by destruct (Z.ltb_spec (status response) 300); [|lia].
  - intros E.
    pose proof (executeRequest_shape request outcome now m h) as H.
    destruct (DiscordRateLimitMiddleware.executeRequest _ _ _ _ _)
      as [[[result request'] m'] h'] eqn:Ex.
    simpl in E. subst result.
    destruct H as (-> & -> & response & -> & Hs & ->).
    split; [done|]. split; [done|]. simpl.
    unfold DiscordRateLimitMiddleware.executeRequest in Ex.
    destruct (Z.eqb_spec (status response) 429); [lia|].
    destruct (Z.leb_spec 200 (status response)); [|lia].
    destruct (Z.ltb_spec (status response) 300); [|lia].
    simpl in Ex. injection Ex as <-.
    by destruct (extractBucketId (headers response)).
Qed.

Lemma only_a_2xx_response_resolves_witness :
  (DiscordRateLimitMiddleware.executeRequest request_A (Responded ok_response)
     5 (DiscordRateLimitMiddleware.new empty_store) []).1.1.1
  = Returns (data ok_response).
Proof.
  destruct (only_a_2xx_response_resolves request_A (Responded ok_response) 5
              (DiscordRateLimitMiddleware.new empty_store) []
              (data ok_response)) as [[_ H] _].
  apply H. exists ok_response. split; [reflexivity|].
  split; [simpl; lia|reflexivity].
Defined.

(** X26. A response that carries no rate-limit bucket and whose status
    is neither 429 nor in 200..299 raises [failedRequests] by two: once
    before the error is thrown and once more in the [catch] block that
    receives it, whether or not the request is then retried. A transport
    failure or a timeout raises it by one. *)
Theorem error_response_counts_two_failures (request : QueuedRequest)
    (response : HttpResponse) (now : Z)
    (m : DiscordRateLimitMiddleware.t) (h : Heap) :
  extractBucketId (headers response) = None →
  status response ≠ 429 → ¬ (200 <= status response < 300) →
  RateLimitMetrics.failedRequests
    (MemoryRateLimitStore.getMetrics
       (DiscordRateLimitMiddleware.store
          (DiscordRateLimitMiddleware.executeRequest request
             (Responded response) now m h).1.2))
  = RateLimitMetrics.failedRequests
      (MemoryRateLimitStore.getMetrics (DiscordRateLimitMiddleware.store m))
    + 2
  ∧ (∀ error,
       RateLimitMetrics.failedRequests
         (MemoryRateLimitStore.getMetrics
            (DiscordRateLimitMiddleware.store
               (DiscordRateLimitMiddleware.executeRequest request
                  (Failed error) now m h).1.2))
       = RateLimitMetrics.failedRequests
           (MemoryRateLimitStore.getMetrics
              (DiscordRateLimitMiddleware.store m))
         + 1)
  ∧ RateLimitMetrics.failedRequests
      (MemoryRateLimitStore.getMetrics
         (DiscordRateLimitMiddleware.store
            (DiscordRateLimitMiddleware.executeRequest request
               TimedOut now m h).1.2))
    = RateLimitMetrics.failedRequests
        (MemoryRateLimitStore.getMetrics (DiscordRateLimitMiddleware.store m))
      + 1.
Proof.
  intros Hb H429 H2xx.
  assert (∀ error m0,
    RateLimitMetrics.failedRequests
      (MemoryRateLimitStore.getMetrics
         (DiscordRateLimitMiddleware.store
            (DiscordRateLimitMiddleware.executeRequest_catch error request
               m0 h).1.2))
    = RateLimitMetrics.failedRequests
        (MemoryRateLimitStore.getMetrics (DiscordRateLimitMiddleware.store m0))
      + 1) as Hcatch.
  { intros error m0.
    pose proof (executeRequest_catch_shape error request m0 h) as H.
    destruct (DiscordRateLimitMiddleware.executeRequest_catch _ _ _ _)
      as [[[result request'] m'] h'].
    destruct H as [Hs _]. simpl. rewrite Hs. done. }
  split; [|split].
  - unfold DiscordRateLimitMiddleware.executeRequest.
    cbn [ex_bucket extractRateLimitInfo]. rewrite Hb.
    destruct (Z.eqb_spec (status response) 429); [done|].
    assert (((200 <=? status response) && (status response <? 300)) = false)
      as ->.
    { destruct (Z.leb_spec 200 (status response)),
        (Z.ltb_spec (status response) 300); simpl; try done. lia. }
    rewrite Hcatch. unfold MemoryRateLimitStore.getMetrics. simpl. lia.
  - intros error. apply Hcatch.
  - apply Hcatch.
Qed.

Lemma error_response_counts_two_failures_witness :
  RateLimitMetrics.failedRequests
    (MemoryRateLimitStore.getMetrics
       (DiscordRateLimitMiddleware.store
          (DiscordRateLimitMiddleware.executeRequest request_A
             (Responded not_found_response) 5
             (DiscordRateLimitMiddleware.new empty_store) []).1.2))
  = 2.
Proof.
  destruct (error_response_counts_two_failures request_A not_found_response 5
              (DiscordRateLimitMiddleware.new empty_store) []) as [H _].
  - reflexivity.
  - simpl. lia.
  - simpl. lia.
  - rewrite H. reflexivity.
Defined.

Section Requeue.

Implicit Types (q : PriorityQueue.t) (h : Heap) (request : QueuedRequest).

Lemma enqueue_refused request q h :
  PriorityQueue.totalSize q >= PriorityQueue.maxSize q →
  PriorityQueue.enqueue request q h
  = (q, h ++ [Rejected PriorityQueue.queue_full], length h)
  ∧ PriorityQueue.enqueued request q h = request.
Proof.
  intros Hfull. unfold PriorityQueue.enqueue, PriorityQueue.enqueued.
  by destruct (Z.geb_spec (PriorityQueue.totalSize q) (PriorityQueue.maxSize q));
    [|lia].
Qed.

Lemma enqueue_room request q h :
  PriorityQueue.totalSize q < PriorityQueue.maxSize q →
  PriorityQueue.enqueued request q h
  = set_settlers (PromiseFn (length h)) request
  ∧ ∃ q' st,
      PriorityQueue.enqueue request q h = (q', h ++ [st], length h)
      ∧ (st = Pending
         ∨ st = Rejected (PriorityQueue.invalid_priority (priority request))).
Proof.
  intros Hroom. unfold PriorityQueue.enqueue, PriorityQueue.enqueued.
  destruct (Z.geb_spec (PriorityQueue.totalSize q) (PriorityQueue.maxSize q));
    [lia|].
  split; [done|].
  change (priority (set_settlers (PromiseFn (fresh h)) request))
    with (priority request).
  destruct (PriorityQueue.get (priority request) q); eauto.
Qed.

Lemma enqueue_stored request q h :
  length (PriorityQueue.queues q) = 5%nat →
  PriorityQueue.totalSize q < PriorityQueue.maxSize q →
  0 <= priority request <= 4 →
  ∃ q',
    PriorityQueue.enqueue request q h = (q', h ++ [Pending], length h)
    ∧ PriorityQueue.totalSize q' = PriorityQueue.totalSize q + 1
    ∧ ∃ tier,
        PriorityQueue.get (priority request) q' = Some tier
        ∧ set_settlers (PromiseFn (length h)) request ∈ tier.
Proof.
  intros HL Hroom Hp. unfold PriorityQueue.enqueue.
  destruct (Z.geb_spec (PriorityQueue.totalSize q) (PriorityQueue.maxSize q));
    [lia|].
  change (priority (set_settlers (PromiseFn (fresh h)) request))
    with (priority request).
  destruct (PriorityQueue.get (priority request) q) as [queue|] eqn:G.
  2:{ apply get_None in G; [lia|done]. }
  pose proof G as [_ G']%get_Some.
  eexists. split; [done|]. split; [done|].
  eexists. split.
  - unfold PriorityQueue.get. simpl.
    destruct (Z.leb_spec 0 (priority request)); [|lia].
    apply list_lookup_insert_eq. by eapply lookup_lt_Some.
  - apply elem_of_sort, elem_of_app. right. by apply list_elem_of_singleton.
Qed.

End Requeue.

(** X27. The queue loop and the requests it dispatches. A turn that
    takes a request from the queue and finds it executable hands it to
    [executeRequest] and changes no promise. When the transport call of
    a dispatched request ends, at whatever time, the promise the request
    carries is settled, and only that one: fulfilled with the value
    [executeRequest] returns, rejected with the error it throws. When
    [executeRequest] calls [enqueue] for the request instead and the
    queue is full, the new promise and the one the request carries are
    both rejected with "Rate limit queue is full"; when the queue is not
    full, the promise the request carried stays pending. *)
Theorem completion_settles_the_carried_promise (request : QueuedRequest)
    (outcome : TransportOutcome) (now : Z)
    (m : DiscordRateLimitMiddleware.t) (h : Heap) (p : nat) :
  resolve request = PromiseFn p → reject request = PromiseFn p →
  h !! p = Some Pending →
  (∀ earlier m0 q m1 h0,
     DiscordRateLimitMiddleware.processing m0 = true →
     PriorityQueue.dequeue (DiscordRateLimitMiddleware.queue m0)
     = (Some request, q) →
     DiscordRateLimitMiddleware.canExecuteRequest request earlier
       (DiscordRateLimitMiddleware.with_queue q m0) = (true, m1) →
     DiscordRateLimitMiddleware.processQueue_turn earlier m0 h0
     = (Some request, m1, h0))
  ∧ let '(result, request', m2, h2) :=
      DiscordRateLimitMiddleware.executeRequest request outcome now m h in
    let '(m', h') :=
      DiscordRateLimitMiddleware.processQueue_completion request outcome
        now m h in
    m' = m2
    ∧ match result with
      | Returns value => h' = <[p := Fulfilled value]> h
      | Throws error => h' = <[p := Rejected error]> h
      | Requeued _ =>
          if PriorityQueue.totalSize (DiscordRateLimitMiddleware.queue m)
             >=? PriorityQueue.maxSize (DiscordRateLimitMiddleware.queue m)
          then h' = <[p := Rejected (mkError "Rate limit queue is full")]>
                      (h ++ [Rejected (mkError "Rate limit queue is full")])
          else h' = h2 ∧ h' !! p = Some Pending
      end.
Proof.
  intros Hres Hrej Hh. split.
  { intros earlier m0 q m1 h0 Hp Hd Hc.
    unfold DiscordRateLimitMiddleware.processQueue_turn.
    rewrite Hp, Hd. cbn [negb]. by rewrite Hc. }
  pose proof (executeRequest_shape request outcome now m h) as H.
  unfold DiscordRateLimitMiddleware.processQueue_completion.
  destruct (DiscordRateLimitMiddleware.executeRequest request outcome now m h)
    as [[[result request'] m2] h2].
  destruct result as [v|e|p'].
  - destruct H as (-> & -> & _). split; [done|].
    rewrite Hres. simpl. by rewrite Hh.
  - destruct H as (-> & _ & [->|(-> & _)]); (split; [done|]);
      cbn [reject set_retryCount]; rewrite Hrej; simpl; by rewrite Hh.
  - destruct H as (Hr & He & ->).
    destruct (Z.geb_spec
                (PriorityQueue.totalSize (DiscordRateLimitMiddleware.queue m))
                (PriorityQueue.maxSize (DiscordRateLimitMiddleware.queue m)))
      as [Hfull|Hroom].
    + destruct (enqueue_refused
                  (set_retryCount (retryCount request + 1) request)
                  (DiscordRateLimitMiddleware.queue m) h ltac:(lia))
        as [E1 E2].
      rewrite E1 in He. injection He as _ <- <-. rewrite E2.
      rewrite lookup_app_r, Nat.sub_diag by done. simpl.
      cbn [reject set_retryCount]. rewrite Hrej. simpl.
      by rewrite (lookup_app_l_Some _ _ _ _ Hh).
    + destruct (enqueue_room
                  (set_retryCount (retryCount request + 1) request)
                  (DiscordRateLimitMiddleware.queue m) h ltac:(lia))
        as (E2 & q' & st & E1 & Hst).
      rewrite E1 in He. injection He as _ <- <-. rewrite E2.
      rewrite lookup_app_r, Nat.sub_diag by done. simpl.
      destruct Hst as [-> | ->].
      * split; [done|]. split; [done|]. by apply lookup_app_l_Some.
      * split; [done|]. simpl.
        rewrite lookup_app_r, Nat.sub_diag by done. simpl.
        split; [done|]. by apply lookup_app_l_Some.
Qed.

Lemma completion_settles_the_carried_promise_witness :
  (DiscordRateLimitMiddleware.processQueue_turn 5 queued_middleware
     [Pending]).1.1
  = Some (set_settlers (PromiseFn 0) request_A)
  ∧ (DiscordRateLimitMiddleware.processQueue_completion
       (set_settlers (PromiseFn 0) request_A) (Responded ok_response) 5
       (DiscordRateLimitMiddleware.new empty_store) [Pending]).2
    = [Fulfilled (data ok_response)].
Proof.
  destruct (completion_settles_the_carried_promise
              (set_settlers (PromiseFn 0) request_A) (Responded ok_response) 5
              (DiscordRateLimitMiddleware.new empty_store) [Pending] 0%nat
              eq_refl eq_refl eq_refl) as [Hturn H].
  split.
  - destruct (PriorityQueue.dequeue
                (DiscordRateLimitMiddleware.queue queued_middleware))
      as [d q] eqn:Hd.
    assert (d = Some (set_settlers (PromiseFn 0) request_A)) as ->.
    { pose proof Hd as E. vm_compute in E. by injection E as <- _. }
    assert (q = (PriorityQueue.dequeue
                   (DiscordRateLimitMiddleware.queue queued_middleware)).2)
      as Hq by (by rewrite Hd).
    destruct (DiscordRateLimitMiddleware.canExecuteRequest
                (set_settlers (PromiseFn 0) request_A) 5
                (DiscordRateLimitMiddleware.with_queue q queued_middleware))
      as [c m1] eqn:Hc.
    assert (c = true) as ->.
    { pose proof Hc as E. rewrite Hq in E. vm_compute in E.
      by injection E as <- _. }
    by rewrite (Hturn 5 queued_middleware q m1 [Pending] eq_refl Hd Hc).
  - destruct (DiscordRateLimitMiddleware.executeRequest _ _ _ _ _)
      as [[[result request'] m2] h2] eqn:E.
    destruct (DiscordRateLimitMiddleware.processQueue_completion _ _ _ _ _)
      as [m' h'].
    destruct H as [_ H]. vm_compute in E. injection E as <- _ _ _.
    exact H.
Defined.

Section Defaults.

Lemma or_default_nonzero given default :
  default ≠ 0 → DiscordRateLimitOrchestrator.or_default given default ≠ 0.
Proof.
  unfold DiscordRateLimitOrchestrator.or_default.
  by destruct (Z.eqb_spec given 0).
Qed.

Lemma dequeue_cleared (q : PriorityQueue.t) :
  PriorityQueue.dequeue
    (PriorityQueue.with_queues (map (fun _ => []) (PriorityQueue.queues q)) 0 q)
  = (None,
     PriorityQueue.with_queues (map (fun _ => []) (PriorityQueue.queues q)) 0 q).
Proof.
  unfold PriorityQueue.dequeue.
  induction PriorityQueue.tiers as [|p ps IH]; simpl; [done|].
  unfold PriorityQueue.get at 1. simpl.
  destruct (0 <=? p); [|done].
  rewrite list_lookup_fmap.
  by destruct (PriorityQueue.queues q !! Z.to_nat p).
Qed.

Lemma destroy_record now (s : MemoryRateLimitStore.t) :
  MemoryRateLimitStore.destroy now s
  = {| MemoryRateLimitStore.buckets := ∅;
       MemoryRateLimitStore.globalLimit := None;
       MemoryRateLimitStore.metrics := RateLimitMetrics.zero 0 now;
       MemoryRateLimitStore.cleanupInterval := false;
       MemoryRateLimitStore.cleanupIntervalMs :=
         MemoryRateLimitStore.cleanupIntervalMs s |}.
Proof.
  unfold MemoryRateLimitStore.destroy, MemoryRateLimitStore.resetMetrics,
    MemoryRateLimitStore.bucket_size. simpl. by rewrite map_size_empty.
Qed.

Lemma fill_defaults_eq (cfg : DiscordRateLimitOrchestrator.Config)
    (request : QueuedRequest) :
  DiscordRateLimitOrchestrator.fill_defaults cfg request
  = set_timeout
      (Some match timeout request with
            | Some n =>
                if n =? 0
                then DiscordRateLimitOrchestrator.or_default
                       (DiscordRateLimitOrchestrator.cfg_requestTimeout cfg)
                       (RateLimitConfig.requestTimeout DEFAULT_RATE_LIMIT_CONFIG)
                else n
            | None =>
                DiscordRateLimitOrchestrator.or_default
                  (DiscordRateLimitOrchestrator.cfg_requestTimeout cfg)
                  (RateLimitConfig.requestTimeout DEFAULT_RATE_LIMIT_CONFIG)
            end)
      (set_maxRetries
         (if maxRetries request =? 0
          then DiscordRateLimitOrchestrator.or_default
                 (DiscordRateLimitOrchestrator.cfg_maxRetries cfg)
                 (RateLimitConfig.maxRetries DEFAULT_RATE_LIMIT_CONFIG)
          else maxRetries request)
         (set_priority
            (if priority request =? 0
             then getRequestPriority (url request) None
             else priority request)
            request)).
Proof.
  unfold DiscordRateLimitOrchestrator.fill_defaults.
  rewrite getPriorityFromEndpoint_eq.
  generalize (getRequestPriority (url request) None). intros ranked.
  destruct request as [id0 url0 method0 priority0 timestamp0 retryCount0
                         maxRetries0 timeout0 resolve0 reject0 bucketId0].
  cbn [priority maxRetries timeout].
  destruct (priority0 =? 0);
    cbn [priority maxRetries timeout set_priority set_maxRetries];
    destruct (maxRetries0 =? 0);
    cbn [priority maxRetries timeout set_priority set_maxRetries];
    destruct timeout0 as [n|]; try destruct (n =? 0); reflexivity.
Qed.

End Defaults.

(** X28. The defaults that the orchestrator's [enqueue] fills in. A
    request leaves with a [maxRetries] other than 0 and a [timeout] other
    than 0; a [maxRetries] that was given is kept. A [priority] other than
    0 is kept; a [priority] of 0, which is CRITICAL, counts as not given
    and is replaced by the priority of the URL, so the request stays
    CRITICAL only when the URL contains [/interactions/] and [/callback].
    Filling in the defaults a second time changes nothing. *)
Theorem enqueue_defaults (cfg : DiscordRateLimitOrchestrator.Config)
    (request : QueuedRequest) :
  maxRetries (DiscordRateLimitOrchestrator.fill_defaults cfg request) ≠ 0
  ∧ (∃ n, timeout (DiscordRateLimitOrchestrator.fill_defaults cfg request)
          = Some n ∧ n ≠ 0)
  ∧ (maxRetries request ≠ 0 →
     maxRetries (DiscordRateLimitOrchestrator.fill_defaults cfg request)
     = maxRetries request)
  ∧ (priority request ≠ 0 →
     priority (DiscordRateLimitOrchestrator.fill_defaults cfg request)
     = priority request)
  ∧ (priority request = 0 →
     priority (DiscordRateLimitOrchestrator.fill_defaults cfg request)
     = getRequestPriority (url request) None)
  ∧ (priority (DiscordRateLimitOrchestrator.fill_defaults cfg request) = 0
     ↔ priority request = 0
       ∧ (includes "/interactions/" (url request)
          && includes "/callback" (url request)) = true)
  ∧ DiscordRateLimitOrchestrator.fill_defaults cfg
      (DiscordRateLimitOrchestrator.fill_defaults cfg request)
    = DiscordRateLimitOrchestrator.fill_defaults cfg request.
Proof.
  rewrite !fill_defaults_eq.
  cbn [url priority maxRetries timeout set_priority set_maxRetries set_timeout].
  pose proof (or_default_nonzero
                (DiscordRateLimitOrchestrator.cfg_maxRetries cfg)
                (RateLimitConfig.maxRetries DEFAULT_RATE_LIMIT_CONFIG)
                ltac:(done)) as Hm.
  pose proof (or_default_nonzero
                (DiscordRateLimitOrchestrator.cfg_requestTimeout cfg)
                (RateLimitConfig.requestTimeout DEFAULT_RATE_LIMIT_CONFIG)
                ltac:(done)) as Ht.
  pose proof (getRequestPriority_range (url request)) as [_ Hcrit].
  revert Hm Ht Hcrit.
  generalize (DiscordRateLimitOrchestrator.or_default
                (DiscordRateLimitOrchestrator.cfg_maxRetries cfg)
                (RateLimitConfig.maxRetries DEFAULT_RATE_LIMIT_CONFIG)).
  generalize (DiscordRateLimitOrchestrator.or_default
                (DiscordRateLimitOrchestrator.cfg_requestTimeout cfg)
                (RateLimitConfig.requestTimeout DEFAULT_RATE_LIMIT_CONFIG)).
  generalize (getRequestPriority (url request) None).
  intros ranked limit retries Hm Ht Hcrit.
  destruct (timeout request) as [n|]; [destruct (Z.eqb_spec n 0)|];
    destruct (Z.eqb_spec (maxRetries request) 0);
    destruct (Z.eqb_spec (priority request) 0);
    repeat match goal with
           | |- context [?a =? 0] => destruct (Z.eqb_spec a 0)
           end;
    try done;
    (split; [done|]); (split; [eauto|]); (split; [done|]);
    (split; [done|]); (split; [done|]); (split; [tauto|reflexivity]).
Qed.

(** X29. [shutdown()] on an orchestrator that is running: the
    orchestrator is marked as shut down, its cleanup timer and the queue
    processor are stopped, the queue is emptied, the store is emptied and
    its metrics are reset. The pending promise of every request that was
    queued is rejected with "Queue cleared"; no promise is created and no
    other promise changes. Afterwards a turn of the queue processor does
    nothing. *)
Theorem shutdown_rejects_the_queue (now : Z)
    (o : DiscordRateLimitOrchestrator.t) (h : Heap) :
  DiscordRateLimitOrchestrator.isShutdown o = false →
  let '(o', h') := DiscordRateLimitOrchestrator.shutdown now o h in
  DiscordRateLimitOrchestrator.isShutdown o' = true
  ∧ DiscordRateLimitOrchestrator.cleanupInterval o' = false
  ∧ DiscordRateLimitMiddleware.processing
      (DiscordRateLimitOrchestrator.middleware o') = false
  ∧ PriorityQueue.getTotalSize
      (DiscordRateLimitMiddleware.queue
         (DiscordRateLimitOrchestrator.middleware o')) = 0
  ∧ (PriorityQueue.dequeue
       (DiscordRateLimitMiddleware.queue
          (DiscordRateLimitOrchestrator.middleware o'))).1 = None
  ∧ MemoryRateLimitStore.buckets (DiscordRateLimitOrchestrator.store o') = ∅
  ∧ MemoryRateLimitStore.globalLimit (DiscordRateLimitOrchestrator.store o')
    = None
  ∧ MemoryRateLimitStore.getMetrics (DiscordRateLimitOrchestrator.store o')
    = RateLimitMetrics.zero 0 now
  ∧ length h' = length h
  ∧ (∀ queue x p,
       queue ∈ PriorityQueue.queues
                 (DiscordRateLimitMiddleware.queue
                    (DiscordRateLimitOrchestrator.middleware o)) →
       x ∈ queue → reject x = PromiseFn p → h !! p = Some Pending →
       h' !! p = Some (Rejected (mkError "Queue cleared")))
  ∧ (∀ p,
       (∀ queue x,
          queue ∈ PriorityQueue.queues
                    (DiscordRateLimitMiddleware.queue
                       (DiscordRateLimitOrchestrator.middleware o)) →
          x ∈ queue → reject x ≠ PromiseFn p) →
       h' !! p = h !! p)
  ∧ (∀ later,
       DiscordRateLimitMiddleware.processQueue_turn later
         (DiscordRateLimitOrchestrator.middleware o') h'
       = (None, DiscordRateLimitOrchestrator.middleware o', h')).
Proof.
  intros Hlive. unfold DiscordRateLimitOrchestrator.shutdown.
  rewrite Hlive. unfold DiscordRateLimitMiddleware.clearQueue.
  cbn [DiscordRateLimitMiddleware.queue DiscordRateLimitMiddleware.stop].
  pose proof (clear_heap (DiscordRateLimitMiddleware.queue
                            (DiscordRateLimitOrchestrator.middleware o)) h)
    as Hh.
  pose proof (dequeue_cleared (DiscordRateLimitMiddleware.queue
                                 (DiscordRateLimitOrchestrator.middleware o)))
    as Hd.
  destruct (PriorityQueue.clear _ h) as [q' h'] eqn:E.
  unfold PriorityQueue.clear in E. injection E as <- _.
  cbn [snd] in Hh. subst h'.
  unfold DiscordRateLimitOrchestrator.store.
  cbn [DiscordRateLimitOrchestrator.isShutdown
       DiscordRateLimitOrchestrator.cleanupInterval
       DiscordRateLimitOrchestrator.middleware
       DiscordRateLimitMiddleware.with_store DiscordRateLimitMiddleware.with_queue
       DiscordRateLimitMiddleware.store DiscordRateLimitMiddleware.queue
       DiscordRateLimitMiddleware.processing].
  rewrite destroy_record, Hd.
  split; [done|]. split; [done|]. split; [done|]. split; [done|].
  split; [done|]. split; [done|]. split; [done|]. split; [done|].
  split; [apply length_reject_all|]. split; [|split].
  - intros queue x p Hq Hx Hr Hp.
    eapply reject_all_rejects; [|exact Hr|exact Hp].
    apply elem_of_concat. eauto.
  - intros p Hp. apply reject_all_unrelated.
    intros x (queue & ? & ?)%elem_of_concat. eauto.
  - done.
Qed.

Lemma shutdown_rejects_the_queue_witness :
  DiscordRateLimitOrchestrator.isShutdown
    (DiscordRateLimitOrchestrator.shutdown 0 live_orchestrator []).1 = true.
Proof.
  pose proof (shutdown_rejects_the_queue 0 live_orchestrator [] eq_refl) as H.
  destruct (DiscordRateLimitOrchestrator.shutdown 0 live_orchestrator [])
    as [o' h'].
  destruct H as [H _]. exact H.
Defined.

(** X30. A 429 response. [executeRequest] raises [retryCount] by one
    without asking [shouldRetry]. A request without retries left fails
    with "Request failed after <maxRetries> retries": nothing is queued
    and no promise is created. For a request with retries left [enqueue]
    is called and its promise is handed back: a queue with room stores a
    request whose priority is in 0..4 in the tier of that priority, with
    the settling functions of the new, pending promise, and [totalSize]
    grows by one; a full queue rejects the new promise with "Rate limit
    queue is full" and stays as it is, and so do the settling functions
    of the request. *)
Theorem rate_limited_response_calls_enqueue (request : QueuedRequest)
    (response : HttpResponse) (now : Z)
    (m : DiscordRateLimitMiddleware.t) (h : Heap) :
  status response = 429 →
  let '(result, request', m', h') :=
    DiscordRateLimitMiddleware.executeRequest request (Responded response)
      now m h in
  (maxRetries request <= retryCount request →
   result = Throws (mkError ("Request failed after "
                             +:+ string_of_Z (maxRetries request)
                             +:+ " retries"))
   ∧ request' = set_retryCount (retryCount request + 1) request
   ∧ h' = h
   ∧ DiscordRateLimitMiddleware.queue m' = DiscordRateLimitMiddleware.queue m)
  ∧ (retryCount request < maxRetries request →
     result = Requeued (length h)
     ∧ PriorityQueue.enqueue (set_retryCount (retryCount request + 1) request)
         (DiscordRateLimitMiddleware.queue m) h
       = (DiscordRateLimitMiddleware.queue m', h', length h)
     ∧ (length (PriorityQueue.queues (DiscordRateLimitMiddleware.queue m))
        = 5%nat →
        PriorityQueue.getTotalSize (DiscordRateLimitMiddleware.queue m)
        < PriorityQueue.maxSize (DiscordRateLimitMiddleware.queue m) →
        0 <= priority request <= 4 →
        h' = h ++ [Pending]
        ∧ PriorityQueue.getTotalSize (DiscordRateLimitMiddleware.queue m')
          = PriorityQueue.getTotalSize (DiscordRateLimitMiddleware.queue m) + 1
        ∧ request'
          = set_settlers (PromiseFn (length h))
              (set_retryCount (retryCount request + 1) request)
        ∧ ∃ tier,
            PriorityQueue.get (priority request)
              (DiscordRateLimitMiddleware.queue m') = Some tier
            ∧ request' ∈ tier)
     ∧ (PriorityQueue.getTotalSize (DiscordRateLimitMiddleware.queue m)
        >= PriorityQueue.maxSize (DiscordRateLimitMiddleware.queue m) →
        h' = h ++ [Rejected (mkError "Rate limit queue is full")]
        ∧ DiscordRateLimitMiddleware.queue m'
          = DiscordRateLimitMiddleware.queue m
        ∧ request' = set_retryCount (retryCount request + 1) request)).
Proof.
  intros Hs.
  pose proof (executeRequest_rate_limited request response now m h Hs) as H.
  destruct (DiscordRateLimitMiddleware.executeRequest request
              (Responded response) now m h)
    as [[[result request'] m'] h'].
  destruct result as [v|error|p]; [done| |].
  - destruct H as (? & -> & -> & -> & ?). split; [done|]. intros; lia.
  - destruct H as (Hr & He & ->). split; [intros; lia|]. intros _.
    pose proof (enqueue_promise
                  (set_retryCount (retryCount request + 1) request)
                  (DiscordRateLimitMiddleware.queue m) h) as [Hp _].
    rewrite He in Hp. simpl in Hp. subst p.
    split; [done|]. split; [done|]. split.
    + intros HL Hroom Hpr. unfold PriorityQueue.getTotalSize in *.
      destruct (enqueue_stored
                  (set_retryCount (retryCount request + 1) request)
                  (DiscordRateLimitMiddleware.queue m) h HL Hroom Hpr)
        as (q' & E & Ht & tier & Hg & Hin).
      destruct (enqueue_room
                  (set_retryCount (retryCount request + 1) request)
                  (DiscordRateLimitMiddleware.queue m) h Hroom) as [-> _].
      rewrite E in He. injection He as <- <-.
      split; [done|]. split; [done|]. split; [done|]. eauto.
    + intros Hfull. unfold PriorityQueue.getTotalSize in *.
      destruct (enqueue_refused
                  (set_retryCount (retryCount request + 1) request)
                  (DiscordRateLimitMiddleware.queue m) h Hfull) as [E ->].
      rewrite E in He. by injection He as <- <-.
Qed.

Lemma rate_limited_response_calls_enqueue_witness :
  (DiscordRateLimitMiddleware.executeRequest (set_retryCount 3 request_A)
     (Responded rate_limited_response) 5
     (DiscordRateLimitMiddleware.new empty_store) []).1.1.1
  = Throws (mkError "Request failed after 3 retries")
  ∧ (DiscordRateLimitMiddleware.executeRequest request_A
       (Responded rate_limited_response) 5
       (DiscordRateLimitMiddleware.new empty_store) []).2
    = [Pending].
Proof.
  split.
  - pose proof (rate_limited_response_calls_enqueue
                  (set_retryCount 3 request_A) rate_limited_response 5
                  (DiscordRateLimitMiddleware.new empty_store) [] eq_refl)
      as H.
    destruct (DiscordRateLimitMiddleware.executeRequest _ _ _ _ _)
      as [[[result request'] m'] h'].
    destruct H as (H & _). destruct H as (H & _); [simpl; lia|].
    exact H.
  - pose proof (rate_limited_response_calls_enqueue request_A
                  rate_limited_response 5
                  (DiscordRateLimitMiddleware.new empty_store) [] eq_refl)
      as H.
    destruct (DiscordRateLimitMiddleware.executeRequest _ _ _ _ _)
      as [[[result request'] m'] h'].
    destruct H as (_ & H).
    destruct H as (_ & _ & H & _); [unfold request_A; simpl; lia|].
    destruct H as (H & _);
      [reflexivity | vm_compute; reflexivity
      | unfold request_A, NORMAL; simpl; lia |].
    exact H.
Defined.
